(** * Fast global bounds of a scene-graph container

    A shallow embedding of [getFastGlobalBounds] and
    [_getGlobalBoundsRecursive] (rendering/scene/bounds), the routine that
    merges the axis-aligned boxes of a container's subtree.

    Conventions of the embedding:
    - JavaScript numbers are idealised as exact integers ([Z]); rounding,
      NaN and the infinities are outside the model.
    - [Bounds] and [Matrix] instances are mutable objects.  They live in a
      store ([World]) and the code is written in state-passing style; a
      container holds references into that store.
    - The module-private [tempMatrix] is a store cell of its own: no
      container can hold a reference to it.
    - The scratch pool keeps a ghost log of its calls, so that the order of
      borrows and returns can be stated. *)

From Stdlib Require Import ZArith List Bool Lia Permutation.
From Stdlib Require String QArith Qminmax Lqa.
Import ListNotations.

Open Scope Z_scope.

(** ** Matrix *)

(** Modelled from the spec: the class Matrix (maths/matrix/Matrix) is not
    part of the sources at hand.  A transform is an affine map of the
    plane given by six scalars. *)
Record Matrix : Type := mkMatrix
  { ma : Z; mb : Z; mc : Z; md : Z; mtx : Z; mty : Z }.

Definition identityMatrix : Matrix := mkMatrix 1 0 0 1 0 0.

Definition translation (dx dy : Z) : Matrix := mkMatrix 1 0 0 1 dx dy.

Definition applyX (m : Matrix) (x y : Z) : Z := ma m * x + mc m * y + mtx m.
Definition applyY (m : Matrix) (x y : Z) : Z := mb m * x + md m * y + mty m.

Definition isTranslation (m : Matrix) : Prop :=
  ma m = 1 /\ mb m = 0 /\ mc m = 0 /\ md m = 1.

(** ** Rectangle and view frames *)

(** Modelled from the spec: the rectangle of an area override, and the
    four scalars a view exposes as its bounds. *)
Record Rectangle : Type := mkRectangle
  { x : Z; y : Z; width : Z; height : Z }.

Record Frame : Type := mkFrame
  { minX : Z; minY : Z; maxX : Z; maxY : Z }.

(** ** Bounds *)

Module Bounds.

(** Modelled from the spec: the class Bounds (scene/bounds/Bounds) is not
    part of the sources at hand.  An accumulator is either in the
    invalid state (nothing merged yet) or holds four scalars. *)
Inductive t : Type :=
| Invalid : t
| Box (x0 y0 x1 y1 : Z) : t.

(** Modelled from the spec: [clear] resets to the invalid state. *)
Definition clear (_ : t) : t := Invalid.

(** Modelled from the spec: [set] overwrites the four scalars; the
    accumulator is valid afterwards. *)
Definition set (x0 y0 x1 y1 : Z) (_ : t) : t := Box x0 y0 x1 y1.

(** Modelled from the spec: [isValid] holds once a union has
    contributed. *)
Definition isValid (bd : t) : bool :=
  match bd with Invalid => false | Box _ _ _ _ => true end.

(** Union with one point: the first point defines the box. *)
Definition addPoint (bd : t) (px py : Z) : t :=
  match bd with
  | Invalid => Box px py px py
  | Box x0 y0 x1 y1 =>
      Box (Z.min x0 px) (Z.min y0 py) (Z.max x1 px) (Z.max y1 py)
  end.

(** Modelled from the spec: union with a frame; with a transform the
    four corners are transformed first and the transformed extents are
    merged. *)
Definition addFrame (bd : t) (fx0 fy0 fx1 fy1 : Z) (m : option Matrix) : t :=
  match m with
  | None =>
      match bd with
      | Invalid => Box fx0 fy0 fx1 fy1
      | Box x0 y0 x1 y1 =>
          Box (Z.min x0 fx0) (Z.min y0 fy0) (Z.max x1 fx1) (Z.max y1 fy1)
      end
  | Some m =>
      let p00 := addPoint bd  (applyX m fx0 fy0) (applyY m fx0 fy0) in
      let p10 := addPoint p00 (applyX m fx1 fy0) (applyY m fx1 fy0) in
      let p01 := addPoint p10 (applyX m fx0 fy1) (applyY m fx0 fy1) in
      addPoint p01 (applyX m fx1 fy1) (applyY m fx1 fy1)
  end.

(** Modelled from the spec: [addRect] is [addFrame] on the extent of a
    rectangle. *)
Definition addRect (bd : t) (r : Rectangle) (m : option Matrix) : t :=
  addFrame bd (x r) (y r) (x r + width r) (y r + height r) m.

(** Modelled from the spec: [addBounds] merges the region of [other]; an
    invalid [other] contributes nothing. *)
Definition addBounds (bd other : t) (m : option Matrix) : t :=
  match other with
  | Invalid => bd
  | Box x0 y0 x1 y1 => addFrame bd x0 y0 x1 y1 m
  end.

(** Modelled from the spec: [applyMatrix] replaces the box by the box of
    its four transformed corners; nothing happens when invalid. *)
Definition applyMatrix (bd : t) (m : Matrix) : t :=
  match bd with
  | Invalid => Invalid
  | Box x0 y0 x1 y1 => addFrame Invalid x0 y0 x1 y1 (Some m)
  end.

(** A valid box whose corners are ordered. *)
Definition ordered (bd : t) : Prop :=
  match bd with
  | Invalid => True
  | Box x0 y0 x1 y1 => x0 <= x1 /\ y0 <= y1
  end.

Definition inside (bd : t) (px py : Z) : Prop :=
  match bd with
  | Invalid => False
  | Box x0 y0 x1 y1 => x0 <= px <= x1 /\ y0 <= py <= y1
  end.

(** [contains big small]: every coordinate of [small] lies within [big]. *)
Definition contains (big small : t) : Prop :=
  match small, big with
  | Invalid, _ => True
  | Box _ _ _ _, Invalid => False
  | Box sx0 sy0 sx1 sy1, Box bx0 by0 bx1 by1 =>
      bx0 <= sx0 /\ by0 <= sy0 /\ sx1 <= bx1 /\ sy1 <= by1
  end.

End Bounds.

(** ** Scene graph *)

(** Modelled from the spec: the interface Effect is not part of the
    sources at hand.  An effect may or may not expose [addBounds]; when
    it does, the operation adjusts the accumulator it is handed. *)
Record Effect : Type := mkEffect
  { addBounds : option (Bounds.t -> Bounds.t) }.

Module View.
Record t : Type := mk { bounds : Frame }.
End View.

(** A matrix owned by the scene graph, named by its index in the store. *)
Definition MatrixRef : Type := nat.

Module RenderGroup.
Record t : Type := mk { worldTransform : MatrixRef }.
End RenderGroup.

Unset Elimination Schemes.

(** Modelled from the spec: the class Container is not part of the
    sources at hand; these are the fields the walk reads.  The child
    lists make a finite tree. *)
Inductive Container : Type := mkContainer
  { localVisibleRenderable : Z;
    measurable : bool;
    effects : list Effect;
    isRenderGroupRoot : bool;
    boundsArea : option Rectangle;
    worldTransform : MatrixRef;
    view : option View.t;
    rgTransform : MatrixRef;
    children : list Container;
    renderGroup : RenderGroup.t }.
Set Elimination Schemes.

(** Induction over a container and, through [Forall], over its children. *)
Section ContainerInd.
Variable P : Container -> Prop.
Hypothesis step : forall t, Forall P (children t) -> P t.

Fixpoint Container_ind (t : Container) : P t :=
  match t as t0 return P t0 with
  | mkContainer lvr ms ef rg ba wt vw rt ch grp =>
      step (mkContainer lvr ms ef rg ba wt vw rt ch grp)
        ((fix all (l : list Container) : Forall P l :=
            match l with
            | [] => Forall_nil P
            | k :: l' => Forall_cons k (Container_ind k) (all l')
            end) ch)
  end.
End ContainerInd.

(** ** The store *)

Definition BoundsRef : Type := nat.

(** Ghost record of the calls made to the scratch pool. *)
Inductive PoolEvent : Type :=
| Borrowed (r : BoundsRef)
| Returned (r : BoundsRef).

Record World : Type := mkWorld
  { tempMatrix : Matrix;
    matrices : MatrixRef -> Matrix;
    heap : BoundsRef -> Bounds.t;
    pool : list BoundsRef;
    fresh : BoundsRef;
    poolLog : list PoolEvent }.

Definition updateAt {A : Type} (f : nat -> A) (k : nat) (v : A) : nat -> A :=
  fun j => if Nat.eqb j k then v else f j.

(** A matrix object is either the module's [tempMatrix] or one owned by
    the scene graph. *)
Inductive MatrixLoc : Type :=
| TempMatrix
| SceneMatrix (r : MatrixRef).

Definition readMatrix (w : World) (l : MatrixLoc) : Matrix :=
  match l with
  | TempMatrix => tempMatrix w
  | SceneMatrix r => matrices w r
  end.

Definition writeMatrix (l : MatrixLoc) (m : Matrix) (w : World) : World :=
  match l with
  | TempMatrix =>
      mkWorld m (matrices w) (heap w) (pool w) (fresh w) (poolLog w)
  | SceneMatrix r =>
      mkWorld (tempMatrix w) (updateAt (matrices w) r m) (heap w) (pool w)
        (fresh w) (poolLog w)
  end.

Definition writeBounds (r : BoundsRef) (bd : Bounds.t) (w : World) : World :=
  mkWorld (tempMatrix w) (matrices w) (updateAt (heap w) r bd) (pool w)
    (fresh w) (poolLog w).

(** In-place mutation of the accumulator at [r]. *)
Definition modifyBounds (r : BoundsRef) (f : Bounds.t -> Bounds.t) (w : World)
  : World :=
  writeBounds r (f (heap w r)) w.

Definition logEvent (e : PoolEvent) (w : World) : World :=
  mkWorld (tempMatrix w) (matrices w) (heap w) (pool w) (fresh w)
    (poolLog w ++ [e]).

(** Modelled from the spec: the scratch pool (bounds/utils/boundsPool) is
    not part of the sources at hand.  It is a free list that hands out a
    cleared accumulator, a new one when the list is empty, and accepts an
    accumulator back for reuse. *)
Definition getBounds (w : World) : BoundsRef * World :=
  match pool w with
  | r :: rest =>
      (r, logEvent (Borrowed r)
            (mkWorld (tempMatrix w) (matrices w)
               (updateAt (heap w) r Bounds.Invalid) rest (fresh w) (poolLog w)))
  | [] =>
      (fresh w,
       logEvent (Borrowed (fresh w))
         (mkWorld (tempMatrix w) (matrices w)
            (updateAt (heap w) (fresh w) Bounds.Invalid) [] (S (fresh w))
            (poolLog w)))
  end.

Definition returnBounds (r : BoundsRef) (w : World) : World :=
  logEvent (Returned r)
    (mkWorld (tempMatrix w) (matrices w) (heap w) (r :: pool w) (fresh w)
       (poolLog w)).

Section FastGlobalBounds.

(** The arithmetic of [Matrix.invert]; the class is outside the sources at
    hand, so the development holds for any such function. *)
Variable invertMatrix : Matrix -> Matrix.

(** Modelled from the spec: [copyTo] overwrites the destination object
    with the receiver's values and returns the destination; [invert]
    overwrites the receiver with its inverse and returns the receiver. *)
Definition Matrix_copyTo (src dst : MatrixLoc) (w : World)
  : MatrixLoc * World :=
  (dst, writeMatrix dst (readMatrix w src) w).

Definition Matrix_invert (l : MatrixLoc) (w : World) : MatrixLoc * World :=
  (l, writeMatrix l (invertMatrix (readMatrix w l)) w).

(** The loop over [target.effects] of [_getGlobalBoundsRecursive], with
    its flag [advanced]. *)
Fixpoint effectsLoop (target : Container) (localBounds : BoundsRef)
  (effs : list Effect) (advanced : bool) (w : World) : bool * World :=
  match effs with
  | [] => (advanced, w)
  | e :: rest =>
      match addBounds e with
      | Some f =>
          let w1 :=
            if negb advanced
            then modifyBounds localBounds
                   (fun bd => Bounds.applyMatrix bd
                      (matrices w
                         (RenderGroup.worldTransform (renderGroup target)))) w
            else w in
          effectsLoop target localBounds rest true
            (modifyBounds localBounds f w1)
      | None => effectsLoop target localBounds rest advanced w
      end
  end.

Fixpoint _getGlobalBoundsRecursive (target : Container) (bounds : BoundsRef)
  (w : World) {struct target} : World :=
  if negb (localVisibleRenderable target =? 3) || negb (measurable target)
  then w
  else
    let manageEffects := negb (Nat.eqb (length (effects target)) 0) in
    let '(localBounds, w1) :=
      if isRenderGroupRoot target || manageEffects
      then let '(r, w') := getBounds w in (r, modifyBounds r Bounds.clear w')
      else (bounds, w) in
    let w2 :=
      match boundsArea target with
      | Some area =>
          modifyBounds bounds
            (fun bd => Bounds.addRect bd area
               (Some (matrices w1 (worldTransform target)))) w1
      | None =>
          let w' :=
            match view target with
            | Some v =>
                let viewBounds := View.bounds v in
                modifyBounds localBounds
                  (fun bd => Bounds.addFrame bd
                     (minX viewBounds) (minY viewBounds)
                     (maxX viewBounds) (maxY viewBounds)
                     (Some (matrices w1 (rgTransform target)))) w1
            | None => w1
            end in
          fold_left
            (fun acc child => _getGlobalBoundsRecursive child localBounds acc)
            (children target) w'
      end in
    if manageEffects then
      let '(advanced, w3) :=
        effectsLoop target localBounds (effects target) false w2 in
      let w4 :=
        if advanced then
          let '(tmp, wa) :=
            Matrix_copyTo
              (SceneMatrix (RenderGroup.worldTransform (renderGroup target)))
              TempMatrix w3 in
          let '(inv, wb) := Matrix_invert tmp wa in
          let wc :=
            modifyBounds localBounds
              (fun bd => Bounds.applyMatrix bd (readMatrix wb inv)) wb in
          modifyBounds bounds
            (fun bd => Bounds.addBounds bd (heap wc localBounds)
               (Some (matrices wc (rgTransform target)))) wc
        else w3 in
      returnBounds localBounds
        (modifyBounds bounds
           (fun bd => Bounds.addBounds bd (heap w4 localBounds) None) w4)
    else if isRenderGroupRoot target then
      returnBounds localBounds
        (modifyBounds bounds
           (fun bd => Bounds.addBounds bd (heap w2 localBounds)
              (Some (matrices w2 (rgTransform target)))) w2)
    else w2.

Definition getFastGlobalBounds (target : Container) (bounds : BoundsRef)
  (w : World) : BoundsRef * World :=
  let w1 := modifyBounds bounds Bounds.clear w in
  let w2 := _getGlobalBoundsRecursive target bounds w1 in
  let w3 :=
    if negb (isRenderGroupRoot target)
    then modifyBounds bounds
           (fun bd => Bounds.applyMatrix bd
              (matrices w2 (RenderGroup.worldTransform (renderGroup target))))
           w2
    else w2 in
  let w4 :=
    if negb (Bounds.isValid (heap w3 bounds))
    then modifyBounds bounds (Bounds.set 0 0 0 0) w3
    else w3 in
  (bounds, w4).


(** ** The phases of one visit

    The body of [_getGlobalBoundsRecursive] cut at its blank lines; the
    equation [visit_eq] below puts the pieces back together. *)

Definition skipped (target : Container) : bool :=
  negb (localVisibleRenderable target =? 3) || negb (measurable target).

Definition manageEffects (target : Container) : bool :=
  negb (Nat.eqb (length (effects target)) 0).

Definition needsScratch (target : Container) : bool :=
  isRenderGroupRoot target || manageEffects target.

Definition borrowCleared (w : World) : BoundsRef * World :=
  let '(r, w') := getBounds w in (r, modifyBounds r Bounds.clear w').

Definition acquire (target : Container) (bounds : BoundsRef) (w : World)
  : BoundsRef * World :=
  if needsScratch target then borrowCleared w else (bounds, w).

Definition addArea (target : Container) (area : Rectangle)
  (bounds : BoundsRef) (w : World) : World :=
  modifyBounds bounds
    (fun bd => Bounds.addRect bd area
       (Some (matrices w (worldTransform target)))) w.

Definition addView (target : Container) (localBounds : BoundsRef) (w : World)
  : World :=
  match view target with
  | Some v =>
      modifyBounds localBounds
        (fun bd => Bounds.addFrame bd
           (minX (View.bounds v)) (minY (View.bounds v))
           (maxX (View.bounds v)) (maxY (View.bounds v))
           (Some (matrices w (rgTransform target)))) w
  | None => w
  end.

Definition visitChildren (localBounds : BoundsRef) (l : list Container)
  (w : World) : World :=
  fold_left
    (fun acc child => _getGlobalBoundsRecursive child localBounds acc) l w.

Definition content (target : Container) (bounds localBounds : BoundsRef)
  (w : World) : World :=
  match boundsArea target with
  | Some area => addArea target area bounds w
  | None =>
      visitChildren localBounds (children target)
        (addView target localBounds w)
  end.

(** [bounds.addBounds(localBounds, m)] on the store. *)
Definition mergeInto (bounds localBounds : BoundsRef) (m : option Matrix)
  (w : World) : World :=
  modifyBounds bounds
    (fun bd => Bounds.addBounds bd (heap w localBounds) m) w.

(** Lines 105 and 106: leave world space through [tempMatrix], then merge
    under the node's [rgTransform]. *)
Definition convertBack (target : Container) (bounds localBounds : BoundsRef)
  (w : World) : World :=
  let '(tmp, wa) :=
    Matrix_copyTo
      (SceneMatrix (RenderGroup.worldTransform (renderGroup target)))
      TempMatrix w in
  let '(inv, wb) := Matrix_invert tmp wa in
  let wc :=
    modifyBounds localBounds
      (fun bd => Bounds.applyMatrix bd (readMatrix wb inv)) wb in
  mergeInto bounds localBounds
    (Some (matrices wc (rgTransform target))) wc.

Definition leave (target : Container) (bounds localBounds : BoundsRef)
  (w : World) : World :=
  if manageEffects target then
    let '(advanced, w3) :=
      effectsLoop target localBounds (effects target) false w in
    let w4 :=
      if advanced then convertBack target bounds localBounds w3 else w3 in
    returnBounds localBounds (mergeInto bounds localBounds None w4)
  else if isRenderGroupRoot target then
    returnBounds localBounds
      (mergeInto bounds localBounds
         (Some (matrices w (rgTransform target))) w)
  else w.

(** ** Definitions used by the statements *)

(** [target] with its child list replaced. *)
Definition withChildren (target : Container) (l : list Container)
  : Container :=
  mkContainer (localVisibleRenderable target) (measurable target)
    (effects target) (isRenderGroupRoot target) (boundsArea target)
    (worldTransform target) (view target) (rgTransform target) l
    (renderGroup target).

(** [target] without its view and without children. *)
Definition withoutContent (target : Container) : Container :=
  mkContainer (localVisibleRenderable target) (measurable target)
    (effects target) (isRenderGroupRoot target) (boundsArea target)
    (worldTransform target) None (rgTransform target) []
    (renderGroup target).

(** [target] with its render-group-root flag replaced. *)
Definition withRenderGroupRoot (target : Container) (flag : bool)
  : Container :=
  mkContainer (localVisibleRenderable target) (measurable target)
    (effects target) flag (boundsArea target)
    (worldTransform target) (view target) (rgTransform target)
    (children target) (renderGroup target).

(** [target] with its local-to-render-group transform replaced. *)
Definition withRgTransform (target : Container) (rt : MatrixRef)
  : Container :=
  mkContainer (localVisibleRenderable target) (measurable target)
    (effects target) (isRenderGroupRoot target) (boundsArea target)
    (worldTransform target) (view target) rt
    (children target) (renderGroup target).

(** [removedFrom c t t']: [t'] is [t] with one occurrence of the node [c]
    taken out of a child list, at any depth. *)
Inductive removedFrom (c : Container) : Container -> Container -> Prop :=
| removed_here : forall t l1 l2,
    children t = l1 ++ c :: l2 ->
    removedFrom c t (withChildren t (l1 ++ l2))
| removed_below : forall t l1 k k' l2,
    children t = l1 ++ k :: l2 ->
    removedFrom c k k' ->
    removedFrom c t (withChildren t (l1 ++ k' :: l2)).

(** The combined visibility flag has both of its bits set. *)
Definition bothBitsSet (flag : Z) : Prop := Z.land flag 3 = 3.

(** The operations of the effects that expose [addBounds], in list order. *)
Definition capableEffects (effs : list Effect)
  : list (Bounds.t -> Bounds.t) :=
  flat_map
    (fun e => match addBounds e with Some f => [f] | None => [] end) effs.

(** The effect handling as the specification words it: when some effect
    is capable, [local] enters render-group world space once, every
    capable effect runs on it in order, [local] leaves world space by the
    inverse of the render group's world transform and is merged under the
    node's local-to-render-group transform; then, in every case, [local]
    is merged with no transform and handed back to the pool. *)
Definition effectHandlingSpec (target : Container)
  (bounds localBounds : BoundsRef) (w : World) : World :=
  let world := matrices w (RenderGroup.worldTransform (renderGroup target)) in
  let w4 :=
    match capableEffects (effects target) with
    | [] => w
    | fs =>
        let w3 :=
          fold_left (fun acc f => modifyBounds localBounds f acc) fs
            (modifyBounds localBounds
               (fun bd => Bounds.applyMatrix bd world) w) in
        let wb := writeMatrix TempMatrix (invertMatrix world) w3 in
        let wc :=
          modifyBounds localBounds
            (fun bd => Bounds.applyMatrix bd (invertMatrix world)) wb in
        mergeInto bounds localBounds
          (Some (matrices w (rgTransform target))) wc
    end in
  returnBounds localBounds (mergeInto bounds localBounds None w4).

(** Both the caller's accumulator and the working one are invalid. *)
Definition bothInvalid (b lb : BoundsRef) (w : World) : Prop :=
  heap w lb = Bounds.Invalid /\ heap w b = Bounds.Invalid.

(** Every capable effect of the list leaves an invalid accumulator
    invalid. *)
Definition keepInvalid (effs : list Effect) : Prop :=
  forall e f, In e effs -> addBounds e = Some f ->
    f Bounds.Invalid = Bounds.Invalid.

(** Well-bracketed pool logs: every borrow is closed by the return of the
    same instance, and what lies between is well bracketed too. *)
Inductive balanced : list PoolEvent -> Prop :=
| balanced_nil : balanced []
| balanced_wrap : forall r inner rest,
    balanced inner -> balanced rest ->
    balanced (Borrowed r :: inner ++ Returned r :: rest).

Definition isBorrow (e : PoolEvent) : bool :=
  match e with Borrowed _ => true | Returned _ => false end.

Definition borrowCount (l : list PoolEvent) : nat :=
  length (filter isBorrow l).

(** The number of visits of the walk from [target] that run on a node
    rooting a render group or carrying effects. *)
Fixpoint scratchVisits (target : Container) : nat :=
  if skipped target then 0%nat
  else
    ((if needsScratch target then 1 else 0) +
     match boundsArea target with
     | Some _ => 0
     | None => list_sum (map scratchVisits (children target))
     end)%nat.

(** What one visit appends to the log, given what its children append. *)
Definition visitLog (t : Container) (r : BoundsRef) (inner : list PoolEvent)
  : list PoolEvent :=
  if skipped t then []
  else if needsScratch t then Borrowed r :: inner ++ [Returned r]
  else inner.

(** The target and all its descendants, in the order of the walk. *)
Fixpoint nodes (target : Container) : list Container :=
  target :: flat_map nodes (children target).

(** A visible, measurable node without effects that roots no render
    group. *)
Definition plainNode (n : Container) : Prop :=
  localVisibleRenderable n = 3 /\ measurable n = true /\
  effects n = [] /\ isRenderGroupRoot n = false.

Definition noArea (n : Container) : Prop := boundsArea n = None.

(** [outer] after [inner]. *)
Definition composeMatrix (outer inner : Matrix) : Matrix :=
  mkMatrix
    (ma outer * ma inner + mc outer * mb inner)
    (mb outer * ma inner + md outer * mb inner)
    (ma outer * mc inner + mc outer * md inner)
    (mb outer * mc inner + md outer * md inner)
    (ma outer * mtx inner + mc outer * mty inner + mtx outer)
    (mb outer * mtx inner + md outer * mty inner + mty outer).

(** The scene-graph invariant tying a node's world transform to its
    render group: world = render-group world after local-to-group. *)
Definition coherent (w : World) (group : MatrixRef) (n : Container) : Prop :=
  matrices w (worldTransform n) =
  composeMatrix (matrices w group) (matrices w (rgTransform n)).

(** The box moved by [(dx, dy)]. *)
Definition shift (dx dy : Z) (bd : Bounds.t) : Bounds.t :=
  match bd with
  | Bounds.Invalid => Bounds.Invalid
  | Bounds.Box x0 y0 x1 y1 =>
      Bounds.Box (x0 + dx) (y0 + dy) (x1 + dx) (y1 + dy)
  end.

(** Union of the view frames of the nodes of [l], each under the
    transform [tr] gives it. *)
Definition unionViews (tr : Container -> Matrix) (l : list Container)
  (acc : Bounds.t) : Bounds.t :=
  fold_left
    (fun bd n =>
       match view n with
       | Some v =>
           Bounds.addFrame bd
             (minX (View.bounds v)) (minY (View.bounds v))
             (maxX (View.bounds v)) (maxY (View.bounds v)) (Some (tr n))
       | None => bd
       end) l acc.

(** The true combined bounds: the union of the view frames of the target
    and its descendants, each under its node's world transform. *)
Definition trueBounds (w : World) (target : Container) : Bounds.t :=
  unionViews (fun n => matrices w (worldTransform n)) (nodes target)
    Bounds.Invalid.

(** What the caller reads in the output accumulator. *)
Definition resultOf (target : Container) (bounds : BoundsRef) (w : World)
  : Bounds.t :=
  heap (snd (getFastGlobalBounds target bounds w))
    (fst (getFastGlobalBounds target bounds w)).

Definition orZero (bd : Bounds.t) : Bounds.t :=
  match bd with
  | Bounds.Invalid => Bounds.Box 0 0 0 0
  | Bounds.Box _ _ _ _ => bd
  end.

(** The conditions the never-smaller property is claimed under: every
    node plain, every transform a translation, world transforms
    coherent. *)
Definition translatedScene (w : World) (target : Container) : Prop :=
  let group := RenderGroup.worldTransform (renderGroup target) in
  isTranslation (matrices w group) /\
  Forall
    (fun n =>
       plainNode n /\
       isTranslation (matrices w (rgTransform n)) /\
       isTranslation (matrices w (worldTransform n)) /\
       coherent w group n) (nodes target).

End FastGlobalBounds.

(** ** Concrete scenes *)

(** [Matrix.invert] by the determinant, with integer division: exact on
    matrices of determinant 1 or -1, translations among them. *)
Definition invertByDeterminant (m : Matrix) : Matrix :=
  let n := ma m * md m - mb m * mc m in
  mkMatrix (md m / n) (- mb m / n) (- mc m / n) (ma m / n)
    ((mc m * mty m - md m * mtx m) / n)
    (- (ma m * mty m - mb m * mtx m) / n).

(** A store whose matrices are: 0 the identity, 1 the translation by
    (5,5), 2 the translation by (2,3), 3 the translation by (7,8), and
    whose pool is empty. *)
Definition sampleWorld : World :=
  mkWorld identityMatrix
    (fun r =>
       match r with
       | 1%nat => translation 5 5
       | 2%nat => translation 2 3
       | 3%nat => translation 7 8
       | _ => identityMatrix
       end)
    (fun _ => Bounds.Invalid) [] 1%nat [].

Definition leaf (flag : Z) (ms : bool) (effs : list Effect) (root : bool)
  (area : option Rectangle) (wt : MatrixRef) (v : option Frame)
  (rt : MatrixRef) (group : MatrixRef) : Container :=
  mkContainer flag ms effs root area wt
    (match v with Some f => Some (View.mk f) | None => None end)
    rt [] (RenderGroup.mk group).

(** The scenario of the specification: C carries a view (0,0,10,10), R
    has C as its only child; both are visible and measurable, without
    effects, area override or render group of their own. *)
Definition scenarioChild (wt rt group : MatrixRef) : Container :=
  leaf 3 true [] false None wt (Some (mkFrame 0 0 10 10)) rt group.

Definition scenarioRoot (wt rt group : MatrixRef) (c : Container)
  : Container :=
  mkContainer 3 true [] false None wt None rt [c] (RenderGroup.mk group).

Definition scenarioC : Container := scenarioChild 1%nat 0%nat 1%nat.

Definition scenarioR : Container := scenarioRoot 1%nat 0%nat 1%nat scenarioC.

(** A node whose view is (0,0,10,10) and whose area override is the
    rectangle at (0,0) of size 1 by 1; every transform is the identity. *)
Definition overridden : Container :=
  leaf 3 true [] false (Some (mkRectangle 0 0 1 1)) 0%nat
    (Some (mkFrame 0 0 10 10)) 0%nat 0%nat.

(** An effect that sets the accumulator to (0,0,5,5), on a node with no
    view, no children and no area override. *)
Definition fillEffect : Effect :=
  mkEffect (Some (Bounds.set 0 0 5 5)).

Definition onlyEffect : Container :=
  leaf 3 true [fillEffect] false None 0%nat None 0%nat 0%nat.

(** An effect padding a valid accumulator by one unit on every side. *)
Definition padEffect : Effect :=
  mkEffect
    (Some (fun bd =>
             match bd with
             | Bounds.Invalid => Bounds.Invalid
             | Bounds.Box x0 y0 x1 y1 =>
                 Bounds.Box (x0 - 1) (y0 - 1) (x1 + 1) (y1 + 1)
             end)).

Definition inertEffect : Effect := mkEffect None.

(** A node without content that carries an effect with no operation and
    a padding effect. *)
Definition emptyWithEffects : Container :=
  leaf 3 true [inertEffect; padEffect] false None 0%nat None 0%nat 0%nat.

(** A unit-square view under a padding effect. *)
Definition paddedSquare : Container :=
  leaf 3 true [inertEffect; padEffect] false None 1%nat
    (Some (mkFrame 0 0 1 1)) 0%nat 1%nat.

(** A render-group root whose only effect has no operation. *)
Definition inertRoot : Container :=
  mkContainer 3 true [inertEffect] true None 3%nat
    (Some (View.mk (mkFrame 0 0 4 4))) 2%nat [scenarioC]
    (RenderGroup.mk 1%nat).

(** A child whose local visibility bit is off. *)
Definition hidden : Container :=
  leaf 1 true [padEffect] true None 3%nat (Some (mkFrame 0 0 100 100))
    2%nat 1%nat.

(** A second visible child, moved by (2,3) inside the group. *)
Definition scenarioD : Container :=
  leaf 3 true [] false None 3%nat (Some (mkFrame 0 0 4 4)) 2%nat 1%nat.

Definition familyOfThree : Container :=
  mkContainer 3 true [] false None 1%nat None 0%nat
    [scenarioC; hidden; scenarioD] (RenderGroup.mk 1%nat).

Definition familyOfTwo : Container :=
  mkContainer 3 true [] false None 1%nat None 0%nat
    [scenarioC; scenarioD] (RenderGroup.mk 1%nat).

(** ** The walk as a function of values

    What the walk leaves in the caller's accumulator, written without a
    store: a node that needs a scratch accumulator starts it invalid and
    merges it at the end. *)

(** Union of two accumulators. *)
Definition join (a b : Bounds.t) : Bounds.t := Bounds.addBounds a b None.

Definition viewInto (mats : MatrixRef -> Matrix) (target : Container)
  (acc : Bounds.t) : Bounds.t :=
  match view target with
  | Some v =>
      Bounds.addFrame acc
        (minX (View.bounds v)) (minY (View.bounds v))
        (maxX (View.bounds v)) (maxY (View.bounds v))
        (Some (mats (rgTransform target)))
  | None => acc
  end.

Definition runEffects (fs : list (Bounds.t -> Bounds.t)) (bd : Bounds.t)
  : Bounds.t :=
  fold_left (fun acc f => f acc) fs bd.

(** The value the last part of a visit leaves in the caller's
    accumulator, from the caller's value [accB] and the working value
    [loc]. *)
Definition leaveValue (invert : Matrix -> Matrix)
  (mats : MatrixRef -> Matrix) (target : Container) (accB loc : Bounds.t)
  : Bounds.t :=
  if manageEffects target then
    match capableEffects (effects target) with
    | [] => Bounds.addBounds accB loc None
    | fs =>
        let world :=
          mats (RenderGroup.worldTransform (renderGroup target)) in
        let back :=
          Bounds.applyMatrix
            (runEffects fs (Bounds.applyMatrix loc world)) (invert world) in
        Bounds.addBounds
          (Bounds.addBounds accB back (Some (mats (rgTransform target))))
          back None
    end
  else if isRenderGroupRoot target then
    Bounds.addBounds accB loc (Some (mats (rgTransform target)))
  else accB.

Fixpoint boundsOf (invert : Matrix -> Matrix) (mats : MatrixRef -> Matrix)
  (target : Container) (acc : Bounds.t) {struct target} : Bounds.t :=
  if skipped target then acc
  else if needsScratch target then
    match boundsArea target with
    | Some area =>
        leaveValue invert mats target
          (Bounds.addRect acc area (Some (mats (worldTransform target))))
          Bounds.Invalid
    | None =>
        leaveValue invert mats target acc
          (fold_left (fun l child => boundsOf invert mats child l)
             (children target) (viewInto mats target Bounds.Invalid))
    end
  else
    match boundsArea target with
    | Some area =>
        Bounds.addRect acc area (Some (mats (worldTransform target)))
    | None =>
        fold_left (fun a child => boundsOf invert mats child a)
          (children target) (viewInto mats target acc)
    end.

(** The pool holds distinct instances, all of them allocated. *)
Definition poolSound (w : World) : Prop :=
  NoDup (pool w) /\ Forall (fun r => (r < fresh w)%nat) (pool w).

(** [b] is an allocated accumulator that is not in the pool: one the
    caller owns. *)
Definition owned (b : BoundsRef) (w : World) : Prop :=
  (b < fresh w)%nat /\ ~ In b (pool w).

(** The deepest nesting of visited nodes that need a scratch
    accumulator. *)
Fixpoint scratchDepth (target : Container) : nat :=
  if skipped target then 0%nat
  else
    ((if needsScratch target then 1 else 0) +
     match boundsArea target with
     | Some _ => 0
     | None => fold_right Nat.max 0 (map scratchDepth (children target))
     end)%nat.

(** No node of the tree carries an effect. *)
Definition effectFree (target : Container) : Prop :=
  Forall (fun n => effects n = []) (nodes target).

(** The shape of the pool after a piece of the walk: what was there,
    followed by the instances allocated meanwhile. *)
Definition grown (w w' : World) : Prop :=
  exists ext,
    pool w' = pool w ++ ext /\
    NoDup ext /\
    Forall (fun r => (fresh w <= r < fresh w')%nat) ext /\
    fresh w' = (fresh w + length ext)%nat.


(** A store with three allocated accumulators besides the output one,
    two of them in the pool. *)
Definition busyWorld : World :=
  mkWorld identityMatrix (matrices sampleWorld)
    (fun r =>
       match r with
       | 0%nat => Bounds.Box 50 50 60 60
       | 1%nat => Bounds.Box 1 1 2 2
       | 2%nat => Bounds.Box 9 9 9 9
       | _ => Bounds.Invalid
       end)
    [2%nat; 3%nat] 4%nat [].

(** A render-group root without effects, moved by (2,3) inside its
    parent's group, over the child C. *)
Definition plainRoot : Container :=
  mkContainer 3 true [] true None 3%nat
    (Some (View.mk (mkFrame 0 0 4 4))) 2%nat [scenarioC]
    (RenderGroup.mk 1%nat).

(** The same with the identity as local-to-render-group transform. *)
Definition stillRoot : Container :=
  mkContainer 3 true [] true None 1%nat
    (Some (View.mk (mkFrame 0 0 4 4))) 0%nat [scenarioC; scenarioD]
    (RenderGroup.mk 1%nat).

(** A padded square inside a render-group root inside a plain node. *)
Definition nested : Container :=
  mkContainer 3 true [] false None 1%nat None 0%nat
    [plainRoot; paddedSquare; scenarioD] (RenderGroup.mk 1%nat).

(** A render-group root whose only effect has no operation, moved by
    (2,3), with no view of its own, over the child C. *)
Definition bareInertRoot : Container :=
  mkContainer 3 true [inertEffect] true None 3%nat None 2%nat [scenarioC]
    (RenderGroup.mk 1%nat).

(** The same kind of root with the view (0,0,4,4) and no child. *)
Definition viewInertRoot : Container :=
  leaf 3 true [inertEffect] true None 3%nat (Some (mkFrame 0 0 4 4))
    2%nat 1%nat.

(** ** TextView

    The view of a text node (rendering/text/TextView).  The style
    classes, the three measuring backends, the asset cache and
    [ensureTextStyle] are outside the sources at hand and are taken as
    parameters ([Env]); a style is a value here, so what is said below
    holds as long as a style object is not changed behind the view's
    back.  The calls to [owner.onViewUpdate] and to the style's event
    emitter are counted in ghost fields. *)

Module TextView.

Import String.

Inductive RenderMode : Type := canvas | html | bitmap.

(** [const map = { canvas: 'text', html: 'htmlText', bitmap: 'bitmapText' }] *)
Definition map (m : RenderMode) : string :=
  match m with
  | canvas => "text"
  | html => "htmlText"
  | bitmap => "bitmapText"
  end%string.

(** [TextString]: a string, or a number or an object with [toString].
    Of a number or an object the view uses nothing but the string its
    [toString] returns, so that string stands for the value. *)
Inductive TextString : Type :=
| ofString (s : string)
| ofNumber (rendering : string)
| ofObject (rendering : string).

Definition toString (v : TextString) : string :=
  match v with
  | ofString s => s
  | ofNumber rendering => rendering
  | ofObject rendering => rendering
  end.

(** The two fields of a style the view reads. *)
Record Style : Type := mkStyle { padding : Z; styleKey : string }.

Module Size.
Record t : Type := mk { width : Z; height : Z }.
End Size.

Module Measurement.
Record t : Type := mk { width : Z; height : Z; scale : Z; offsetY : Z }.
End Measurement.

Record Env : Type := mkEnv
  { StyleInput : Type;
    emptyOptions : StyleInput;
    instanceofHTMLTextStyle : StyleInput -> bool;
    fontFamily : StyleInput -> option string;
    ensureTextStyle : RenderMode -> option StyleInput -> Style;
    Cache_has : option string -> bool;
    BitmapFontManager_measureText : option string -> Style -> Measurement.t;
    measureHtmlText : option string -> Style -> Size.t;
    CanvasTextMetrics_measureText : option string -> Style -> Size.t }.

Inductive EmitterCall : Type :=
| Off (s : Style)
| On (s : Style).

Record t : Type := mk
  { uid : nat;
    type : string;
    ownerUpdates : nat;
    batched : bool;
    anchor : Z * Z;
    _autoResolution : bool;
    _resolution : Z;
    _style : Style;
    _didUpdate : bool;
    _bounds : Z * Z * Z * Z;
    _boundsDirty : bool;
    _text : option string;
    _renderMode : RenderMode;
    emitterCalls : list EmitterCall }.

(** The module's [uid] counter and the two static defaults. *)
Record Statics : Type := mkStatics
  { uidCounter : nat;
    defaultResolution : Z;
    defaultAutoResolution : bool }.

Record Options (E : Env) : Type := mkOptions
  { text : option TextString;
    renderMode : option RenderMode;
    resolution : option Z;
    style : option (StyleInput E) }.

Arguments text {E} _.
Arguments renderMode {E} _.
Arguments resolution {E} _.
Arguments style {E} _.

(** [a ?? b] *)
Definition coalesce {A : Type} (a : option A) (b : A) : A :=
  match a with Some v => v | None => b end.

Definition onUpdate (v : t) : t :=
  mk (uid v) (type v) (S (ownerUpdates v)) (batched v) (anchor v)
    (_autoResolution v) (_resolution v) (_style v) true (_bounds v) true
    (_text v) (_renderMode v) (emitterCalls v).

(** [this._text === value], where [_text] may still be undefined. *)
Definition sameText (current : option string) (value : string) : bool :=
  match current with
  | Some s => String.eqb s value
  | None => false
  end.

Definition set_text (value : TextString) (v : t) : t :=
  let value := toString value in
  if sameText (_text v) value then v
  else
    onUpdate
      (mk (uid v) (type v) (ownerUpdates v) (batched v) (anchor v)
         (_autoResolution v) (_resolution v) (_style v) (_didUpdate v)
         (_bounds v) (_boundsDirty v) (Some value) (_renderMode v)
         (emitterCalls v)).

Definition get_text (v : t) : option string := _text v.

Definition get_style (v : t) : Style := _style v.

Definition set_style (E : Env) (style : option (StyleInput E)) (v : t) : t :=
  let style := match style with Some s => s | None => emptyOptions E end in
  let new := ensureTextStyle E (_renderMode v) (Some style) in
  onUpdate
    (mk (uid v) (type v) (ownerUpdates v) (batched v) (anchor v)
       (_autoResolution v) (_resolution v) new (_didUpdate v)
       (_bounds v) (_boundsDirty v) (_text v) (_renderMode v)
       (emitterCalls v ++ [Off (_style v); On new])).

Definition set_resolution (value : Z) (v : t) : t :=
  mk (uid v) (type v) (ownerUpdates v) (batched v) (anchor v)
    (_autoResolution v) value (_style v) (_didUpdate v)
    (_bounds v) (_boundsDirty v) (_text v) (_renderMode v) (emitterCalls v).

Definition get_resolution (v : t) : Z := _resolution v.

Definition withBounds (b : Z * Z * Z * Z) (dirty : bool) (v : t) : t :=
  mk (uid v) (type v) (ownerUpdates v) (batched v) (anchor v)
    (_autoResolution v) (_resolution v) (_style v) (_didUpdate v)
    b dirty (_text v) (_renderMode v) (emitterCalls v).

Definition _updateBounds (E : Env) (v : t) : t :=
  let padding := padding (_style v) in
  if String.eqb (type v) "bitmapText" then
    let bitmapMeasurement :=
      BitmapFontManager_measureText E (get_text v) (_style v) in
    let scale := Measurement.scale bitmapMeasurement in
    let offset := Measurement.offsetY bitmapMeasurement * scale in
    withBounds
      (- padding,
       offset - padding,
       Measurement.width bitmapMeasurement * scale - padding,
       (Measurement.height bitmapMeasurement * scale + offset) - padding)
      (_boundsDirty v) v
  else if String.eqb (type v) "htmlText" then
    let htmlMeasurement := measureHtmlText E (get_text v) (_style v) in
    withBounds
      (- padding, - padding,
       Size.width htmlMeasurement - padding,
       Size.height htmlMeasurement - padding)
      (_boundsDirty v) v
  else
    let canvasMeasurement :=
      CanvasTextMetrics_measureText E (get_text v) (_style v) in
    withBounds
      (- padding, - padding,
       Size.width canvasMeasurement - padding,
       Size.height canvasMeasurement - padding)
      (_boundsDirty v) v.

Definition get_bounds (E : Env) (v : t) : (Z * Z * Z * Z) * t :=
  if _boundsDirty v then
    let v1 := _updateBounds E v in
    let v2 := withBounds (_bounds v1) false v1 in
    (_bounds v2, v2)
  else (_bounds v, v).

Definition addBounds (E : Env) (bounds : Bounds.t) (v : t) : Bounds.t * t :=
  let '((b0, b1, b2, b3), v') := get_bounds E v in
  (Bounds.addFrame bounds b0 b1 b2 b3 None, v').

Definition containsPoint (E : Env) (px py : Z) (v : t) : bool * t :=
  let '((_, _, width, _), v1) := get_bounds E v in
  let '((_, _, _, height), v2) := get_bounds E v1 in
  let x1 := - width * fst (anchor v2) in
  if (x1 <=? px) && (px <? x1 + width) then
    let y1 := - height * snd (anchor v2) in
    if (y1 <=? py) && (py <? y1 + height) then (true, v2) else (false, v2)
  else (false, v2).

(** [`${this.text}`] *)
Definition template (s : option string) : string :=
  match s with Some s => s | None => "undefined" end%string.

Definition _getKey (v : t) : string :=
  (template (get_text v) ++ ":" ++ styleKey (_style v))%string.

Definition _detectRenderType (E : Env) (style : option (StyleInput E))
  : RenderMode :=
  if match style with
     | Some s => instanceofHTMLTextStyle E s
     | None => false
     end
  then html
  else if Cache_has E
            match style with Some s => fontFamily E s | None => None end
       then bitmap
       else canvas.

(** [!options.resolution] *)
Definition falsy (r : option Z) : bool :=
  match r with Some n => n =? 0 | None => true end.

(** The constructor: the field initialisers, then the body.  [_style] is
    written here at once although the body assigns it after the text; no
    step in between reads it. *)
Definition construct (E : Env) (options : Options E) (g : Statics)
  : t * Statics :=
  let renderMode :=
    coalesce (renderMode options) (_detectRenderType E (style options)) in
  let fresh :=
    mk (uidCounter g) "text" 0 true (0, 0)
      (defaultAutoResolution g) (defaultResolution g)
      (ensureTextStyle E renderMode (style options)) true (0, 1, 0, 0) true
      None renderMode [] in
  let v := set_text (coalesce (text options) (ofString "")) fresh in
  (mk (uid v) (map renderMode) (ownerUpdates v) (batched v) (0, 0)
     (coalesce (Some (falsy (resolution options))) (defaultAutoResolution g))
     (coalesce (resolution options) (defaultResolution g))
     (_style v) (_didUpdate v) (_bounds v) (_boundsDirty v) (_text v)
     (_renderMode v) (emitterCalls v),
   mkStatics (S (uidCounter g)) (defaultResolution g)
     (defaultAutoResolution g)).

(** What [_updateBounds] would write now. *)
Definition measured (E : Env) (v : t) : Z * Z * Z * Z :=
  _bounds (_updateBounds E v).

(** The views reached from the constructor through the view's methods. *)
Inductive reachable (E : Env) : t -> Prop :=
| reach_construct : forall options g,
    reachable E (fst (construct E options g))
| reach_set_text : forall value v,
    reachable E v -> reachable E (set_text value v)
| reach_set_style : forall style v,
    reachable E v -> reachable E (set_style E style v)
| reach_set_resolution : forall value v,
    reachable E v -> reachable E (set_resolution value v)
| reach_onUpdate : forall v,
    reachable E v -> reachable E (onUpdate v)
| reach_get_bounds : forall v,
    reachable E v -> reachable E (snd (get_bounds E v))
| reach_addBounds : forall bounds v,
    reachable E v -> reachable E (snd (addBounds E bounds v))
| reach_containsPoint : forall px py v,
    reachable E v -> reachable E (snd (containsPoint E px py v)).

(** The cached bounds, when not marked dirty, are the measured ones. *)
Definition coherent (E : Env) (v : t) : Prop :=
  _boundsDirty v = false -> _bounds v = measured E v.

(** A sample environment: styles are given by a flag (HTML or not) and
    a font family; families are all in the cache; every backend measures
    ten units a character, the bitmap one at scale 2 with an offset. *)
Definition sampleEnv : Env :=
  mkEnv (bool * option string) (false, None) fst snd
    (fun _ _ => mkStyle 2 "plain")
    (fun f => match f with Some _ => true | None => false end)
    (fun s _ => Measurement.mk
                  (10 * Z.of_nat (String.length (template s))) 12 2 3)
    (fun s _ => Size.mk (10 * Z.of_nat (String.length (template s))) 14)
    (fun s _ => Size.mk (10 * Z.of_nat (String.length (template s))) 16).

Definition sampleStatics : Statics := mkStatics 7 1 true.

Definition helloOptions : Options sampleEnv :=
  mkOptions sampleEnv (Some (ofString "hello")) None (Some 2)
    (Some (false, Some "Arial"%string)).

Definition hello : t := fst (construct sampleEnv helloOptions sampleStatics).

(** A canvas text: no style given, so no font family to find in the
    cache; its text is changed after construction. *)
Definition plainOptions : Options sampleEnv :=
  mkOptions sampleEnv (Some (ofNumber "42")) None None None.

Definition plainHello : t :=
  set_text (ofString "hello")
    (fst (construct sampleEnv plainOptions sampleStatics)).

End TextView.

(** ** SubtractBlend

    The two shader programs the filter hands to [BlendModeFilter]
    (rendering/filters/blend-modes/SubtractBlend), one in GLSL and one
    in WGSL.  Shader floats are taken as exact rationals. *)

Module SubtractBlend.

Import QArith Qminmax.
Local Open Scope Q_scope.

Record vec3 : Type := mkVec3 { r : Q; g : Q; b : Q }.

Record vec4 : Type := mkVec4 { rgb : vec3; a : Q }.

(** The [gl] program. *)
Module GL.

Definition subtract (base blend : Q) : Q := Qmax 0 (base - blend).

Definition blendSubtract (base blend : vec3) (opacity : Q) : vec3 :=
  let blended :=
    mkVec3 (subtract (r base) (r blend)) (subtract (g base) (g blend))
      (subtract (b base) (b blend)) in
  mkVec3
    (r blended * opacity + r base * (1 - opacity))
    (g blended * opacity + g base * (1 - opacity))
    (b blended * opacity + b base * (1 - opacity)).

(** [fragColor = vec4(blendSubtract(back.rgb, front.rgb, front.a), uBlend)] *)
Definition main (back front : vec4) (uBlend : Q) : vec4 :=
  mkVec4 (blendSubtract (rgb back) (rgb front) (a front)) uBlend.

End GL.

(** The [gpu] program. *)
Module GPU.

Definition subtract (base blend : Q) : Q := Qmax 0 (base - blend).

Definition blendSubtract (base blend : vec3) (opacity : Q) : vec3 :=
  let blended :=
    mkVec3 (subtract (r base) (r blend)) (subtract (g base) (g blend))
      (subtract (b base) (b blend)) in
  mkVec3
    (r blended * opacity + r base * (1 - opacity))
    (g blended * opacity + g base * (1 - opacity))
    (b blended * opacity + b base * (1 - opacity)).

(** [out = vec4<f32>(blendSubtract(back.rgb, front.rgb, front.a),
    blendUniforms.uBlend)] *)
Definition main (back front : vec4) (uBlend : Q) : vec4 :=
  mkVec4 (blendSubtract (rgb back) (rgb front) (a front)) uBlend.

End GPU.

(** Every channel of [v] is at least [lo] and at most what [hi] has in
    that channel. *)
Definition within (lo : Q) (hi v : vec3) : Prop :=
  (lo <= r v <= r hi) /\ (lo <= g v <= g hi) /\ (lo <= b v <= b hi).

(** A colour: every channel between 0 and 1. *)
Definition colour (v : vec3) : Prop := within 0 (mkVec3 1 1 1) v.

Definition sameVec3 (u v : vec3) : Prop :=
  r u == r v /\ g u == g v /\ b u == b v.

End SubtractBlend.

(** ** Render groups below the target

    The local-to-render-group transform of a node is relative to the
    render group the node belongs to, and a render-group root sets up
    the group of its descendants.  A [chain] lists, outermost first, the
    transforms that lead from a group to the space the bounds are asked
    in: the world transform of the target's render group, then the
    local-to-render-group transforms of the render-group roots passed on
    the way down. *)

Definition applyPoint (m : Matrix) (p : Z * Z) : Z * Z :=
  (applyX m (fst p) (snd p), applyY m (fst p) (snd p)).

(** [p] taken through the transforms of [chain], the last one first. *)
Definition throughChain (chain : list Matrix) (p : Z * Z) : Z * Z :=
  fold_right applyPoint p chain.

(** [bd] taken through the transforms of [chain] by [applyMatrix], the
    last one first. *)
Definition boxThrough (chain : list Matrix) (bd : Bounds.t) : Bounds.t :=
  fold_right (fun m acc => Bounds.applyMatrix acc m) bd chain.

Definition corners (f : Frame) : list (Z * Z) :=
  [(minX f, minY f); (maxX f, minY f); (minX f, maxY f); (maxX f, maxY f)].

(** A visible, measurable node that nothing clips or overrides: it has
    no area override, none of its effects has bounds logic, and when it
    roots a render group it has no effect and no view of its own. *)
Definition unclipped (n : Container) : Prop :=
  localVisibleRenderable n = 3 /\ measurable n = true /\
  boundsArea n = None /\
  Forall (fun e => addBounds e = None) (effects n) /\
  (isRenderGroupRoot n = true -> effects n = [] /\ view n = None).

(** The node's world transform takes each corner of the node's view
    where the node's local-to-render-group transform followed by
    [chain] takes it. *)
Definition placedBy (w : World) (chain : list Matrix) (n : Container)
  : Prop :=
  match view n with
  | None => True
  | Some v =>
      Forall
        (fun p =>
           applyPoint (matrices w (worldTransform n)) p =
           throughChain chain (applyPoint (matrices w (rgTransform n)) p))
        (corners (View.bounds v))
  end.

(** The chain for the children of [n]. *)
Definition chainBelow (w : World) (chain : list Matrix) (n : Container)
  : list Matrix :=
  if isRenderGroupRoot n then chain ++ [matrices w (rgTransform n)]
  else chain.

(** Every node of the tree is unclipped and placed by the chain of its
    render group. *)
#[warnings="-register-all"]
Inductive staged (w : World) : list Matrix -> Container -> Prop :=
| staged_node : forall chain n,
    unclipped n ->
    placedBy w chain n ->
    Forall (staged w (chainBelow w chain n)) (children n) ->
    staged w chain n.

(** The chain of the target itself. *)
Definition targetChain (w : World) (target : Container) : list Matrix :=
  if isRenderGroupRoot target then []
  else [matrices w (RenderGroup.worldTransform (renderGroup target))].

(** The render-group roots of the tree only translate. *)
Definition rootsTranslate (w : World) (l : list Container) : Prop :=
  Forall
    (fun n =>
       isRenderGroupRoot n = true ->
       isTranslation (matrices w (rgTransform n))) l.

(** The render groups on the way only translate: the world transform of
    the target's render group, when the target does not root one, and
    the local-to-render-group transform of every render-group root. *)
Definition groupsTranslate (w : World) (target : Container) : Prop :=
  Forall isTranslation (targetChain w target) /\
  rootsTranslate w (nodes target).

(** The step of [unionViews] for one node. *)
Definition viewUnder (tr : Container -> Matrix) (n : Container)
  (acc : Bounds.t) : Bounds.t :=
  unionViews tr [n] acc.

(** A render-group root with the view (0,0,4,4), moved by (2,3) inside
    its parent's group, and so by (7,8) in the world. *)
Definition viewRoot : Container :=
  leaf 3 true [] true None 3%nat (Some (mkFrame 0 0 4 4)) 2%nat 3%nat.

Definition overViewRoot : Container :=
  mkContainer 3 true [] false None 1%nat None 0%nat [viewRoot]
    (RenderGroup.mk 1%nat).

(** A node with the view (0,0,10,10) under an effect that sets the
    accumulator to (2,2,3,3), as a mask would; every transform is the
    identity. *)
Definition maskEffect : Effect := mkEffect (Some (Bounds.set 2 2 3 3)).

Definition masked : Container :=
  leaf 3 true [maskEffect] false None 0%nat (Some (mkFrame 0 0 10 10))
    0%nat 0%nat.

(** A render-group root moved by (2,3), with an effect that has no
    bounds logic, over a child with the view (0,0,10,10) that does not
    move inside the group. *)
Definition groupChild : Container :=
  leaf 3 true [] false None 2%nat (Some (mkFrame 0 0 10 10)) 0%nat 2%nat.

Definition inertGroup : Container :=
  mkContainer 3 true [inertEffect] true None 2%nat None 2%nat [groupChild]
    (RenderGroup.mk 2%nat).

(** A tree with a render group below the target.  The target sits in
    the group moved by (5,5); its child A has the view (0,-100,10,10);
    its child G roots a render group moved by (2,3), has no view, and
    holds a node with the view (-20,-20,-10,-10); its child F, moved by
    (2,3) and carrying an effect without bounds logic, has the view
    (30,30,40,40). *)
Definition tallLeaf : Container :=
  leaf 3 true [] false None 1%nat (Some (mkFrame 0 (-100) 10 10))
    0%nat 1%nat.

Definition innerLeft : Container :=
  leaf 3 true [] false None 3%nat (Some (mkFrame (-20) (-20) (-10) (-10)))
    0%nat 3%nat.

Definition groupG : Container :=
  mkContainer 3 true [] true None 3%nat None 2%nat [innerLeft]
    (RenderGroup.mk 3%nat).

Definition farRight : Container :=
  leaf 3 true [inertEffect] false None 3%nat (Some (mkFrame 30 30 40 40))
    2%nat 1%nat.

Definition grouped : Container :=
  mkContainer 3 true [] false None 1%nat None 0%nat
    [tallLeaf; groupG; farRight] (RenderGroup.mk 1%nat).

(** * Properties *)

Section Properties.

Variable invertMatrix : Matrix -> Matrix.

Local Abbreviation visit := (_getGlobalBoundsRecursive invertMatrix).
Local Abbreviation fastBounds := (getFastGlobalBounds invertMatrix).
Local Abbreviation result := (resultOf invertMatrix).

(** ** The unfolding equation of the walk *)

Lemma visit_eq (target : Container) (bounds : BoundsRef) (w : World) :
  visit target bounds w =
  if skipped target then w
  else
    let '(localBounds, w1) := acquire target bounds w in
    leave invertMatrix target bounds localBounds
      (content invertMatrix target bounds localBounds w1).
Proof.
  destruct target; reflexivity.
Qed.

Lemma visit_skipped (target : Container) (bounds : BoundsRef) (w : World) :
  skipped target = true -> visit target bounds w = w.
Proof.
  intros Hs. rewrite visit_eq, Hs. reflexivity.
Qed.

Lemma visitChildren_app (lb : BoundsRef) (l1 l2 : list Container) (w : World) :
  visitChildren invertMatrix lb (l1 ++ l2) w =
  visitChildren invertMatrix lb l2 (visitChildren invertMatrix lb l1 w).
Proof.
  unfold visitChildren. apply fold_left_app.
Qed.

Lemma visitChildren_cons (lb : BoundsRef) (k : Container)
  (l : list Container) (w : World) :
  visitChildren invertMatrix lb (k :: l) w =
  visitChildren invertMatrix lb l (visit k lb w).
Proof.
  reflexivity.
Qed.

(** ** Store lemmas *)

Lemma updateAt_same {A : Type} (f : nat -> A) (k : nat) (v : A) :
  updateAt f k v k = v.
Proof.
  unfold updateAt. now rewrite Nat.eqb_refl.
Qed.

Lemma updateAt_other {A : Type} (f : nat -> A) (k j : nat) (v : A) :
  j <> k -> updateAt f k v j = f j.
Proof.
  intros Hne. unfold updateAt.
  destruct (Nat.eqb_spec j k); [contradiction | reflexivity].
Qed.

Lemma heap_modifyBounds_same (r : BoundsRef) (f : Bounds.t -> Bounds.t)
  (w : World) :
  heap (modifyBounds r f w) r = f (heap w r).
Proof.
  apply updateAt_same.
Qed.

Lemma heap_modifyBounds_other (r j : BoundsRef) (f : Bounds.t -> Bounds.t)
  (w : World) :
  j <> r -> heap (modifyBounds r f w) j = heap w j.
Proof.
  intros Hne. now apply updateAt_other.
Qed.

(** ** Skipped nodes *)

Lemma skipped_of_flag (target : Container) :
  ~ bothBitsSet (localVisibleRenderable target) \/ measurable target = false ->
  skipped target = true.
Proof.
  unfold skipped, bothBitsSet. intros [Hflag | Hm].
  - destruct (Z.eqb_spec (localVisibleRenderable target) 3) as [E | E].
    + exfalso. apply Hflag. rewrite E. reflexivity.
    + reflexivity.
  - rewrite Hm. apply orb_true_r.
Qed.

Lemma skipped_withChildren (t : Container) (l : list Container) :
  skipped (withChildren t l) = skipped t.
Proof. reflexivity. Qed.

Lemma acquire_withChildren (t : Container) (l : list Container)
  (b : BoundsRef) (w : World) :
  acquire (withChildren t l) b w = acquire t b w.
Proof. reflexivity. Qed.

(** The effect loop reads its node only through the render group. *)
Lemma effectsLoop_group (t t' : Container) (lb : BoundsRef)
  (effs : list Effect) :
  renderGroup t = renderGroup t' ->
  forall advanced w,
    effectsLoop t lb effs advanced w = effectsLoop t' lb effs advanced w.
Proof.
  intros Hg. induction effs as [| e rest IH]; intros advanced w; simpl.
  - reflexivity.
  - destruct (addBounds e); [| apply IH].
    rewrite Hg. apply IH.
Qed.

Lemma leave_withChildren (t : Container) (l : list Container)
  (b lb : BoundsRef) (w : World) :
  leave invertMatrix (withChildren t l) b lb w = leave invertMatrix t b lb w.
Proof.
  unfold leave.
  rewrite (effectsLoop_group (withChildren t l) t lb (effects t) eq_refl).
  reflexivity.
Qed.

Lemma content_withChildren (t : Container) (l : list Container)
  (b lb : BoundsRef) (w : World) :
  content invertMatrix (withChildren t l) b lb w =
  match boundsArea t with
  | Some area => addArea t area b w
  | None => visitChildren invertMatrix lb l (addView t lb w)
  end.
Proof. reflexivity. Qed.

(** Visits that agree on every child agree on the parent. *)
Lemma visit_withChildren_ext (t : Container) (l l' : list Container) :
  (forall lb w, visitChildren invertMatrix lb l w =
                visitChildren invertMatrix lb l' w) ->
  forall b w, visit (withChildren t l) b w = visit (withChildren t l') b w.
Proof.
  intros Hext b w. rewrite !visit_eq, !skipped_withChildren.
  destruct (skipped t); [reflexivity |].
  rewrite !acquire_withChildren.
  destruct (acquire t b w) as [lb w1].
  rewrite !leave_withChildren, !content_withChildren.
  destruct (boundsArea t); [reflexivity |].
  now rewrite Hext.
Qed.

Lemma withChildren_children (t : Container) :
  withChildren t (children t) = t.
Proof. destruct t; reflexivity. Qed.

Lemma removedFrom_visit (c t t' : Container) :
  skipped c = true ->
  removedFrom c t t' ->
  forall b w, visit t b w = visit t' b w.
Proof.
  intros Hs Hrm. induction Hrm as [t l1 l2 Hch | t l1 k k' l2 Hch Hrm IH];
    intros b w.
  - rewrite <- (withChildren_children t) at 1. rewrite Hch.
    apply visit_withChildren_ext. intros lb w0.
    rewrite !visitChildren_app, visitChildren_cons.
    now rewrite (visit_skipped c lb _ Hs).
  - rewrite <- (withChildren_children t) at 1. rewrite Hch.
    apply visit_withChildren_ext. intros lb w0.
    rewrite !visitChildren_app, !visitChildren_cons.
    now rewrite IH.
Qed.

(** C5: a node whose combined visibility flag lacks a bit, or that is not
    measurable, makes the visit return at once: the store, and with it
    the accumulator passed in, is left as it was, whatever the node's
    children are; and the bounds of any tree equal the bounds of the same
    tree with that node taken out. *)
Theorem C5_skipped_node_contributes_nothing (c : Container) :
  ~ bothBitsSet (localVisibleRenderable c) \/ measurable c = false ->
  (forall b w, visit c b w = w) /\
  (forall l b w, visit (withChildren c l) b w = w) /\
  (forall t t', removedFrom c t t' ->
     forall b w, fastBounds t b w = fastBounds t' b w).
Proof.
  intros Hc. pose proof (skipped_of_flag c Hc) as Hs.
  split; [| split].
  - intros b w. now apply visit_skipped.
  - intros l b w. apply visit_skipped. now rewrite skipped_withChildren.
  - intros t t' Hrm b w. unfold getFastGlobalBounds.
    rewrite (removedFrom_visit c t t' Hs Hrm).
    assert (Hroot : isRenderGroupRoot t' = isRenderGroupRoot t)
      by (destruct Hrm; reflexivity).
    assert (Hgrp : renderGroup t' = renderGroup t)
      by (destruct Hrm; reflexivity).
    now rewrite Hroot, Hgrp.
Qed.

(** ** The scene graph's matrices are only read *)

Lemma matrices_writeTemp (m : Matrix) (w : World) :
  matrices (writeMatrix TempMatrix m w) = matrices w.
Proof. reflexivity. Qed.

Lemma matrices_modifyBounds (r : BoundsRef) (f : Bounds.t -> Bounds.t)
  (w : World) :
  matrices (modifyBounds r f w) = matrices w.
Proof. reflexivity. Qed.

Lemma matrices_getBounds (w : World) :
  matrices (snd (getBounds w)) = matrices w.
Proof.
  unfold getBounds. destruct (pool w); reflexivity.
Qed.

Lemma matrices_acquire (t : Container) (b : BoundsRef) (w : World) :
  matrices (snd (acquire t b w)) = matrices w.
Proof.
  unfold acquire, borrowCleared. destruct (needsScratch t); [| reflexivity].
  pose proof (matrices_getBounds w) as H.
  destruct (getBounds w) as [r w']. exact H.
Qed.

Lemma matrices_effectsLoop (t : Container) (lb : BoundsRef)
  (effs : list Effect) :
  forall advanced w,
    matrices (snd (effectsLoop t lb effs advanced w)) = matrices w.
Proof.
  induction effs as [| e rest IH]; intros advanced w; simpl.
  - reflexivity.
  - destruct (addBounds e); rewrite IH; [| reflexivity].
    destruct advanced; reflexivity.
Qed.

Lemma matrices_convertBack (t : Container) (b lb : BoundsRef) (w : World) :
  matrices (convertBack invertMatrix t b lb w) = matrices w.
Proof. reflexivity. Qed.

Lemma tempMatrix_convertBack (t : Container) (b lb : BoundsRef) (w : World) :
  tempMatrix (convertBack invertMatrix t b lb w) =
  invertMatrix (matrices w (RenderGroup.worldTransform (renderGroup t))).
Proof. reflexivity. Qed.

Lemma matrices_leave (t : Container) (b lb : BoundsRef) (w : World) :
  matrices (leave invertMatrix t b lb w) = matrices w.
Proof.
  unfold leave. destruct (manageEffects t).
  - pose proof (matrices_effectsLoop t lb (effects t) false w) as H.
    destruct (effectsLoop t lb (effects t) false w) as [advanced w3].
    simpl in H. destruct advanced; simpl; exact H.
  - destruct (isRenderGroupRoot t); reflexivity.
Qed.

Lemma matrices_visitChildren (lb : BoundsRef) (l : list Container) :
  Forall (fun k => forall b w, matrices (visit k b w) = matrices w) l ->
  forall w, matrices (visitChildren invertMatrix lb l w) = matrices w.
Proof.
  induction 1 as [| k l Hk _ IH]; intros w.
  - reflexivity.
  - rewrite visitChildren_cons, IH. apply Hk.
Qed.

Lemma matrices_addView (t : Container) (lb : BoundsRef) (w : World) :
  matrices (addView t lb w) = matrices w.
Proof.
  unfold addView. destruct (view t); reflexivity.
Qed.

Lemma matrices_visit (t : Container) :
  forall b w, matrices (visit t b w) = matrices w.
Proof.
  induction t as [t IH] using Container_ind. intros b w.
  rewrite visit_eq. destruct (skipped t); [reflexivity |].
  pose proof (matrices_acquire t b w) as Ha.
  destruct (acquire t b w) as [lb w1]. simpl in Ha.
  rewrite matrices_leave. unfold content.
  destruct (boundsArea t).
  - exact Ha.
  - rewrite (matrices_visitChildren lb _ IH), matrices_addView. exact Ha.
Qed.

(** C10: the walk reads the scene graph's matrices and writes none of
    them: after [getFastGlobalBounds] every matrix of the scene graph,
    the render group's world transform among them, holds the values it
    held before; the inversion of the effect handling lands in
    [tempMatrix], which then holds the inverse of the render group's
    world transform. *)
Theorem C10_scene_transforms_not_mutated (t : Container) (b : BoundsRef)
  (w : World) :
  matrices (snd (fastBounds t b w)) = matrices w /\
  readMatrix (snd (fastBounds t b w))
    (SceneMatrix (RenderGroup.worldTransform (renderGroup t))) =
  readMatrix w (SceneMatrix (RenderGroup.worldTransform (renderGroup t))) /\
  (forall lb w0,
     matrices (convertBack invertMatrix t b lb w0) = matrices w0 /\
     tempMatrix (convertBack invertMatrix t b lb w0) =
     invertMatrix
       (matrices w0 (RenderGroup.worldTransform (renderGroup t)))).
Proof.
  assert (H : matrices (snd (fastBounds t b w)) = matrices w).
  { unfold getFastGlobalBounds. simpl.
    destruct (negb (Bounds.isValid _)); destruct (negb (isRenderGroupRoot t));
      simpl; now rewrite matrices_visit. }
  split; [exact H | split].
  - unfold readMatrix. now rewrite H.
  - intros lb w0. split; reflexivity.
Qed.

(** ** The top level *)

Lemma fastBounds_heap (t : Container) (b : BoundsRef) (w : World) :
  result t b w =
  orZero
    (let acc := heap (visit t b (modifyBounds b Bounds.clear w)) b in
     if isRenderGroupRoot t then acc
     else Bounds.applyMatrix acc
            (matrices w (RenderGroup.worldTransform (renderGroup t)))).
Proof.
  unfold resultOf, getFastGlobalBounds. cbn [fst snd].
  rewrite matrices_visit. cbn [matrices modifyBounds writeBounds].
  destruct (isRenderGroupRoot t); cbn [negb].
  - destruct (heap (visit t b (modifyBounds b Bounds.clear w)) b) eqn:E;
      cbn [Bounds.isValid negb orZero].
    + apply heap_modifyBounds_same.
    + exact E.
  - rewrite heap_modifyBounds_same.
    destruct (Bounds.applyMatrix _ _) eqn:E; cbn [Bounds.isValid negb orZero].
    + apply heap_modifyBounds_same.
    + rewrite heap_modifyBounds_same. exact E.
Qed.

(** C4: the output is the accumulator the walk leaves, taken through the
    render group's world transform once, after the walk, exactly when the
    target does not root a render group, and taken as it is when the
    target does; the only later step is the replacement of an invalid
    accumulator by (0,0,0,0). *)
Theorem C4_top_level_transform (t : Container) (b : BoundsRef) (w : World) :
  fst (fastBounds t b w) = b /\
  result t b w =
  orZero
    (let acc := heap (visit t b (modifyBounds b Bounds.clear w)) b in
     if isRenderGroupRoot t then acc
     else Bounds.applyMatrix acc
            (matrices w (RenderGroup.worldTransform (renderGroup t)))).
Proof.
  split; [reflexivity | apply fastBounds_heap].
Qed.

(** ** A walk that finds nothing *)

Lemma bothInvalid_modify (b lb r : BoundsRef) (f : Bounds.t -> Bounds.t)
  (w : World) :
  bothInvalid b lb w -> f Bounds.Invalid = Bounds.Invalid ->
  bothInvalid b lb (modifyBounds r f w).
Proof.
  intros [Hl Hb] Hf. split.
  - destruct (Nat.eq_dec lb r) as [-> | Hne].
    + now rewrite heap_modifyBounds_same, Hl.
    + now rewrite heap_modifyBounds_other.
  - destruct (Nat.eq_dec b r) as [-> | Hne].
    + now rewrite heap_modifyBounds_same, Hb.
    + now rewrite heap_modifyBounds_other.
Qed.

Lemma bothInvalid_mergeInto (b lb : BoundsRef) (m : option Matrix)
  (w : World) :
  bothInvalid b lb w -> bothInvalid b lb (mergeInto b lb m w).
Proof.
  intros H. unfold mergeInto. destruct H as [Hl Hb].
  rewrite Hl. apply bothInvalid_modify; [now split | reflexivity].
Qed.

Lemma bothInvalid_effectsLoop (t : Container) (b lb : BoundsRef)
  (effs : list Effect) :
  keepInvalid effs ->
  forall advanced w,
    bothInvalid b lb w ->
    bothInvalid b lb (snd (effectsLoop t lb effs advanced w)).
Proof.
  induction effs as [| e rest IH]; intros Hk advanced w Hw; simpl.
  - exact Hw.
  - assert (Hrest : keepInvalid rest).
    { intros e' f' Hin. apply Hk. now right. }
    destruct (addBounds e) as [f |] eqn:Ef; [| now apply IH].
    apply IH; [exact Hrest |].
    apply bothInvalid_modify; [| apply (Hk e f); [now left | exact Ef]].
    destruct advanced; cbn [negb]; [exact Hw |].
    apply bothInvalid_modify; [exact Hw | reflexivity].
Qed.

Lemma bothInvalid_acquire (t : Container) (b : BoundsRef) (w : World) :
  heap w b = Bounds.Invalid ->
  bothInvalid b (fst (acquire t b w)) (snd (acquire t b w)).
Proof.
  intros Hb. unfold acquire, borrowCleared, getBounds.
  destruct (needsScratch t); [| now split].
  destruct (pool w) as [| r rest]; cbn [fst snd]; split;
    try apply heap_modifyBounds_same.
  - destruct (Nat.eq_dec b (fresh w)) as [-> | Hne].
    + apply heap_modifyBounds_same.
    + rewrite heap_modifyBounds_other by exact Hne.
      cbn [heap logEvent]. now rewrite updateAt_other.
  - destruct (Nat.eq_dec b r) as [-> | Hne].
    + apply heap_modifyBounds_same.
    + rewrite heap_modifyBounds_other by exact Hne.
      cbn [heap logEvent]. now rewrite updateAt_other.
Qed.

Lemma bothInvalid_leave (t : Container) (b lb : BoundsRef) (w : World) :
  keepInvalid (effects t) ->
  bothInvalid b lb w ->
  heap (leave invertMatrix t b lb w) b = Bounds.Invalid.
Proof.
  intros Hk Hw. unfold leave. destruct (manageEffects t).
  - pose proof (bothInvalid_effectsLoop t b lb (effects t) Hk false w Hw)
      as H3.
    destruct (effectsLoop t lb (effects t) false w) as [advanced w3].
    cbn [snd] in H3.
    assert (H4 : bothInvalid b lb
                   (if advanced then convertBack invertMatrix t b lb w3
                    else w3)).
    { destruct advanced; [| exact H3].
      unfold convertBack, Matrix_copyTo, Matrix_invert.
      apply bothInvalid_mergeInto.
      apply bothInvalid_modify; [| reflexivity].
      exact H3. }
    apply (bothInvalid_mergeInto b lb None) in H4. apply H4.
  - destruct (isRenderGroupRoot t); [| apply Hw].
    apply (bothInvalid_mergeInto b lb
             (Some (matrices w (rgTransform t)))) in Hw.
    apply Hw.
Qed.

Lemma visit_nothing (t : Container) (b : BoundsRef) (w : World) :
  view t = None -> children t = [] -> boundsArea t = None ->
  keepInvalid (effects t) ->
  heap w b = Bounds.Invalid ->
  heap (visit t b w) b = Bounds.Invalid.
Proof.
  intros Hv Hc Ha Hk Hb. rewrite visit_eq.
  destruct (skipped t); [exact Hb |].
  pose proof (bothInvalid_acquire t b w Hb) as Hacq.
  destruct (acquire t b w) as [lb w1]. cbn [fst snd] in Hacq.
  apply bothInvalid_leave; [exact Hk |].
  unfold content, addView. now rewrite Ha, Hv, Hc.
Qed.

(** C7, as the code has it: the output is always a valid rectangle; it is
    (0,0,0,0) whenever the accumulator is invalid after the walk; and a
    target with no view, no children and no area override yields
    (0,0,0,0) provided none of its effects turns an invalid accumulator
    into a valid one. *)
Theorem C7_empty_default (t : Container) (b : BoundsRef) (w : World) :
  Bounds.isValid (result t b w) = true /\
  (heap (visit t b (modifyBounds b Bounds.clear w)) b = Bounds.Invalid ->
   result t b w = Bounds.Box 0 0 0 0) /\
  (view t = None -> children t = [] -> boundsArea t = None ->
   keepInvalid (effects t) ->
   result t b w = Bounds.Box 0 0 0 0).
Proof.
  rewrite fastBounds_heap. cbn zeta.
  assert (Hinv : heap (visit t b (modifyBounds b Bounds.clear w)) b
                 = Bounds.Invalid ->
                 orZero
                   (if isRenderGroupRoot t
                    then heap (visit t b (modifyBounds b Bounds.clear w)) b
                    else Bounds.applyMatrix
                           (heap (visit t b (modifyBounds b Bounds.clear w)) b)
                           (matrices w
                              (RenderGroup.worldTransform (renderGroup t))))
                 = Bounds.Box 0 0 0 0).
  { intros ->. destruct (isRenderGroupRoot t); reflexivity. }
  split; [| split].
  - destruct (if isRenderGroupRoot t then _ else _); reflexivity.
  - exact Hinv.
  - intros Hv Hc Ha Hk. apply Hinv.
    apply visit_nothing; try assumption.
    apply heap_modifyBounds_same.
Qed.

(** ** Area overrides *)

Lemma leave_group (t t' : Container) (b lb : BoundsRef) (w : World) :
  effects t' = effects t ->
  isRenderGroupRoot t' = isRenderGroupRoot t ->
  rgTransform t' = rgTransform t ->
  renderGroup t' = renderGroup t ->
  leave invertMatrix t' b lb w = leave invertMatrix t b lb w.
Proof.
  intros He Hr Ht Hg. unfold leave, manageEffects, convertBack.
  rewrite He, Hr, Ht, Hg.
  now rewrite (effectsLoop_group t' t lb (effects t) Hg).
Qed.

(** C6: on a visited node that declares an area override, the content
    step is one union of the override, under the node's world transform,
    into the caller's accumulator; an accumulator borrowed for the node
    is left as it was, and the visit is the one of the same node without
    its view and without its children. *)
Theorem C6_area_override (t : Container) (area : Rectangle) :
  skipped t = false ->
  boundsArea t = Some area ->
  (forall b lb w1,
     content invertMatrix t b lb w1 = addArea t area b w1 /\
     heap (content invertMatrix t b lb w1) b =
     Bounds.addRect (heap w1 b) area
       (Some (matrices w1 (worldTransform t))) /\
     (lb <> b -> heap (content invertMatrix t b lb w1) lb = heap w1 lb)) /\
  (forall b w,
     visit t b w =
     (let '(lb, w1) := acquire t b w in
      leave invertMatrix t b lb (addArea t area b w1)) /\
     visit t b w = visit (withoutContent t) b w).
Proof.
  intros Hs Ha. split.
  - intros b lb w1.
    assert (Hc : content invertMatrix t b lb w1 = addArea t area b w1)
      by (unfold content; now rewrite Ha).
    rewrite Hc. split; [reflexivity | split].
    + apply heap_modifyBounds_same.
    + intros Hne. now apply heap_modifyBounds_other.
  - intros b w.
    assert (Hv : visit t b w =
                 (let '(lb, w1) := acquire t b w in
                  leave invertMatrix t b lb (addArea t area b w1))).
    { rewrite visit_eq, Hs. destruct (acquire t b w) as [lb w1].
      unfold content. now rewrite Ha. }
    split; [exact Hv |].
    rewrite Hv, visit_eq.
    change (skipped (withoutContent t)) with (skipped t). rewrite Hs.
    change (acquire (withoutContent t) b w) with (acquire t b w).
    destruct (acquire t b w) as [lb w1].
    rewrite (leave_group t (withoutContent t)) by reflexivity.
    unfold content. cbn [boundsArea withoutContent]. now rewrite Ha.
Qed.

(** ** Effects *)

Lemma matrices_fold_modify (lb : BoundsRef)
  (fs : list (Bounds.t -> Bounds.t)) :
  forall w,
    matrices (fold_left (fun acc f => modifyBounds lb f acc) fs w)
    = matrices w.
Proof.
  induction fs as [| f fs IH]; intros w; simpl; [reflexivity |].
  now rewrite IH.
Qed.

Lemma effectsLoop_advanced (t : Container) (lb : BoundsRef)
  (effs : list Effect) :
  forall w,
    effectsLoop t lb effs true w =
    (true,
     fold_left (fun acc f => modifyBounds lb f acc) (capableEffects effs) w).
Proof.
  induction effs as [| e rest IH]; intros w; simpl; [reflexivity |].
  destruct (addBounds e) as [f |]; simpl; apply IH.
Qed.

Lemma effectsLoop_fresh (t : Container) (lb : BoundsRef)
  (effs : list Effect) :
  forall w,
    effectsLoop t lb effs false w =
    match capableEffects effs with
    | [] => (false, w)
    | fs =>
        (true,
         fold_left (fun acc f => modifyBounds lb f acc) fs
           (modifyBounds lb
              (fun bd => Bounds.applyMatrix bd
                 (matrices w
                    (RenderGroup.worldTransform (renderGroup t)))) w))
    end.
Proof.
  induction effs as [| e rest IH]; intros w; simpl; [reflexivity |].
  destruct (addBounds e) as [f |]; simpl.
  - apply effectsLoop_advanced.
  - apply IH.
Qed.

Lemma manageEffects_nonempty (t : Container) :
  effects t <> [] -> manageEffects t = true.
Proof.
  unfold manageEffects. destruct (effects t); [contradiction | reflexivity].
Qed.

Lemma needsScratch_effects (t : Container) :
  effects t <> [] -> needsScratch t = true.
Proof.
  intros H. unfold needsScratch. rewrite (manageEffects_nonempty t H).
  apply orb_true_r.
Qed.

Lemma leave_effects (t : Container) (b lb : BoundsRef) (w : World) :
  effects t <> [] ->
  leave invertMatrix t b lb w = effectHandlingSpec invertMatrix t b lb w.
Proof.
  intros He. unfold leave, effectHandlingSpec.
  rewrite (manageEffects_nonempty t He), effectsLoop_fresh.
  destruct (capableEffects (effects t)) as [| f fs]; [reflexivity |].
  cbv zeta. f_equal. f_equal.
  unfold convertBack, Matrix_copyTo, Matrix_invert.
  cbn [readMatrix writeMatrix tempMatrix matrices modifyBounds writeBounds].
  rewrite !matrices_fold_modify. reflexivity.
Qed.

(** C2: the visit of a non-skipped node with a non-empty effects list
    borrows a cleared accumulator [local], fills it, and then does what
    the specification says of effect handling: the operations of the
    capable effects run on [local] in list order after one conversion to
    render-group world space, made only if some effect is capable;
    [local] is then converted back by the inverse of that transform and
    merged under the node's local-to-render-group transform; and [local]
    is merged once more, with no transform, in every case. *)
Theorem C2_effect_handling (t : Container) (b : BoundsRef) (w : World) :
  skipped t = false ->
  effects t <> [] ->
  visit t b w =
  (let '(lb, w1) := borrowCleared w in
   effectHandlingSpec invertMatrix t b lb
     (content invertMatrix t b lb w1)).
Proof.
  intros Hs He. rewrite visit_eq, Hs. unfold acquire.
  rewrite (needsScratch_effects t He).
  destruct (borrowCleared w) as [lb w1].
  now apply leave_effects.
Qed.

Lemma capableEffects_inert (effs : list Effect) :
  (forall e, In e effs -> addBounds e = None) ->
  capableEffects effs = [].
Proof.
  induction effs as [| e rest IH]; intros H; simpl; [reflexivity |].
  rewrite (H e (or_introl eq_refl)). simpl. apply IH.
  intros e' Hin. apply H. now right.
Qed.

(** C9, as the code has it: a non-skipped node that roots a render group
    and whose effects, of which there is at least one, are all without
    [addBounds] goes through the effect branch: its accumulator reaches
    the caller's by the one untransformed merge, and the visit is the one
    of the same node with the render-group-root flag off.  The node's
    local-to-render-group transform is read in one place only, where the
    node's own view is put into the scratch accumulator: neither the
    merge nor the children's bounds depend on it, and a node without a
    view does not depend on it at all. *)
Theorem C9_root_with_inert_effects (t : Container) (b : BoundsRef)
  (w : World) :
  skipped t = false ->
  isRenderGroupRoot t = true ->
  effects t <> [] ->
  (forall e, In e (effects t) -> addBounds e = None) ->
  visit t b w =
  (let '(lb, w1) := borrowCleared w in
   returnBounds lb
     (mergeInto b lb None (content invertMatrix t b lb w1))) /\
  visit t b w = visit (withRenderGroupRoot t false) b w /\
  (view t = None ->
   forall rt, visit (withRgTransform t rt) b w = visit t b w) /\
  (forall rt,
     visit (withRgTransform t rt) b w =
     (let '(lb, w1) := borrowCleared w in
      returnBounds lb
        (mergeInto b lb None
           match boundsArea t with
           | Some area => addArea t area b w1
           | None =>
               visitChildren invertMatrix lb (children t)
                 (addView (withRgTransform t rt) lb w1)
           end))).
Proof.
  intros Hs Hr He Hinert.
  assert (Hleave : forall t', effects t' = effects t ->
            forall lb w2,
              leave invertMatrix t' b lb w2 =
              returnBounds lb (mergeInto b lb None w2)).
  { intros t' Heq lb w2. rewrite leave_effects by (now rewrite Heq).
    unfold effectHandlingSpec. rewrite Heq.
    now rewrite (capableEffects_inert _ Hinert). }
  assert (Hany : forall t', skipped t' = skipped t ->
            effects t' = effects t ->
            visit t' b w =
            (let '(lb, w1) := borrowCleared w in
             returnBounds lb
               (mergeInto b lb None (content invertMatrix t' b lb w1)))).
  { intros t' Hs' He'. rewrite visit_eq, Hs', Hs. unfold acquire.
    rewrite (needsScratch_effects t') by (now rewrite He').
    destruct (borrowCleared w) as [lb w1]. now apply Hleave. }
  pose proof (Hany t eq_refl eq_refl) as Hv.
  split; [exact Hv | split; [| split]].
  - rewrite Hv. symmetry.
    apply (Hany (withRenderGroupRoot t false)); reflexivity.
  - intros Hview rt. rewrite Hv.
    rewrite (Hany (withRgTransform t rt)) by reflexivity.
    destruct (borrowCleared w) as [lb w1].
    unfold content, addView. cbn [boundsArea view children withRgTransform].
    now rewrite Hview.
  - intros rt. rewrite (Hany (withRgTransform t rt)) by reflexivity.
    destruct (borrowCleared w) as [lb w1]. reflexivity.
Qed.

(** ** The scratch pool *)

Lemma balanced_app (l1 l2 : list PoolEvent) :
  balanced l1 -> balanced l2 -> balanced (l1 ++ l2).
Proof.
  intros H1 H2. induction H1 as [| r inner rest Hi _ Hr IH]; [exact H2 |].
  cbn [app]. rewrite <- app_assoc. cbn [app].
  now apply balanced_wrap.
Qed.

Lemma borrowCount_app (l1 l2 : list PoolEvent) :
  borrowCount (l1 ++ l2) = (borrowCount l1 + borrowCount l2)%nat.
Proof.
  unfold borrowCount. now rewrite filter_app, length_app.
Qed.

Lemma scratchVisits_eq (t : Container) :
  scratchVisits t =
  if skipped t then 0%nat
  else
    ((if needsScratch t then 1 else 0) +
     match boundsArea t with
     | Some _ => 0
     | None => list_sum (map scratchVisits (children t))
     end)%nat.
Proof.
  destruct t; reflexivity.
Qed.

Lemma poolLog_acquire (t : Container) (b : BoundsRef) (w : World) :
  fst (acquire t b w) = (if needsScratch t then fst (getBounds w) else b) /\
  poolLog (snd (acquire t b w)) =
  poolLog w ++ (if needsScratch t then [Borrowed (fst (getBounds w))] else []).
Proof.
  unfold acquire, borrowCleared, getBounds.
  destruct (needsScratch t).
  - destruct (pool w); split; reflexivity.
  - split; [reflexivity | now rewrite app_nil_r].
Qed.

Lemma poolLog_effectsLoop (t : Container) (lb : BoundsRef)
  (effs : list Effect) :
  forall advanced w,
    poolLog (snd (effectsLoop t lb effs advanced w)) = poolLog w.
Proof.
  induction effs as [| e rest IH]; intros advanced w; simpl; [reflexivity |].
  destruct (addBounds e); rewrite IH; [| reflexivity].
  destruct advanced; reflexivity.
Qed.

Lemma poolLog_leave (t : Container) (b lb : BoundsRef) (w : World) :
  poolLog (leave invertMatrix t b lb w) =
  poolLog w ++ (if needsScratch t then [Returned lb] else []).
Proof.
  unfold leave, needsScratch. destruct (manageEffects t).
  - rewrite orb_true_r.
    pose proof (poolLog_effectsLoop t lb (effects t) false w) as H.
    destruct (effectsLoop t lb (effects t) false w) as [advanced w3].
    cbn [snd] in H. destruct advanced; cbn; now rewrite H.
  - rewrite orb_false_r. destruct (isRenderGroupRoot t).
    + reflexivity.
    + now rewrite app_nil_r.
Qed.

Lemma poolLog_addView (t : Container) (lb : BoundsRef) (w : World) :
  poolLog (addView t lb w) = poolLog w.
Proof.
  unfold addView. destruct (view t); reflexivity.
Qed.

Lemma balanced_visitLog (t : Container) (r : BoundsRef)
  (inner : list PoolEvent) :
  balanced inner -> balanced (visitLog t r inner).
Proof.
  intros H. unfold visitLog. destruct (skipped t); [constructor |].
  destruct (needsScratch t); [| exact H].
  apply balanced_wrap; [exact H | constructor].
Qed.

Lemma poolLog_visitChildren (lb : BoundsRef) (l : list Container) :
  Forall
    (fun k => forall b w, exists inner,
       balanced inner /\
       poolLog (visit k b w) =
       poolLog w ++ visitLog k (fst (getBounds w)) inner /\
       borrowCount (visitLog k (fst (getBounds w)) inner) = scratchVisits k)
    l ->
  forall w, exists tr,
    balanced tr /\
    poolLog (visitChildren invertMatrix lb l w) = poolLog w ++ tr /\
    borrowCount tr = list_sum (map scratchVisits l).
Proof.
  induction 1 as [| k l Hk _ IH]; intros w.
  - exists []. repeat split; [constructor | now rewrite app_nil_r].
  - destruct (Hk lb w) as (inner & Hb & Hlog & Hcount).
    destruct (IH (visit k lb w)) as (tr & Hbt & Hlogt & Hcountt).
    exists (visitLog k (fst (getBounds w)) inner ++ tr). repeat split.
    + apply balanced_app; [now apply balanced_visitLog | exact Hbt].
    + rewrite visitChildren_cons, Hlogt, Hlog. now rewrite app_assoc.
    + rewrite borrowCount_app, Hcount, Hcountt. reflexivity.
Qed.

Lemma poolLog_visit (t : Container) :
  forall b w, exists inner,
    balanced inner /\
    poolLog (visit t b w) =
    poolLog w ++ visitLog t (fst (getBounds w)) inner /\
    borrowCount (visitLog t (fst (getBounds w)) inner) = scratchVisits t.
Proof.
  induction t as [t IH] using Container_ind. intros b w.
  rewrite visit_eq, scratchVisits_eq. unfold visitLog.
  destruct (skipped t).
  { exists []. repeat split; [constructor | now rewrite app_nil_r]. }
  destruct (poolLog_acquire t b w) as [Hfst Hlog].
  destruct (acquire t b w) as [lb w1]. cbn [fst snd] in Hfst, Hlog.
  rewrite poolLog_leave.
  assert (Hcontent : exists tr,
            balanced tr /\
            poolLog (content invertMatrix t b lb w1) = poolLog w1 ++ tr /\
            borrowCount tr =
            match boundsArea t with
            | Some _ => 0%nat
            | None => list_sum (map scratchVisits (children t))
            end).
  { unfold content. destruct (boundsArea t).
    - exists []. repeat split; [constructor | now rewrite app_nil_r].
    - destruct (poolLog_visitChildren lb (children t) IH (addView t lb w1))
        as (tr & Hb & Hl & Hc).
      exists tr. repeat split; [exact Hb | | exact Hc].
      now rewrite Hl, poolLog_addView. }
  destruct Hcontent as (tr & Hb & Hl & Hc).
  exists tr. split; [exact Hb |]. rewrite Hl, Hlog.
  destruct (needsScratch t).
  - subst lb. split.
    + rewrite <- !app_assoc. reflexivity.
    + change (Borrowed (fst (getBounds w))
                :: tr ++ [Returned (fst (getBounds w))])
        with ([Borrowed (fst (getBounds w))]
                ++ tr ++ [Returned (fst (getBounds w))]).
      rewrite !borrowCount_app, Hc. cbn. lia.
  - split.
    + now rewrite !app_nil_r.
    + rewrite Hc. reflexivity.
Qed.

(** C8: a visit borrows from the pool exactly when its node is not
    skipped and roots a render group or carries effects; what the visit
    appends to the pool's log is then the borrow of an instance, the
    well-bracketed log of the visits below, and the return of that same
    instance; otherwise it is the log of the visits below alone.  The
    whole log of a walk is well bracketed, and it counts one borrow for
    each visited node that roots a render group or carries effects. *)
Theorem C8_pool_stack_discipline (t : Container) (b : BoundsRef) (w : World) :
  fst (acquire t b w) = (if needsScratch t then fst (getBounds w) else b) /\
  poolLog (snd (acquire t b w)) =
  poolLog w ++ (if needsScratch t then [Borrowed (fst (getBounds w))] else [])
  /\
  exists inner,
    balanced inner /\
    poolLog (visit t b w) =
    poolLog w ++ visitLog t (fst (getBounds w)) inner /\
    balanced (visitLog t (fst (getBounds w)) inner) /\
    borrowCount (visitLog t (fst (getBounds w)) inner) = scratchVisits t.
Proof.
  destruct (poolLog_acquire t b w) as [Hfst Hlog].
  split; [exact Hfst | split; [exact Hlog |]].
  destruct (poolLog_visit t b w) as (inner & Hb & Hl & Hc).
  exists inner. repeat split; try assumption.
  now apply balanced_visitLog.
Qed.

(** ** Boxes under affine maps *)

Lemma applyX_compose (outer inner : Matrix) (px py : Z) :
  applyX (composeMatrix outer inner) px py =
  applyX outer (applyX inner px py) (applyY inner px py).
Proof.
  unfold applyX, applyY, composeMatrix. cbn [ma mb mc md mtx mty]. ring.
Qed.

Lemma applyY_compose (outer inner : Matrix) (px py : Z) :
  applyY (composeMatrix outer inner) px py =
  applyY outer (applyX inner px py) (applyY inner px py).
Proof.
  unfold applyX, applyY, composeMatrix. cbn [ma mb mc md mtx mty]. ring.
Qed.

Lemma ordered_addPoint (bd : Bounds.t) (px py : Z) :
  Bounds.ordered bd -> Bounds.ordered (Bounds.addPoint bd px py).
Proof.
  destruct bd; cbn; lia.
Qed.

Lemma ordered_addFrame (bd : Bounds.t) (fx0 fy0 fx1 fy1 : Z) (m : Matrix) :
  Bounds.ordered bd ->
  Bounds.ordered (Bounds.addFrame bd fx0 fy0 fx1 fy1 (Some m)).
Proof.
  intros H. unfold Bounds.addFrame. now repeat apply ordered_addPoint.
Qed.

Lemma contains_refl (bd : Bounds.t) : Bounds.contains bd bd.
Proof.
  destruct bd; cbn; lia.
Qed.

Lemma contains_trans (b1 b2 b3 : Bounds.t) :
  Bounds.contains b1 b2 -> Bounds.contains b2 b3 -> Bounds.contains b1 b3.
Proof.
  destruct b1, b2, b3; cbn; lia.
Qed.

Lemma contains_addPoint (bd : Bounds.t) (px py : Z) :
  Bounds.contains (Bounds.addPoint bd px py) bd.
Proof.
  destruct bd; cbn; lia.
Qed.

Lemma inside_addPoint (bd : Bounds.t) (px py : Z) :
  Bounds.inside (Bounds.addPoint bd px py) px py.
Proof.
  destruct bd; cbn; lia.
Qed.

Lemma inside_contains (big small : Bounds.t) (px py : Z) :
  Bounds.contains big small -> Bounds.inside small px py ->
  Bounds.inside big px py.
Proof.
  destruct big, small; cbn; lia.
Qed.

Lemma contains_addPoint_inside (big acc : Bounds.t) (px py : Z) :
  Bounds.contains big acc -> Bounds.inside big px py ->
  Bounds.contains big (Bounds.addPoint acc px py).
Proof.
  destruct big, acc; cbn; lia.
Qed.

(** The four points an [addFrame] under a transform merges lie inside
    its result, and the result contains the accumulator it started
    from. *)
Lemma addFrame_spec (bd : Bounds.t) (fx0 fy0 fx1 fy1 : Z) (m : Matrix) :
  let r := Bounds.addFrame bd fx0 fy0 fx1 fy1 (Some m) in
  Bounds.contains r bd /\
  Bounds.inside r (applyX m fx0 fy0) (applyY m fx0 fy0) /\
  Bounds.inside r (applyX m fx1 fy0) (applyY m fx1 fy0) /\
  Bounds.inside r (applyX m fx0 fy1) (applyY m fx0 fy1) /\
  Bounds.inside r (applyX m fx1 fy1) (applyY m fx1 fy1).
Proof.
  cbv zeta. unfold Bounds.addFrame.
  set (p1 := Bounds.addPoint bd _ _).
  set (p2 := Bounds.addPoint p1 _ _).
  set (p3 := Bounds.addPoint p2 _ _).
  set (p4 := Bounds.addPoint p3 _ _).
  assert (C1 : Bounds.contains p1 bd) by apply contains_addPoint.
  assert (C2 : Bounds.contains p2 p1) by apply contains_addPoint.
  assert (C3 : Bounds.contains p3 p2) by apply contains_addPoint.
  assert (C4 : Bounds.contains p4 p3) by apply contains_addPoint.
  assert (C42 : Bounds.contains p4 p2) by eauto using contains_trans.
  assert (C41 : Bounds.contains p4 p1) by eauto using contains_trans.
  repeat split.
  - eauto using contains_trans.
  - apply (inside_contains p4 p1); [exact C41 | apply inside_addPoint].
  - apply (inside_contains p4 p2); [exact C42 | apply inside_addPoint].
  - apply (inside_contains p4 p3); [exact C4 | apply inside_addPoint].
  - apply inside_addPoint.
Qed.

(** A box that holds the four merged points and the accumulator holds
    the result of the [addFrame]. *)
Lemma addFrame_least (big bd : Bounds.t) (fx0 fy0 fx1 fy1 : Z) (m : Matrix) :
  Bounds.contains big bd ->
  Bounds.inside big (applyX m fx0 fy0) (applyY m fx0 fy0) ->
  Bounds.inside big (applyX m fx1 fy0) (applyY m fx1 fy0) ->
  Bounds.inside big (applyX m fx0 fy1) (applyY m fx0 fy1) ->
  Bounds.inside big (applyX m fx1 fy1) (applyY m fx1 fy1) ->
  Bounds.contains big (Bounds.addFrame bd fx0 fy0 fx1 fy1 (Some m)).
Proof.
  intros Hc H1 H2 H3 H4. unfold Bounds.addFrame.
  now repeat apply contains_addPoint_inside.
Qed.

Lemma between_scaled (k lo hi p : Z) :
  lo <= p <= hi ->
  (k * lo <= k * p <= k * hi) \/ (k * hi <= k * p <= k * lo).
Proof.
  intros H. destruct (Z.le_gt_cases 0 k); [left | right]; nia.
Qed.

(** A linear form on a box lies between its least and greatest value at
    the corners. *)
Lemma affine_between (k1 k2 c x0 x1 y0 y1 px py : Z) :
  x0 <= px <= x1 -> y0 <= py <= y1 ->
  Z.min (Z.min (Z.min (k1 * x0 + k2 * y0 + c) (k1 * x1 + k2 * y0 + c))
           (k1 * x0 + k2 * y1 + c)) (k1 * x1 + k2 * y1 + c)
  <= k1 * px + k2 * py + c <=
  Z.max (Z.max (Z.max (k1 * x0 + k2 * y0 + c) (k1 * x1 + k2 * y0 + c))
           (k1 * x0 + k2 * y1 + c)) (k1 * x1 + k2 * y1 + c).
Proof.
  intros Hx Hy.
  pose proof (between_scaled k1 x0 x1 px Hx) as H1.
  pose proof (between_scaled k2 y0 y1 py Hy) as H2.
  revert H1 H2.
  generalize (k1 * x0) (k1 * x1) (k1 * px) (k2 * y0) (k2 * y1) (k2 * py).
  intros. lia.
Qed.

(** An affine map sends the points of an ordered box into the box of its
    four transformed corners. *)
Lemma inside_applyMatrix (bd : Bounds.t) (m : Matrix) (px py : Z) :
  Bounds.inside bd px py ->
  Bounds.inside (Bounds.applyMatrix bd m)
    (applyX m px py) (applyY m px py).
Proof.
  destruct bd as [| x0 y0 x1 y1]; [contradiction |].
  intros [Hx Hy].
  cbn [Bounds.applyMatrix Bounds.addFrame Bounds.addPoint Bounds.inside].
  unfold applyX, applyY. split.
  - pose proof (affine_between (ma m) (mc m) (mtx m) _ _ _ _ _ _ Hx Hy) as H.
    revert H.
    generalize (ma m * x0 + mc m * y0 + mtx m)
      (ma m * x1 + mc m * y0 + mtx m) (ma m * x0 + mc m * y1 + mtx m)
      (ma m * x1 + mc m * y1 + mtx m) (ma m * px + mc m * py + mtx m).
    intros. lia.
  - pose proof (affine_between (mb m) (md m) (mty m) _ _ _ _ _ _ Hx Hy) as H.
    revert H.
    generalize (mb m * x0 + md m * y0 + mty m)
      (mb m * x1 + md m * y0 + mty m) (mb m * x0 + md m * y1 + mty m)
      (mb m * x1 + md m * y1 + mty m) (mb m * px + md m * py + mty m).
    intros. lia.
Qed.

Lemma corners_inside (x0 y0 x1 y1 : Z) :
  x0 <= x1 -> y0 <= y1 ->
  let bd := Bounds.Box x0 y0 x1 y1 in
  Bounds.inside bd x0 y0 /\ Bounds.inside bd x1 y0 /\
  Bounds.inside bd x0 y1 /\ Bounds.inside bd x1 y1.
Proof.
  cbn. lia.
Qed.

(** [applyMatrix] is monotone on ordered boxes. *)
Lemma applyMatrix_mono (big small : Bounds.t) (m : Matrix) :
  Bounds.ordered small -> Bounds.contains big small ->
  Bounds.contains (Bounds.applyMatrix big m) (Bounds.applyMatrix small m).
Proof.
  intros Ho Hc. destruct small as [| x0 y0 x1 y1]; [exact I |].
  destruct Ho as [Hx Hy].
  destruct (corners_inside x0 y0 x1 y1 Hx Hy) as (K1 & K2 & K3 & K4).
  unfold Bounds.applyMatrix at 2.
  apply addFrame_least; [exact I | | | |];
    apply inside_applyMatrix;
    eapply inside_contains; eauto.
Qed.

(** ** Unions of views *)

Lemma ordered_unionViews (tr : Container -> Matrix) (l : list Container) :
  forall acc, Bounds.ordered acc -> Bounds.ordered (unionViews tr l acc).
Proof.
  induction l as [| n l IH]; intros acc Ho; [exact Ho |].
  apply IH. destruct (view n); [now apply ordered_addFrame | exact Ho].
Qed.

Lemma unionViews_app (tr : Container -> Matrix) (l1 l2 : list Container)
  (acc : Bounds.t) :
  unionViews tr (l1 ++ l2) acc = unionViews tr l2 (unionViews tr l1 acc).
Proof.
  unfold unionViews. apply fold_left_app.
Qed.

(** One more view keeps the walk's box, taken through [outer], around the
    true box. *)
Lemma addFrame_contains_step (outer inner : Matrix) (acc big : Bounds.t)
  (fx0 fy0 fx1 fy1 : Z) :
  Bounds.ordered acc ->
  Bounds.contains (Bounds.applyMatrix acc outer) big ->
  Bounds.contains
    (Bounds.applyMatrix
       (Bounds.addFrame acc fx0 fy0 fx1 fy1 (Some inner)) outer)
    (Bounds.addFrame big fx0 fy0 fx1 fy1
       (Some (composeMatrix outer inner))).
Proof.
  intros Ho Hc.
  destruct (addFrame_spec acc fx0 fy0 fx1 fy1 inner)
    as (Hgrow & K1 & K2 & K3 & K4).
  apply addFrame_least; rewrite ?applyX_compose, ?applyY_compose;
    try (now apply inside_applyMatrix).
  eapply contains_trans; [| exact Hc].
  now apply applyMatrix_mono.
Qed.

Lemma unionViews_contains (outer : Matrix) (tr trw : Container -> Matrix)
  (l : list Container) :
  Forall (fun n => trw n = composeMatrix outer (tr n)) l ->
  forall acc big,
    Bounds.ordered acc ->
    Bounds.contains (Bounds.applyMatrix acc outer) big ->
    Bounds.contains
      (Bounds.applyMatrix (unionViews tr l acc) outer)
      (unionViews trw l big).
Proof.
  induction 1 as [| n l Hn _ IH]; intros acc big Ho Hc; [exact Hc |].
  cbn [unionViews fold_left]. apply IH.
  - destruct (view n); [now apply ordered_addFrame | exact Ho].
  - destruct (view n); [| exact Hc].
    rewrite Hn. now apply addFrame_contains_step.
Qed.

(** Under a translation the box of the transformed corners is the
    translated box, so nothing is lost. *)
Lemma applyMatrix_translation (m : Matrix) (bd : Bounds.t) :
  isTranslation m -> Bounds.ordered bd ->
  Bounds.applyMatrix bd m = shift (mtx m) (mty m) bd.
Proof.
  intros (Ea & Eb & Ec & Ed) Ho. destruct bd as [| x0 y0 x1 y1];
    [reflexivity |].
  cbn [Bounds.ordered] in Ho.
  cbn [Bounds.applyMatrix Bounds.addFrame Bounds.addPoint shift].
  unfold applyX, applyY. rewrite Ea, Eb, Ec, Ed. f_equal; lia.
Qed.

Lemma shift_addPoint (dx dy : Z) (bd : Bounds.t) (px py : Z) :
  shift dx dy (Bounds.addPoint bd px py) =
  Bounds.addPoint (shift dx dy bd) (px + dx) (py + dy).
Proof.
  destruct bd; cbn [Bounds.addPoint shift]; f_equal; lia.
Qed.

Lemma apply_translation (m : Matrix) (px py : Z) :
  isTranslation m ->
  applyX m px py = px + mtx m /\ applyY m px py = py + mty m.
Proof.
  intros (Ea & Eb & Ec & Ed). unfold applyX, applyY.
  rewrite Ea, Eb, Ec, Ed. lia.
Qed.

Lemma addFrame_translation_step (outer inner : Matrix) (acc : Bounds.t)
  (fx0 fy0 fx1 fy1 : Z) :
  isTranslation outer ->
  Bounds.ordered acc ->
  Bounds.applyMatrix
    (Bounds.addFrame acc fx0 fy0 fx1 fy1 (Some inner)) outer =
  Bounds.addFrame (Bounds.applyMatrix acc outer) fx0 fy0 fx1 fy1
    (Some (composeMatrix outer inner)).
Proof.
  intros Ht Ho.
  rewrite !applyMatrix_translation
    by (try apply ordered_addFrame; assumption).
  unfold Bounds.addFrame. rewrite !applyX_compose, !applyY_compose.
  rewrite !shift_addPoint.
  repeat match goal with
         | |- context [applyX outer ?u ?v] =>
             destruct (apply_translation outer u v Ht) as [-> ->]
         end.
  reflexivity.
Qed.

Lemma unionViews_translation (outer : Matrix) (tr trw : Container -> Matrix)
  (l : list Container) :
  isTranslation outer ->
  Forall (fun n => trw n = composeMatrix outer (tr n)) l ->
  forall acc,
    Bounds.ordered acc ->
    Bounds.applyMatrix (unionViews tr l acc) outer =
    unionViews trw l (Bounds.applyMatrix acc outer).
Proof.
  intros Ht. induction 1 as [| n l Hn _ IH]; intros acc Ho; [reflexivity |].
  cbn [unionViews fold_left].
  destruct (view n) as [v |].
  - rewrite Hn, <- addFrame_translation_step by assumption.
    apply IH. now apply ordered_addFrame.
  - now apply IH.
Qed.

(** ** The walk over plain nodes *)

Lemma nodes_eq (t : Container) :
  nodes t = t :: flat_map nodes (children t).
Proof.
  destruct t; reflexivity.
Qed.

Lemma plain_not_skipped (n : Container) :
  plainNode n -> skipped n = false /\ needsScratch n = false.
Proof.
  intros (Hf & Hm & He & Hr). unfold skipped, needsScratch, manageEffects.
  rewrite Hf, Hm, He, Hr. split; reflexivity.
Qed.

Lemma leave_plain (n : Container) (b lb : BoundsRef) (w : World) :
  plainNode n -> leave invertMatrix n b lb w = w.
Proof.
  intros (Hf & Hm & He & Hr). unfold leave, manageEffects.
  now rewrite He, Hr.
Qed.

Lemma heap_addView (t : Container) (lb : BoundsRef) (w : World) :
  heap (addView t lb w) lb =
  unionViews (fun n => matrices w (rgTransform n)) [t] (heap w lb).
Proof.
  unfold addView, unionViews. cbn [fold_left].
  destruct (view t); [apply heap_modifyBounds_same | reflexivity].
Qed.

Lemma visitChildren_plain (b : BoundsRef) (l : list Container) :
  Forall
    (fun k => forall b w,
       heap (visit k b w) b =
       unionViews (fun n => matrices w (rgTransform n)) (nodes k) (heap w b))
    l ->
  forall w,
    heap (visitChildren invertMatrix b l w) b =
    unionViews (fun n => matrices w (rgTransform n)) (flat_map nodes l)
      (heap w b).
Proof.
  induction 1 as [| k l Hk _ IH]; intros w; [reflexivity |].
  rewrite visitChildren_cons, IH, matrices_visit, Hk.
  cbn [flat_map]. now rewrite unionViews_app.
Qed.

(** On a tree of plain nodes without area overrides the walk merges the
    view of every node under that node's local-to-render-group
    transform. *)
Lemma visit_plain (t : Container) :
  Forall (fun n => plainNode n /\ noArea n) (nodes t) ->
  forall b w,
    heap (visit t b w) b =
    unionViews (fun n => matrices w (rgTransform n)) (nodes t) (heap w b).
Proof.
  induction t as [t IH] using Container_ind. intros Hall b w.
  rewrite nodes_eq in Hall. apply Forall_cons_iff in Hall.
  destruct Hall as [[Hp Ha] Hrest].
  rewrite Forall_flat_map in Hrest.
  destruct (plain_not_skipped t Hp) as [Hs Hn].
  rewrite visit_eq, Hs. unfold acquire. rewrite Hn.
  rewrite (leave_plain t b b _ Hp). unfold content. rewrite Ha.
  assert (IH' : Forall
            (fun k => forall b w,
               heap (visit k b w) b =
               unionViews (fun n => matrices w (rgTransform n)) (nodes k)
                 (heap w b)) (children t)).
  { rewrite Forall_forall in *. intros k Hin. apply IH; [exact Hin |].
    now apply Hrest. }
  rewrite (visitChildren_plain b _ IH'), matrices_addView, heap_addView.
  rewrite nodes_eq.
  change (t :: flat_map nodes (children t))
    with ([t] ++ flat_map nodes (children t)).
  now rewrite unionViews_app.
Qed.

Lemma contains_orZero (big small : Bounds.t) :
  Bounds.contains big small -> Bounds.contains (orZero big) small.
Proof.
  destruct big, small; cbn; tauto.
Qed.


(** C3: with R outside any render group of its own, C its only child, C's
    view at (0,0,10,10) under the identity and R's render group
    translated by (5,5), the output accumulator is the caller's and holds
    (5,5,15,15). *)
Theorem C3_scenario (wtR rtR group wtC rtC groupC : MatrixRef)
  (b : BoundsRef) (w : World) :
  matrices w rtC = identityMatrix ->
  matrices w group = translation 5 5 ->
  let R := scenarioRoot wtR rtR group (scenarioChild wtC rtC groupC) in
  fst (fastBounds R b w) = b /\
  result R b w = Bounds.Box 5 5 15 15.
Proof.
  intros Hc Hg R. split; [reflexivity |].
  rewrite fastBounds_heap. cbv zeta.
  change (isRenderGroupRoot R) with false. cbv iota.
  rewrite visit_plain.
  - rewrite heap_modifyBounds_same.
    cbn [R scenarioRoot scenarioChild leaf nodes children flat_map app
           unionViews fold_left view View.bounds minX minY maxX maxY
           rgTransform renderGroup RenderGroup.worldTransform
           matrices modifyBounds writeBounds Bounds.clear].
    rewrite Hc, Hg. reflexivity.
  - repeat constructor.
Qed.

End Properties.

(** * The development at work on concrete scenes *)

Example scenario_runs :
  resultOf invertByDeterminant scenarioR 0%nat sampleWorld
  = Bounds.Box 5 5 15 15.
Proof. vm_compute. reflexivity. Qed.

Example padded_square_runs :
  resultOf invertByDeterminant paddedSquare 0%nat sampleWorld
  = Bounds.Box 4 4 7 7.
Proof. vm_compute. reflexivity. Qed.

Example family_of_three_runs :
  resultOf invertByDeterminant familyOfThree 0%nat sampleWorld
  = Bounds.Box 5 5 15 15 /\
  poolLog (snd (getFastGlobalBounds invertByDeterminant familyOfThree 0%nat
                  sampleWorld)) = [].
Proof. vm_compute. split; reflexivity. Qed.

Example inert_root_runs :
  heap (_getGlobalBoundsRecursive invertByDeterminant inertRoot 0%nat
          sampleWorld) 0%nat = Bounds.Box 0 0 10 10 /\
  poolLog (_getGlobalBoundsRecursive invertByDeterminant inertRoot 0%nat
             sampleWorld) = [Borrowed 1%nat; Returned 1%nat].
Proof. vm_compute. split; reflexivity. Qed.

(** ** Instances of the theorems above *)



Lemma C2_witness :
  _getGlobalBoundsRecursive invertByDeterminant paddedSquare 0%nat sampleWorld
  =
  (let '(lb, w1) := borrowCleared sampleWorld in
   effectHandlingSpec invertByDeterminant paddedSquare 0%nat lb
     (content invertByDeterminant paddedSquare 0%nat lb w1)).
Proof.
  apply (C2_effect_handling invertByDeterminant paddedSquare 0%nat
           sampleWorld).
  - reflexivity.
  - discriminate.
Defined.

Lemma C3_witness :
  fst (getFastGlobalBounds invertByDeterminant scenarioR 0%nat sampleWorld)
  = 0%nat /\
  resultOf invertByDeterminant scenarioR 0%nat sampleWorld
  = Bounds.Box 5 5 15 15.
Proof.
  apply (C3_scenario invertByDeterminant 1%nat 0%nat 1%nat 1%nat 0%nat 1%nat
           0%nat sampleWorld).
  - reflexivity.
  - reflexivity.
Defined.

Lemma hidden_flag : ~ bothBitsSet (localVisibleRenderable hidden).
Proof.
  unfold bothBitsSet. vm_compute. discriminate.
Defined.

Lemma C5_witness :
  _getGlobalBoundsRecursive invertByDeterminant hidden 0%nat sampleWorld
  = sampleWorld /\
  getFastGlobalBounds invertByDeterminant familyOfThree 0%nat sampleWorld
  = getFastGlobalBounds invertByDeterminant familyOfTwo 0%nat sampleWorld.
Proof.
  pose proof (C5_skipped_node_contributes_nothing invertByDeterminant hidden
                (or_introl hidden_flag)) as (H1 & _ & H3).
  split; [apply H1 |].
  apply (H3 familyOfThree familyOfTwo).
  apply (removed_here hidden familyOfThree [scenarioC] [scenarioD]).
  reflexivity.
Defined.

Lemma C6_witness :
  _getGlobalBoundsRecursive invertByDeterminant overridden 0%nat sampleWorld =
  _getGlobalBoundsRecursive invertByDeterminant
    (withoutContent overridden) 0%nat sampleWorld.
Proof.
  pose proof (C6_area_override invertByDeterminant overridden
                (mkRectangle 0 0 1 1)) as H.
  destruct H as (_ & H).
  - reflexivity.
  - reflexivity.
  - apply H.
Defined.

Lemma keepInvalid_sample : keepInvalid [inertEffect; padEffect].
Proof.
  intros e f [<- | [<- | []]] H.
  - discriminate H.
  - injection H as <-. reflexivity.
Defined.

Lemma C7_witness :
  resultOf invertByDeterminant emptyWithEffects 0%nat sampleWorld
  = Bounds.Box 0 0 0 0.
Proof.
  apply (C7_empty_default invertByDeterminant emptyWithEffects 0%nat
           sampleWorld).
  - reflexivity.
  - reflexivity.
  - reflexivity.
  - exact keepInvalid_sample.
Defined.

(** The empty default fails as claimed when an effect fills an invalid
    accumulator: [onlyEffect] has no view, no children and no area
    override, and the output is (0,0,5,5). *)
Lemma C7_counterexample :
  view onlyEffect = None /\ children onlyEffect = [] /\
  boundsArea onlyEffect = None /\
  resultOf invertByDeterminant onlyEffect 0%nat sampleWorld
  = Bounds.Box 0 0 5 5 /\
  resultOf invertByDeterminant onlyEffect 0%nat sampleWorld
  <> Bounds.Box 0 0 0 0.
Proof.
  repeat split; try reflexivity.
  vm_compute. discriminate.
Qed.

Lemma bareInertRoot_effects :
  forall e, In e (effects bareInertRoot) -> addBounds e = None.
Proof.
  intros e [<- | []]. reflexivity.
Defined.

Lemma C9_witness :
  _getGlobalBoundsRecursive invertByDeterminant bareInertRoot 0%nat
    sampleWorld =
  _getGlobalBoundsRecursive invertByDeterminant
    (withRenderGroupRoot bareInertRoot false) 0%nat sampleWorld /\
  _getGlobalBoundsRecursive invertByDeterminant
    (withRgTransform bareInertRoot 0%nat) 0%nat sampleWorld =
  _getGlobalBoundsRecursive invertByDeterminant bareInertRoot 0%nat
    sampleWorld.
Proof.
  pose proof (C9_root_with_inert_effects invertByDeterminant bareInertRoot
                0%nat sampleWorld) as H.
  destruct H as (_ & Hflag & Hfree & _).
  - reflexivity.
  - reflexivity.
  - discriminate.
  - exact bareInertRoot_effects.
  - split; [exact Hflag | apply Hfree; reflexivity].
Defined.

(** The claim fails as stated for a node with a view of its own:
    [viewInertRoot] roots a render group, carries one effect without
    [addBounds] and has the view (0,0,4,4); with the translation by
    (2,3) as local-to-render-group transform the visit leaves (2,3,6,7)
    in the caller's accumulator, with the identity it leaves (0,0,4,4):
    the transform has been applied to the subtree's bounds. *)
Lemma C9_counterexample :
  isRenderGroupRoot viewInertRoot = true /\
  effects viewInertRoot = [inertEffect] /\
  addBounds inertEffect = None /\
  matrices sampleWorld (rgTransform viewInertRoot) = translation 2 3 /\
  heap (_getGlobalBoundsRecursive invertByDeterminant viewInertRoot 0%nat
          sampleWorld) 0%nat = Bounds.Box 2 3 6 7 /\
  heap (_getGlobalBoundsRecursive invertByDeterminant
          (withRgTransform viewInertRoot 0%nat) 0%nat sampleWorld) 0%nat
  = Bounds.Box 0 0 4 4 /\
  ~ (forall rt,
       _getGlobalBoundsRecursive invertByDeterminant
         (withRgTransform viewInertRoot rt) 0%nat sampleWorld =
       _getGlobalBoundsRecursive invertByDeterminant viewInertRoot 0%nat
         sampleWorld).
Proof.
  repeat split; try reflexivity.
  intros H. specialize (H 0%nat).
  apply (f_equal (fun w => heap w 0%nat)) in H.
  vm_compute in H. discriminate H.
Qed.

(** * More on the walk and its pool *)

Section Pool.

Variable invertMatrix : Matrix -> Matrix.

Local Abbreviation visit := (_getGlobalBoundsRecursive invertMatrix).
Local Abbreviation fastBounds := (getFastGlobalBounds invertMatrix).
Local Abbreviation result := (resultOf invertMatrix).

(** ** What a visit does to the pool *)

Lemma pool_effectsLoop (t : Container) (lb : BoundsRef) (effs : list Effect) :
  forall advanced w,
    pool (snd (effectsLoop t lb effs advanced w)) = pool w /\
    fresh (snd (effectsLoop t lb effs advanced w)) = fresh w.
Proof.
  induction effs as [| e rest IH]; intros advanced w; simpl.
  - split; reflexivity.
  - destruct (addBounds e) as [f |].
    + destruct (IH true (modifyBounds lb f
                  (if negb advanced
                   then modifyBounds lb
                          (fun bd => Bounds.applyMatrix bd
                             (matrices w
                                (RenderGroup.worldTransform (renderGroup t))))
                          w
                   else w))) as [Hp Hf].
      rewrite Hp, Hf. destruct advanced; split; reflexivity.
    + apply IH.
Qed.

Lemma pool_leave (t : Container) (b lb : BoundsRef) (w : World) :
  pool (leave invertMatrix t b lb w) =
  (if needsScratch t then lb :: pool w else pool w) /\
  fresh (leave invertMatrix t b lb w) = fresh w.
Proof.
  unfold leave, needsScratch. destruct (manageEffects t).
  - rewrite orb_true_r.
    destruct (pool_effectsLoop t lb (effects t) false w) as [Hp Hf].
    destruct (effectsLoop t lb (effects t) false w) as [advanced w3].
    cbn [snd] in Hp, Hf. destruct advanced; cbn; now rewrite Hp, Hf.
  - rewrite orb_false_r. destruct (isRenderGroupRoot t); split; reflexivity.
Qed.

Lemma pool_addView (t : Container) (lb : BoundsRef) (w : World) :
  pool (addView t lb w) = pool w /\ fresh (addView t lb w) = fresh w.
Proof.
  unfold addView. destruct (view t); split; reflexivity.
Qed.

Lemma grown_refl (w : World) : grown w w.
Proof.
  exists []. rewrite app_nil_r. repeat split; [constructor | constructor |].
  cbn. lia.
Qed.

Lemma grown_trans (w1 w2 w3 : World) :
  grown w1 w2 -> grown w2 w3 -> grown w1 w3.
Proof.
  intros (e1 & Hp1 & Hn1 & Hr1 & Hf1) (e2 & Hp2 & Hn2 & Hr2 & Hf2).
  exists (e1 ++ e2). repeat split.
  - now rewrite Hp2, Hp1, app_assoc.
  - apply NoDup_app; [exact Hn1 | exact Hn2 |].
    intros r H1 H2. rewrite Forall_forall in Hr1, Hr2.
    specialize (Hr1 r H1). specialize (Hr2 r H2). lia.
  - apply Forall_app. split.
    + eapply Forall_impl; [| exact Hr1]. cbn. intros r Hr. lia.
    + eapply Forall_impl; [| exact Hr2]. cbn. intros r Hr. lia.
  - rewrite length_app. lia.
Qed.

Lemma grown_same (w w' : World) :
  pool w' = pool w -> fresh w' = fresh w -> grown w w'.
Proof.
  intros Hp Hf. exists []. rewrite app_nil_r, Hf.
  repeat split; [exact Hp | constructor | constructor | cbn; lia].
Qed.

Lemma grown_visitChildren (lb : BoundsRef) (l : list Container) :
  Forall (fun k => forall b w, grown w (visit k b w)) l ->
  forall w, grown w (visitChildren invertMatrix lb l w).
Proof.
  induction 1 as [| k l Hk _ IH]; intros w.
  - apply grown_refl.
  - rewrite visitChildren_cons.
    eapply grown_trans; [apply Hk | apply IH].
Qed.

Lemma grown_content (t : Container) (b lb : BoundsRef) (w : World) :
  Forall (fun k => forall b w, grown w (visit k b w)) (children t) ->
  grown w (content invertMatrix t b lb w).
Proof.
  intros IH. unfold content. destruct (boundsArea t).
  - apply grown_same; reflexivity.
  - eapply grown_trans; [| apply (grown_visitChildren lb _ IH)].
    destruct (pool_addView t lb w) as [Hp Hf]. now apply grown_same.
Qed.

Lemma grown_visit (t : Container) :
  forall b w, grown w (visit t b w).
Proof.
  induction t as [t IH] using Container_ind. intros b w.
  rewrite visit_eq. destruct (skipped t); [apply grown_refl |].
  unfold acquire, borrowCleared, getBounds.
  destruct (needsScratch t) eqn:Hn.
  - destruct (pool w) as [| r rest] eqn:Hpool.
    + set (w1 := modifyBounds (fresh w) Bounds.clear _).
      pose proof (grown_content t b (fresh w) w1 IH) as Hc.
      destruct (pool_leave t b (fresh w)
                  (content invertMatrix t b (fresh w) w1)) as [Hp Hf].
      rewrite Hn in Hp.
      destruct Hc as (ext & Hpc & Hnd & Hr & Hfc).
      exists (fresh w :: ext). rewrite Hp, Hf, Hpc, Hfc.
      cbn [pool fresh w1 modifyBounds writeBounds logEvent app length] in *.
      rewrite Hpool. repeat split.
      * constructor; [| exact Hnd].
        intros Hin. rewrite Forall_forall in Hr. specialize (Hr _ Hin). lia.
      * constructor; [lia |].
        eapply Forall_impl; [| exact Hr]. cbn. intros r Hr'. lia.
      * lia.
    + set (w1 := modifyBounds r Bounds.clear _).
      pose proof (grown_content t b r w1 IH) as Hc.
      destruct (pool_leave t b r (content invertMatrix t b r w1)) as [Hp Hf].
      rewrite Hn in Hp.
      destruct Hc as (ext & Hpc & Hnd & Hr & Hfc).
      exists ext. rewrite Hp, Hf, Hpc, Hfc.
      cbn [pool fresh w1 modifyBounds writeBounds logEvent app length] in *.
      rewrite Hpool. rewrite Hfc in Hr. repeat split; assumption.
  - destruct (pool_leave t b b (content invertMatrix t b b w)) as [Hp Hf].
    rewrite Hn in Hp.
    eapply grown_trans; [apply (grown_content t b b w IH) |].
    now apply grown_same.
Qed.


(** ** Which accumulators a visit writes *)

Lemma heap_effectsLoop_other (t : Container) (lb r : BoundsRef)
  (effs : list Effect) :
  r <> lb ->
  forall advanced w,
    heap (snd (effectsLoop t lb effs advanced w)) r = heap w r.
Proof.
  intros Hne. induction effs as [| e rest IH]; intros advanced w; simpl.
  - reflexivity.
  - destruct (addBounds e) as [f |]; [| apply IH].
    rewrite IH, heap_modifyBounds_other by exact Hne.
    destruct advanced; cbn [negb]; [reflexivity |].
    now apply heap_modifyBounds_other.
Qed.

Lemma heap_convertBack_other (t : Container) (b lb r : BoundsRef)
  (w : World) :
  r <> b -> r <> lb ->
  heap (convertBack invertMatrix t b lb w) r = heap w r.
Proof.
  intros Hb Hl. unfold convertBack, mergeInto, Matrix_copyTo, Matrix_invert.
  now rewrite !heap_modifyBounds_other.
Qed.

Lemma heap_leave_other (t : Container) (b lb r : BoundsRef) (w : World) :
  r <> b -> r <> lb ->
  heap (leave invertMatrix t b lb w) r = heap w r.
Proof.
  intros Hb Hl. unfold leave. destruct (manageEffects t).
  - pose proof (heap_effectsLoop_other t lb r (effects t) Hl false w) as H.
    destruct (effectsLoop t lb (effects t) false w) as [advanced w3].
    cbn [snd] in H. unfold returnBounds, mergeInto. cbn [heap logEvent].
    rewrite heap_modifyBounds_other by exact Hb.
    destruct advanced; [| exact H].
    now rewrite heap_convertBack_other.
  - destruct (isRenderGroupRoot t); [| reflexivity].
    unfold returnBounds, mergeInto. cbn [heap logEvent].
    now apply heap_modifyBounds_other.
Qed.

(** What borrowing gives: an instance of the pool, or a new one when the
    pool is empty; it is invalid, and no other accumulator changed. *)
Lemma borrowCleared_spec (w : World) :
  let lb := fst (borrowCleared w) in
  let w1 := snd (borrowCleared w) in
  heap w1 lb = Bounds.Invalid /\
  (forall r, r <> lb -> heap w1 r = heap w r) /\
  matrices w1 = matrices w /\
  ((pool w = lb :: pool w1 /\ fresh w1 = fresh w) \/
   (pool w = [] /\ pool w1 = [] /\ lb = fresh w /\ fresh w1 = S (fresh w))).
Proof.
  unfold borrowCleared, getBounds.
  destruct (pool w) as [| r rest]; cbn [fst snd]; repeat split.
  - apply heap_modifyBounds_same.
  - intros r Hne. rewrite heap_modifyBounds_other by exact Hne.
    cbn [heap logEvent]. now apply updateAt_other.
  - right. repeat split.
  - apply heap_modifyBounds_same.
  - intros r' Hne. rewrite heap_modifyBounds_other by exact Hne.
    cbn [heap logEvent]. now apply updateAt_other.
  - left. split; reflexivity.
Qed.

Lemma grown_keeps_out (w w' : World) (r : BoundsRef) :
  grown w w' -> ~ In r (pool w) -> (r < fresh w)%nat ->
  ~ In r (pool w') /\ (r < fresh w')%nat.
Proof.
  intros (ext & Hp & _ & Hr & Hf) Hout Hlt. split; [| lia].
  rewrite Hp. intros Hin. apply in_app_or in Hin.
  destruct Hin as [Hin | Hin]; [now apply Hout |].
  rewrite Forall_forall in Hr. specialize (Hr r Hin). lia.
Qed.

Lemma frame_visitChildren (lb r : BoundsRef) (l : list Container) :
  Forall
    (fun k => forall b w r,
       r <> b -> ~ In r (pool w) -> (r < fresh w)%nat ->
       heap (visit k b w) r = heap w r) l ->
  r <> lb ->
  forall w,
    ~ In r (pool w) -> (r < fresh w)%nat ->
    heap (visitChildren invertMatrix lb l w) r = heap w r.
Proof.
  intros Hall Hne. induction Hall as [| k l Hk _ IH]; intros w Hout Hlt.
  - reflexivity.
  - rewrite visitChildren_cons.
    destruct (grown_keeps_out w (visit k lb w) r (grown_visit k lb w)
                Hout Hlt) as [Hout' Hlt'].
    rewrite IH by assumption. now apply Hk.
Qed.

Lemma heap_addView_other (t : Container) (lb r : BoundsRef) (w : World) :
  r <> lb -> heap (addView t lb w) r = heap w r.
Proof.
  intros Hne. unfold addView. destruct (view t); [| reflexivity].
  now apply heap_modifyBounds_other.
Qed.

Lemma frame_visit (t : Container) :
  forall b w r,
    r <> b -> ~ In r (pool w) -> (r < fresh w)%nat ->
    heap (visit t b w) r = heap w r.
Proof.
  induction t as [t IH] using Container_ind. intros b w r Hb Hout Hlt.
  rewrite visit_eq. destruct (skipped t); [reflexivity |].
  unfold acquire. destruct (needsScratch t) eqn:Hn.
  - destruct (borrowCleared_spec w) as (_ & Hother & _ & Hpool).
    destruct (borrowCleared w) as [lb w1]. cbn [fst snd] in Hother, Hpool.
    assert (Hlb : r <> lb /\ ~ In r (pool w1) /\ (r < fresh w1)%nat).
    { destruct Hpool as [[Hp Hf] | (Hp & Hp1 & Hl & Hf)].
      - rewrite Hp in Hout. rewrite Hf. cbn [In] in Hout.
        repeat split; [intros ->; apply Hout; now left | | exact Hlt].
        intros Hin. apply Hout. now right.
      - subst lb. rewrite Hp1, Hf. repeat split; [lia | intros [] | lia]. }
    destruct Hlb as (Hl & Hout1 & Hlt1).
    rewrite heap_leave_other by assumption.
    rewrite <- (Hother r Hl). unfold content.
    destruct (boundsArea t).
    + unfold addArea. now apply heap_modifyBounds_other.
    + destruct (pool_addView t lb w1) as [Hp Hf].
      rewrite (frame_visitChildren lb r _ IH Hl);
        rewrite ?Hp, ?Hf; try assumption.
      now apply heap_addView_other.
  - assert (Hleave : forall w0, leave invertMatrix t b b w0 = w0).
    { intros w0. unfold leave. unfold needsScratch in Hn.
      apply orb_false_elim in Hn. destruct Hn as [-> ->]. reflexivity. }
    rewrite Hleave. unfold content. destruct (boundsArea t).
    + unfold addArea. now apply heap_modifyBounds_other.
    + destruct (pool_addView t b w) as [Hp Hf].
      rewrite (frame_visitChildren b r _ IH Hb);
        rewrite ?Hp, ?Hf; try assumption.
      now apply heap_addView_other.
Qed.

(** ** The walk computes [boundsOf] *)

Lemma heap_fold_modify (lb : BoundsRef) (fs : list (Bounds.t -> Bounds.t)) :
  forall w,
    heap (fold_left (fun acc f => modifyBounds lb f acc) fs w) lb =
    runEffects fs (heap w lb) /\
    (forall r, r <> lb ->
       heap (fold_left (fun acc f => modifyBounds lb f acc) fs w) r =
       heap w r).
Proof.
  induction fs as [| f fs IH]; intros w; cbn [fold_left runEffects].
  - split; reflexivity.
  - destruct (IH (modifyBounds lb f w)) as [H1 H2]. split.
    + rewrite H1, heap_modifyBounds_same. reflexivity.
    + intros r Hne. rewrite H2 by exact Hne.
      now apply heap_modifyBounds_other.
Qed.

Lemma leave_noScratch (t : Container) (b lb : BoundsRef) (w : World) :
  needsScratch t = false -> leave invertMatrix t b lb w = w.
Proof.
  intros Hn. unfold leave. unfold needsScratch in Hn.
  apply orb_false_elim in Hn. destruct Hn as [-> ->]. reflexivity.
Qed.

Lemma heap_mergeInto_same (b lb : BoundsRef) (m : option Matrix) (w : World) :
  heap (mergeInto b lb m w) b = Bounds.addBounds (heap w b) (heap w lb) m.
Proof.
  apply heap_modifyBounds_same.
Qed.

Lemma heap_mergeInto_other (b lb r : BoundsRef) (m : option Matrix)
  (w : World) :
  r <> b -> heap (mergeInto b lb m w) r = heap w r.
Proof.
  intros Hne. now apply heap_modifyBounds_other.
Qed.

Lemma heap_returnBounds (lb r : BoundsRef) (w : World) :
  heap (returnBounds lb w) r = heap w r.
Proof. reflexivity. Qed.

Lemma heap_convertBack (t : Container) (b lb : BoundsRef) (w : World) :
  lb <> b ->
  let back :=
    Bounds.applyMatrix (heap w lb)
      (invertMatrix
         (matrices w (RenderGroup.worldTransform (renderGroup t)))) in
  heap (convertBack invertMatrix t b lb w) lb = back /\
  heap (convertBack invertMatrix t b lb w) b =
  Bounds.addBounds (heap w b) back (Some (matrices w (rgTransform t))).
Proof.
  intros Hne back. unfold convertBack, Matrix_copyTo, Matrix_invert.
  cbv beta iota zeta.
  rewrite heap_mergeInto_other by exact Hne.
  rewrite heap_mergeInto_same.
  rewrite heap_modifyBounds_same.
  rewrite heap_modifyBounds_other by congruence.
  split; reflexivity.
Qed.

Lemma heap_leave_caller (t : Container) (b lb : BoundsRef) (w : World) :
  lb <> b ->
  heap (leave invertMatrix t b lb w) b =
  leaveValue invertMatrix (matrices w) t (heap w b) (heap w lb).
Proof.
  intros Hne. assert (Hne' : b <> lb) by congruence.
  unfold leave, leaveValue. destruct (manageEffects t).
  - rewrite effectsLoop_fresh.
    destruct (capableEffects (effects t)) as [| f fs].
    + rewrite heap_returnBounds. apply heap_mergeInto_same.
    + set (w0 := modifyBounds lb _ w).
      destruct (heap_fold_modify lb (f :: fs) w0) as [Hl Hb].
      set (w3 := fold_left _ (f :: fs) w0) in *.
      assert (Hm : matrices w3 = matrices w)
        by (unfold w3; now rewrite matrices_fold_modify).
      destruct (heap_convertBack t b lb w3 Hne) as [Hcl Hcb].
      rewrite heap_returnBounds, heap_mergeInto_same, Hcl, Hcb.
      rewrite Hm, Hl, (Hb b Hne').
      unfold w0. rewrite heap_modifyBounds_same.
      rewrite heap_modifyBounds_other by exact Hne'.
      reflexivity.
  - destruct (isRenderGroupRoot t); [| reflexivity].
    rewrite heap_returnBounds. apply heap_mergeInto_same.
Qed.

Lemma poolSound_grown (w w' : World) :
  poolSound w -> grown w w' -> poolSound w'.
Proof.
  intros [Hnd Hlt] (ext & Hp & Hne & Hr & Hf). unfold poolSound.
  rewrite Hp. rewrite Forall_forall in Hlt, Hr. split.
  - apply NoDup_app; [exact Hnd | exact Hne |].
    intros r H1 H2. specialize (Hlt r H1). specialize (Hr r H2). lia.
  - apply Forall_forall. intros r Hin. apply in_app_or in Hin.
    destruct Hin as [Hin | Hin].
    + specialize (Hlt r Hin). lia.
    + specialize (Hr r Hin). lia.
Qed.

Lemma owned_grown (w w' : World) (b : BoundsRef) :
  owned b w -> grown w w' -> owned b w'.
Proof.
  intros [Hlt Hout] Hg. unfold owned.
  destruct (grown_keeps_out w w' b Hg Hout Hlt). now split.
Qed.

Lemma matrices_content (t : Container) (b lb : BoundsRef) (w : World) :
  matrices (content invertMatrix t b lb w) = matrices w.
Proof.
  unfold content. destruct (boundsArea t); [reflexivity |].
  rewrite matrices_visitChildren, matrices_addView; [reflexivity |].
  apply Forall_forall. intros k _. apply matrices_visit.
Qed.

Lemma refine_visitChildren (lb : BoundsRef) (l : list Container) :
  Forall
    (fun k => forall b w,
       poolSound w -> owned b w ->
       heap (visit k b w) b =
       boundsOf invertMatrix (matrices w) k (heap w b)) l ->
  forall w,
    poolSound w -> owned lb w ->
    heap (visitChildren invertMatrix lb l w) lb =
    fold_left (fun a child => boundsOf invertMatrix (matrices w) child a)
      l (heap w lb).
Proof.
  induction 1 as [| k l Hk _ IH]; intros w Hs Ho.
  - reflexivity.
  - rewrite visitChildren_cons.
    pose proof (grown_visit k lb w) as Hg.
    rewrite IH;
      [| now apply (poolSound_grown w) | now apply (owned_grown w)].
    rewrite matrices_visit, Hk by assumption. reflexivity.
Qed.

Lemma heap_addView_same (t : Container) (lb : BoundsRef) (w : World) :
  heap (addView t lb w) lb = viewInto (matrices w) t (heap w lb).
Proof.
  unfold addView, viewInto. destruct (view t); [| reflexivity].
  apply heap_modifyBounds_same.
Qed.

Lemma boundsOf_eq (mats : MatrixRef -> Matrix) (t : Container)
  (acc : Bounds.t) :
  boundsOf invertMatrix mats t acc =
  if skipped t then acc
  else if needsScratch t then
    match boundsArea t with
    | Some area =>
        leaveValue invertMatrix mats t
          (Bounds.addRect acc area (Some (mats (worldTransform t))))
          Bounds.Invalid
    | None =>
        leaveValue invertMatrix mats t acc
          (fold_left (fun l child => boundsOf invertMatrix mats child l)
             (children t) (viewInto mats t Bounds.Invalid))
    end
  else
    match boundsArea t with
    | Some area => Bounds.addRect acc area (Some (mats (worldTransform t)))
    | None =>
        fold_left (fun a child => boundsOf invertMatrix mats child a)
          (children t) (viewInto mats t acc)
    end.
Proof.
  destruct t; reflexivity.
Qed.

Lemma refine_visit (t : Container) :
  forall b w,
    poolSound w -> owned b w ->
    heap (visit t b w) b = boundsOf invertMatrix (matrices w) t (heap w b).
Proof.
  induction t as [t IH] using Container_ind. intros b w Hs Ho.
  rewrite visit_eq, boundsOf_eq. destruct (skipped t); [reflexivity |].
  unfold acquire. destruct (needsScratch t) eqn:Hn.
  - destruct (borrowCleared_spec w) as (Hinv & Hother & Hm & Hpool).
    destruct (borrowCleared w) as [lb w1].
    cbn [fst snd] in Hinv, Hother, Hm, Hpool.
    destruct Hs as [Hnd Hlt]. destruct Ho as [Hb Hout].
    assert (H1 : poolSound w1 /\ owned lb w1 /\ owned b w1 /\ lb <> b).
    { unfold poolSound, owned.
      destruct Hpool as [[Hp Hf] | (Hp & Hp1 & Hl & Hf)].
      - rewrite Hp in Hnd, Hlt, Hout. rewrite Hf.
        apply NoDup_cons_iff in Hnd. destruct Hnd as [Hnl Hnd].
        apply Forall_cons_iff in Hlt. destruct Hlt as [Hl Hlt].
        cbn [In] in Hout. repeat split; try assumption; intuition.
      - subst lb. rewrite Hp1, Hf.
        repeat split; try constructor; try lia; intros []. }
    destruct H1 as (Hs1 & Hol & Hob & Hne).
    assert (Hne' : b <> lb) by congruence.
    rewrite heap_leave_caller by exact Hne.
    rewrite matrices_content, Hm. unfold content.
    destruct (boundsArea t).
    + unfold addArea. rewrite heap_modifyBounds_same.
      rewrite heap_modifyBounds_other by exact Hne.
      now rewrite Hinv, Hm, (Hother b Hne').
    + destruct (pool_addView t lb w1) as [Hpv Hfv].
      assert (Hsv : poolSound (addView t lb w1))
        by (unfold poolSound; now rewrite Hpv, Hfv).
      assert (Hov : forall r, owned r w1 -> owned r (addView t lb w1))
        by (intros r Hr; unfold owned; now rewrite Hpv, Hfv).
      rewrite (refine_visitChildren lb _ IH) by auto.
      rewrite matrices_addView, heap_addView_same, Hinv, Hm.
      rewrite (frame_visitChildren lb b (children t)).
      * rewrite heap_addView_other by exact Hne'.
        now rewrite (Hother b Hne').
      * apply Forall_forall. intros k _. apply frame_visit.
      * exact Hne'.
      * apply (Hov b Hob).
      * apply (Hov b Hob).
  - rewrite leave_noScratch by exact Hn. unfold content.
    destruct (boundsArea t).
    + unfold addArea. apply heap_modifyBounds_same.
    + destruct (pool_addView t b w) as [Hpv Hfv].
      rewrite (refine_visitChildren b _ IH).
      * now rewrite matrices_addView, heap_addView_same.
      * destruct Hs. unfold poolSound. now rewrite Hpv, Hfv.
      * destruct Ho. unfold owned. now rewrite Hpv, Hfv.
Qed.

(** ** Unions *)

Lemma join_invalid_l (x : Bounds.t) : join Bounds.Invalid x = x.
Proof. destruct x; reflexivity. Qed.

Lemma join_invalid_r (x : Bounds.t) : join x Bounds.Invalid = x.
Proof. reflexivity. Qed.

Lemma join_assoc (x y z : Bounds.t) :
  join (join x y) z = join x (join y z).
Proof.
  destruct x, y, z; cbn; try reflexivity; f_equal; lia.
Qed.

Lemma join_comm (x y : Bounds.t) : join x y = join y x.
Proof.
  destruct x, y; cbn; try reflexivity; f_equal; lia.
Qed.

Lemma contains_join_l (x y : Bounds.t) : Bounds.contains (join x y) x.
Proof.
  destruct x, y; cbn; lia.
Qed.

Lemma addPoint_join (acc : Bounds.t) (px py : Z) :
  Bounds.addPoint acc px py = join acc (Bounds.Box px py px py).
Proof. destruct acc; reflexivity. Qed.

Lemma addFrame_join (acc : Bounds.t) (fx0 fy0 fx1 fy1 : Z) (m : Matrix) :
  Bounds.addFrame acc fx0 fy0 fx1 fy1 (Some m) =
  join acc (Bounds.addFrame Bounds.Invalid fx0 fy0 fx1 fy1 (Some m)).
Proof.
  unfold Bounds.addFrame. rewrite !addPoint_join.
  now rewrite join_invalid_l, !join_assoc.
Qed.

Lemma addRect_join (acc : Bounds.t) (r : Rectangle) (m : Matrix) :
  Bounds.addRect acc r (Some m) =
  join acc (Bounds.addRect Bounds.Invalid r (Some m)).
Proof. apply addFrame_join. Qed.

Lemma addBounds_join (acc loc : Bounds.t) (m : Matrix) :
  Bounds.addBounds acc loc (Some m) = join acc (Bounds.applyMatrix loc m).
Proof.
  destruct loc; [reflexivity |]. apply addFrame_join.
Qed.

Lemma viewInto_join (mats : MatrixRef -> Matrix) (t : Container)
  (acc : Bounds.t) :
  viewInto mats t acc = join acc (viewInto mats t Bounds.Invalid).
Proof.
  unfold viewInto. destruct (view t); [apply addFrame_join | reflexivity].
Qed.

Lemma leaveValue_join (mats : MatrixRef -> Matrix) (t : Container)
  (acc loc : Bounds.t) :
  leaveValue invertMatrix mats t acc loc =
  join acc (leaveValue invertMatrix mats t Bounds.Invalid loc).
Proof.
  unfold leaveValue. destruct (manageEffects t).
  - destruct (capableEffects (effects t)).
    + fold (join acc loc). fold (join Bounds.Invalid loc).
      now rewrite join_invalid_l.
    + cbv zeta. rewrite !addBounds_join.
      match goal with
      | |- Bounds.addBounds ?p ?q None = _ =>
          change (Bounds.addBounds p q None) with (join p q)
      end.
      match goal with
      | |- _ = join _ (Bounds.addBounds ?p ?q None) =>
          change (Bounds.addBounds p q None) with (join p q)
      end.
      now rewrite join_invalid_l, join_assoc.
  - destruct (isRenderGroupRoot t); [| reflexivity].
    rewrite !addBounds_join. now rewrite join_invalid_l.
Qed.

Lemma fold_join {A : Type} (g : A -> Bounds.t -> Bounds.t) (l : list A) :
  Forall (fun k => forall a, g k a = join a (g k Bounds.Invalid)) l ->
  forall a,
    fold_left (fun a k => g k a) l a =
    join a (fold_left (fun a k => g k a) l Bounds.Invalid).
Proof.
  induction 1 as [| k l Hk _ IH]; intros a; cbn [fold_left].
  - reflexivity.
  - rewrite IH, (IH (g k Bounds.Invalid)), Hk. apply join_assoc.
Qed.

(** What a subtree adds does not depend on what is accumulated already. *)
Lemma boundsOf_join (mats : MatrixRef -> Matrix) (t : Container) :
  forall acc,
    boundsOf invertMatrix mats t acc =
    join acc (boundsOf invertMatrix mats t Bounds.Invalid).
Proof.
  induction t as [t IH] using Container_ind. intros acc.
  rewrite !boundsOf_eq. destruct (skipped t); [reflexivity |].
  destruct (needsScratch t).
  - destruct (boundsArea t).
    + rewrite leaveValue_join, addRect_join, join_assoc.
      now rewrite <- leaveValue_join.
    + apply leaveValue_join.
  - destruct (boundsArea t); [apply addRect_join |].
    rewrite (fold_join (boundsOf invertMatrix mats) _ IH).
    rewrite (fold_join (boundsOf invertMatrix mats) _ IH
               (viewInto mats t Bounds.Invalid)).
    rewrite viewInto_join. apply join_assoc.
Qed.

Lemma fold_left_permutation {A B : Type} (f : A -> B -> A) (l l' : list B) :
  (forall a x y, f (f a x) y = f (f a y) x) ->
  Permutation l l' ->
  forall a, fold_left f l a = fold_left f l' a.
Proof.
  intros Hswap. induction 1 as [| x l l' _ IH | x y l | l l1 l2 _ IH1 _ IH2];
    intros a; cbn [fold_left].
  - reflexivity.
  - apply IH.
  - now rewrite Hswap.
  - now rewrite IH1.
Qed.

Lemma boundsOf_swap (mats : MatrixRef -> Matrix) (x y : Container)
  (a : Bounds.t) :
  boundsOf invertMatrix mats y (boundsOf invertMatrix mats x a) =
  boundsOf invertMatrix mats x (boundsOf invertMatrix mats y a).
Proof.
  rewrite (boundsOf_join mats y), (boundsOf_join mats x a).
  rewrite (boundsOf_join mats x (boundsOf invertMatrix mats y a)).
  rewrite (boundsOf_join mats y a).
  rewrite !join_assoc. f_equal. apply join_comm.
Qed.

Lemma boundsOf_permutation (mats : MatrixRef -> Matrix) (t : Container)
  (l l' : list Container) (acc : Bounds.t) :
  Permutation l l' ->
  boundsOf invertMatrix mats (withChildren t l) acc =
  boundsOf invertMatrix mats (withChildren t l') acc.
Proof.
  intros Hp. rewrite !boundsOf_eq.
  change (skipped (withChildren t l)) with (skipped t).
  change (skipped (withChildren t l')) with (skipped t).
  change (needsScratch (withChildren t l)) with (needsScratch t).
  change (needsScratch (withChildren t l')) with (needsScratch t).
  cbn [boundsArea children withChildren].
  assert (Hfold : forall a,
            fold_left (fun a child => boundsOf invertMatrix mats child a) l a
            = fold_left (fun a child => boundsOf invertMatrix mats child a)
                l' a).
  { apply fold_left_permutation; [| exact Hp].
    intros a x y. apply boundsOf_swap. }
  destruct (skipped t); [reflexivity |].
  destruct (needsScratch t); destruct (boundsArea t); try reflexivity.
  - change (viewInto mats (withChildren t l) Bounds.Invalid)
      with (viewInto mats t Bounds.Invalid).
    change (viewInto mats (withChildren t l') Bounds.Invalid)
      with (viewInto mats t Bounds.Invalid).
    rewrite Hfold. reflexivity.
  - apply Hfold.
Qed.

(** ** Ordered corners *)

Lemma ordered_fold {A : Type} (g : A -> Bounds.t -> Bounds.t) (l : list A) :
  Forall (fun k => forall a, Bounds.ordered a -> Bounds.ordered (g k a)) l ->
  forall a,
    Bounds.ordered a ->
    Bounds.ordered (fold_left (fun a k => g k a) l a).
Proof.
  induction 1 as [| k l Hk _ IH]; intros a Ha; cbn [fold_left].
  - exact Ha.
  - apply IH. now apply Hk.
Qed.

Lemma ordered_viewInto (mats : MatrixRef -> Matrix) (t : Container)
  (acc : Bounds.t) :
  Bounds.ordered acc -> Bounds.ordered (viewInto mats t acc).
Proof.
  intros H. unfold viewInto. destruct (view t); [| exact H].
  now apply ordered_addFrame.
Qed.

Lemma ordered_addBounds (acc loc : Bounds.t) (m : Matrix) :
  Bounds.ordered acc -> Bounds.ordered (Bounds.addBounds acc loc (Some m)).
Proof.
  intros H. destruct loc; [exact H |]. now apply ordered_addFrame.
Qed.

Lemma effectFree_children (t : Container) :
  effectFree t ->
  effects t = [] /\ Forall effectFree (children t).
Proof.
  unfold effectFree. rewrite nodes_eq. intros H.
  apply Forall_cons_iff in H. destruct H as [He Hrest].
  split; [exact He |]. now rewrite Forall_flat_map in Hrest.
Qed.

Lemma leaveValue_effectless (mats : MatrixRef -> Matrix) (t : Container)
  (acc loc : Bounds.t) :
  effects t = [] ->
  leaveValue invertMatrix mats t acc loc =
  if isRenderGroupRoot t
  then Bounds.addBounds acc loc (Some (mats (rgTransform t)))
  else acc.
Proof.
  intros He. unfold leaveValue, manageEffects. now rewrite He.
Qed.

Lemma ordered_boundsOf (mats : MatrixRef -> Matrix) (t : Container) :
  effectFree t ->
  forall acc,
    Bounds.ordered acc -> Bounds.ordered (boundsOf invertMatrix mats t acc).
Proof.
  induction t as [t IH] using Container_ind. intros Hfree acc Ha.
  destruct (effectFree_children t Hfree) as [He Hch].
  assert (IH' : Forall
            (fun k => forall a, Bounds.ordered a ->
               Bounds.ordered (boundsOf invertMatrix mats k a))
            (children t)).
  { rewrite Forall_forall in *. intros k Hin. apply IH; auto. }
  rewrite boundsOf_eq. destruct (skipped t); [exact Ha |].
  destruct (needsScratch t).
  - destruct (boundsArea t); rewrite leaveValue_effectless by exact He.
    + destruct (isRenderGroupRoot t).
      * apply ordered_addBounds. now apply ordered_addFrame.
      * now apply ordered_addFrame.
    + destruct (isRenderGroupRoot t); [| exact Ha].
      now apply ordered_addBounds.
  - destruct (boundsArea t); [now apply ordered_addFrame |].
    apply (ordered_fold (boundsOf invertMatrix mats) _ IH').
    now apply ordered_viewInto.
Qed.

(** ** The size of the pool *)

Lemma maxDepth_fold (l : list Container) (p : nat) :
  Nat.max p (fold_right Nat.max 0%nat (map scratchDepth l)) =
  fold_left (fun q k => Nat.max q (scratchDepth k)) l p.
Proof.
  revert p. induction l as [| k l IH]; intros p; cbn.
  - lia.
  - rewrite <- IH. lia.
Qed.

Lemma scratchDepth_eq (t : Container) :
  scratchDepth t =
  if skipped t then 0%nat
  else
    ((if needsScratch t then 1 else 0) +
     match boundsArea t with
     | Some _ => 0
     | None => fold_right Nat.max 0 (map scratchDepth (children t))
     end)%nat.
Proof.
  destruct t; reflexivity.
Qed.

Lemma poolSize_visitChildren (lb : BoundsRef) (l : list Container) :
  Forall
    (fun k => forall b w,
       length (pool (visit k b w)) =
       Nat.max (length (pool w)) (scratchDepth k)) l ->
  forall w,
    length (pool (visitChildren invertMatrix lb l w)) =
    Nat.max (length (pool w))
      (fold_right Nat.max 0%nat (map scratchDepth l)).
Proof.
  induction 1 as [| k l Hk _ IH]; intros w.
  - cbn. lia.
  - rewrite visitChildren_cons, IH, Hk. cbn. lia.
Qed.

Lemma poolSize_visit (t : Container) :
  forall b w,
    length (pool (visit t b w)) =
    Nat.max (length (pool w)) (scratchDepth t).
Proof.
  induction t as [t IH] using Container_ind. intros b w.
  rewrite visit_eq, scratchDepth_eq. destruct (skipped t); [lia |].
  assert (Hcontent : forall lb w1,
            length (pool (content invertMatrix t b lb w1)) =
            Nat.max (length (pool w1))
              match boundsArea t with
              | Some _ => 0%nat
              | None => fold_right Nat.max 0%nat
                          (map scratchDepth (children t))
              end).
  { intros lb w1. unfold content. destruct (boundsArea t).
    - cbn. lia.
    - rewrite (poolSize_visitChildren lb _ IH).
      destruct (pool_addView t lb w1) as [-> _]. reflexivity. }
  unfold acquire. destruct (needsScratch t) eqn:Hn.
  - destruct (borrowCleared_spec w) as (_ & _ & _ & Hpool).
    destruct (borrowCleared w) as [lb w1]. cbn [fst snd] in Hpool.
    destruct (pool_leave t b lb (content invertMatrix t b lb w1)) as [Hp _].
    rewrite Hp, Hn. cbn [length]. rewrite Hcontent.
    destruct Hpool as [[Hpw _] | (Hpw & Hp1 & _)].
    + rewrite Hpw. cbn [length]. lia.
    + rewrite Hpw, Hp1. cbn [length]. lia.
  - destruct (pool_leave t b b (content invertMatrix t b b w)) as [Hp _].
    rewrite Hp, Hn, Hcontent. lia.
Qed.

Lemma grown_sizes (w w' : World) :
  grown w w' ->
  fresh w' = (fresh w + (length (pool w') - length (pool w)))%nat.
Proof.
  intros (ext & Hp & _ & _ & Hf). rewrite Hp, Hf, length_app. lia.
Qed.

Lemma grown_nothing (w w' : World) :
  grown w w' -> length (pool w') = length (pool w) ->
  pool w' = pool w /\ fresh w' = fresh w.
Proof.
  intros (ext & Hp & _ & _ & Hf) Hlen. rewrite Hp, length_app in Hlen.
  destruct ext as [| r ext]; [| cbn in Hlen; lia].
  rewrite Hp, Hf, app_nil_r. cbn. split; [reflexivity | lia].
Qed.

(** ** The top level *)

Lemma fastBounds_pool (t : Container) (b : BoundsRef) (w : World) :
  pool (snd (fastBounds t b w)) =
  pool (visit t b (modifyBounds b Bounds.clear w)) /\
  fresh (snd (fastBounds t b w)) =
  fresh (visit t b (modifyBounds b Bounds.clear w)).
Proof.
  unfold getFastGlobalBounds. cbn [snd].
  destruct (negb (Bounds.isValid _)); destruct (negb (isRenderGroupRoot t));
    split; reflexivity.
Qed.

Lemma fastBounds_heap_other (t : Container) (b r : BoundsRef) (w : World) :
  r <> b ->
  heap (snd (fastBounds t b w)) r =
  heap (visit t b (modifyBounds b Bounds.clear w)) r.
Proof.
  intros Hne. unfold getFastGlobalBounds. cbn [snd].
  destruct (negb (Bounds.isValid _)); destruct (negb (isRenderGroupRoot t));
    now rewrite ?heap_modifyBounds_other by exact Hne.
Qed.

(** X1: The pool after a walk is the pool before it followed by the
    accumulators allocated during the walk, which are distinct and new:
    every borrowed instance is back, in its place. *)
Theorem walk_pool_grows (t : Container) (b : BoundsRef) (w : World) :
  grown w (visit t b w) /\ grown w (snd (fastBounds t b w)).
Proof.
  split; [apply grown_visit |].
  destruct (fastBounds_pool t b w) as [Hp Hf].
  destruct (grown_visit t b (modifyBounds b Bounds.clear w))
    as (ext & Hpe & Hnd & Hr & Hfe).
  exists ext. rewrite Hp, Hf. repeat split; assumption.
Qed.

(** X2: A walk leaves the pool with as many instances as it had, or as many
    as the deepest nesting of scratch-needing nodes when that is more; it
    allocates the difference and no more, so a second walk of the same
    tree allocates nothing. *)
Theorem walk_pool_size (t : Container) (b b' : BoundsRef) (w : World) :
  length (pool (visit t b w)) = Nat.max (length (pool w)) (scratchDepth t) /\
  fresh (visit t b w) =
  (fresh w + (Nat.max (length (pool w)) (scratchDepth t) - length (pool w)))%nat
  /\
  pool (visit t b' (visit t b w)) = pool (visit t b w) /\
  fresh (visit t b' (visit t b w)) = fresh (visit t b w).
Proof.
  split; [apply poolSize_visit | split].
  - rewrite (grown_sizes w (visit t b w) (grown_visit t b w)).
    now rewrite poolSize_visit.
  - apply grown_nothing; [apply grown_visit |].
    rewrite !poolSize_visit. lia.
Qed.

(** X3: A walk writes the output accumulator and pooled or newly allocated
    ones only: every other allocated accumulator keeps its value. *)
Theorem walk_frame (t : Container) (b r : BoundsRef) (w : World) :
  r <> b -> ~ In r (pool w) -> (r < fresh w)%nat ->
  heap (visit t b w) r = heap w r /\
  heap (snd (fastBounds t b w)) r = heap w r.
Proof.
  intros Hne Hout Hlt. split; [now apply frame_visit |].
  rewrite fastBounds_heap_other by exact Hne.
  rewrite frame_visit by assumption.
  now apply heap_modifyBounds_other.
Qed.

Lemma poolSound_clear (b : BoundsRef) (w : World) :
  poolSound w -> owned b w ->
  poolSound (modifyBounds b Bounds.clear w) /\
  owned b (modifyBounds b Bounds.clear w).
Proof.
  intros Hs Ho. split; assumption.
Qed.

Lemma result_value (t : Container) (b : BoundsRef) (w : World) :
  poolSound w -> owned b w ->
  result t b w =
  orZero
    (let v := boundsOf invertMatrix (matrices w) t Bounds.Invalid in
     if isRenderGroupRoot t then v
     else Bounds.applyMatrix v
            (matrices w (RenderGroup.worldTransform (renderGroup t)))).
Proof.
  intros Hs Ho. rewrite fastBounds_heap. cbv zeta.
  rewrite refine_visit by assumption.
  now rewrite heap_modifyBounds_same.
Qed.

(** X4: With a sound pool and an output accumulator of the caller's own, the
    output is a function of the tree and of the scene graph's matrices:
    the value of [boundsOf] from an invalid accumulator, taken through
    the render group's world transform unless the target roots a render
    group.  What the output, the pooled accumulators or any other one
    held before plays no part. *)
Theorem walk_value (t : Container) (b b' : BoundsRef) (w w' : World) :
  poolSound w -> owned b w ->
  poolSound w' -> owned b' w' ->
  matrices w' = matrices w ->
  result t b w =
  orZero
    (let v := boundsOf invertMatrix (matrices w) t Bounds.Invalid in
     if isRenderGroupRoot t then v
     else Bounds.applyMatrix v
            (matrices w (RenderGroup.worldTransform (renderGroup t)))) /\
  result t b' w' = result t b w.
Proof.
  intros Hs Ho Hs' Ho' Hm. split; [now apply result_value |].
  rewrite !result_value by assumption. now rewrite Hm.
Qed.

(** X5: A visit adds to the caller's accumulator the union of what its
    subtree yields from nothing; it never shrinks the accumulator,
    whatever the effects in the subtree do. *)
Theorem visit_adds_union (t : Container) (b : BoundsRef) (w : World) :
  poolSound w -> owned b w ->
  heap (visit t b w) b =
  join (heap w b) (boundsOf invertMatrix (matrices w) t Bounds.Invalid) /\
  Bounds.contains (heap (visit t b w) b) (heap w b).
Proof.
  intros Hs Ho. rewrite refine_visit by assumption.
  rewrite boundsOf_join. split; [reflexivity | apply contains_join_l].
Qed.

(** X6: The order of a node's children does not change the output. *)
Theorem children_order_irrelevant (t : Container) (l l' : list Container)
  (b : BoundsRef) (w : World) :
  Permutation l l' ->
  poolSound w -> owned b w ->
  heap (visit (withChildren t l) b w) b =
  heap (visit (withChildren t l') b w) b /\
  result (withChildren t l) b w = result (withChildren t l') b w.
Proof.
  intros Hp Hs Ho. split.
  - rewrite !refine_visit by assumption. now apply boundsOf_permutation.
  - rewrite !result_value by assumption.
    now rewrite (boundsOf_permutation (matrices w) t l l' Bounds.Invalid Hp).
Qed.

Lemma ordered_orZero (bd : Bounds.t) :
  Bounds.ordered bd -> Bounds.ordered (orZero bd).
Proof.
  destruct bd; cbn; lia.
Qed.

Lemma ordered_applyMatrix (bd : Bounds.t) (m : Matrix) :
  Bounds.ordered (Bounds.applyMatrix bd m).
Proof.
  destruct bd; [exact I |]. now apply ordered_addFrame.
Qed.

(** X7: The output has its corners in order, minX <= maxX and minY <= maxY,
    when the target does not root a render group, whatever the effects
    do; and also when no node of the tree carries an effect. *)
Theorem result_ordered (t : Container) (b : BoundsRef) (w : World) :
  isRenderGroupRoot t = false \/
  (effectFree t /\ poolSound w /\ owned b w) ->
  Bounds.ordered (result t b w).
Proof.
  intros [Hr | (Hfree & Hs & Ho)].
  - rewrite fastBounds_heap. cbv zeta. rewrite Hr.
    apply ordered_orZero, ordered_applyMatrix.
  - rewrite result_value by assumption. cbv zeta. apply ordered_orZero.
    destruct (isRenderGroupRoot t); [| apply ordered_applyMatrix].
    now apply ordered_boundsOf.
Qed.

(** ** Render-group roots without effects *)

Lemma boundsOf_root (mats : MatrixRef -> Matrix) (t : Container)
  (acc : Bounds.t) :
  effects t = [] -> isRenderGroupRoot t = true -> boundsArea t = None ->
  boundsOf invertMatrix mats t acc =
  join acc
    (Bounds.applyMatrix
       (boundsOf invertMatrix mats (withRenderGroupRoot t false)
          Bounds.Invalid)
       (mats (rgTransform t))).
Proof.
  intros He Hr Ha. rewrite !boundsOf_eq.
  change (skipped (withRenderGroupRoot t false)) with (skipped t).
  destruct (skipped t); [reflexivity |].
  unfold needsScratch, manageEffects.
  cbn [isRenderGroupRoot effects boundsArea children withRenderGroupRoot].
  rewrite He, Hr, Ha. cbn [length Nat.eqb negb orb].
  rewrite leaveValue_effectless by exact He. rewrite Hr.
  apply addBounds_join.
Qed.

(** X8: A visited render-group root without effects and without area
    override adds to the caller's accumulator what the same node yields
    with the flag off, taken through the node's local-to-render-group
    transform once more. *)
Theorem render_group_root_merge (t : Container) (b : BoundsRef) (w : World) :
  effects t = [] -> isRenderGroupRoot t = true -> boundsArea t = None ->
  poolSound w -> owned b w ->
  heap (visit t b w) b =
  join (heap w b)
    (Bounds.applyMatrix
       (boundsOf invertMatrix (matrices w) (withRenderGroupRoot t false)
          Bounds.Invalid)
       (matrices w (rgTransform t))).
Proof.
  intros He Hr Ha Hs Ho. rewrite refine_visit by assumption.
  now apply boundsOf_root.
Qed.

Lemma shift_zero (bd : Bounds.t) : shift 0 0 bd = bd.
Proof.
  destruct bd; cbn; [reflexivity | f_equal; lia].
Qed.

Lemma applyMatrix_identity (bd : Bounds.t) :
  Bounds.ordered bd -> Bounds.applyMatrix bd identityMatrix = bd.
Proof.
  intros Ho. rewrite applyMatrix_translation; [apply shift_zero | | exact Ho].
  repeat split.
Qed.

Lemma effectFree_unflag (t : Container) :
  effectFree t -> effectFree (withRenderGroupRoot t false).
Proof.
  unfold effectFree. rewrite !nodes_eq. intros H.
  apply Forall_cons_iff in H. destruct H as [He Hrest].
  apply Forall_cons; assumption.
Qed.

Lemma boundsOf_unflag (mats : MatrixRef -> Matrix) (t : Container)
  (acc : Bounds.t) :
  effectFree t ->
  mats (rgTransform t) = identityMatrix ->
  boundsOf invertMatrix mats t acc =
  boundsOf invertMatrix mats (withRenderGroupRoot t false) acc.
Proof.
  intros Hfree Hid.
  destruct (effectFree_children t Hfree) as [He _].
  destruct (isRenderGroupRoot t) eqn:Hr;
    destruct (boundsArea t) as [area |] eqn:Ha.
  - rewrite !boundsOf_eq.
    change (skipped (withRenderGroupRoot t false)) with (skipped t).
    destruct (skipped t); [reflexivity |].
    unfold needsScratch, manageEffects.
    cbn [isRenderGroupRoot effects boundsArea children withRenderGroupRoot].
    rewrite He, Hr, Ha. cbn [length Nat.eqb negb orb].
    rewrite leaveValue_effectless by exact He. now rewrite Hr.
  - rewrite boundsOf_root by assumption. rewrite Hid.
    rewrite applyMatrix_identity.
    + symmetry. apply boundsOf_join.
    + apply ordered_boundsOf; [now apply effectFree_unflag | exact I].
  - rewrite !boundsOf_eq.
    change (skipped (withRenderGroupRoot t false)) with (skipped t).
    destruct (skipped t); [reflexivity |].
    unfold needsScratch, manageEffects.
    cbn [isRenderGroupRoot effects boundsArea children withRenderGroupRoot].
    rewrite He, Hr, Ha. reflexivity.
  - rewrite !boundsOf_eq.
    change (skipped (withRenderGroupRoot t false)) with (skipped t).
    destruct (skipped t); [reflexivity |].
    unfold needsScratch, manageEffects.
    cbn [isRenderGroupRoot effects boundsArea children withRenderGroupRoot].
    rewrite He, Hr, Ha. reflexivity.
Qed.

(** X9: When no node of a subtree carries an effect and the subtree's root
    has the identity as its local-to-render-group transform, visiting the
    root as a render-group root or not leaves the same value in the
    caller's accumulator. *)
Theorem identity_root_flag_irrelevant (t : Container) (b : BoundsRef)
  (w : World) :
  effectFree t ->
  matrices w (rgTransform t) = identityMatrix ->
  poolSound w -> owned b w ->
  heap (visit t b w) b = heap (visit (withRenderGroupRoot t false) b w) b.
Proof.
  intros Hfree Hid Hs Ho. rewrite !refine_visit by assumption.
  now apply boundsOf_unflag.
Qed.

(** ** Targets with an override, and targets that are skipped *)

Lemma boundsOf_area (mats : MatrixRef -> Matrix) (t : Container)
  (area : Rectangle) (acc : Bounds.t) :
  skipped t = false -> effects t = [] -> boundsArea t = Some area ->
  boundsOf invertMatrix mats t acc =
  Bounds.addRect acc area (Some (mats (worldTransform t))).
Proof.
  intros Hs He Ha. rewrite boundsOf_eq, Hs, Ha.
  destruct (needsScratch t); [| reflexivity].
  rewrite leaveValue_effectless by exact He.
  destruct (isRenderGroupRoot t); reflexivity.
Qed.

(** X10: For a visited target without effects that declares an area override
    the output is the override under the target's world transform, and,
    when the target does not root a render group, the box of that under
    the render group's world transform: the override then goes through
    both transforms. *)
Theorem area_override_result (t : Container) (area : Rectangle)
  (b : BoundsRef) (w : World) :
  skipped t = false -> effects t = [] -> boundsArea t = Some area ->
  poolSound w -> owned b w ->
  let placed :=
    Bounds.addRect Bounds.Invalid area
      (Some (matrices w (worldTransform t))) in
  result t b w =
  if isRenderGroupRoot t then placed
  else Bounds.applyMatrix placed
         (matrices w (RenderGroup.worldTransform (renderGroup t))).
Proof.
  intros Hs He Ha Hp Ho placed. rewrite result_value by assumption.
  cbv zeta. rewrite (boundsOf_area _ t area) by assumption.
  fold placed. destruct (isRenderGroupRoot t); reflexivity.
Qed.

(** X11: When the target itself is not visible or not measurable the output
    is (0,0,0,0), whatever the target holds, and nothing else in the
    store changes: no other accumulator, no pool entry, no matrix. *)
Theorem skipped_target_result (t : Container) (b : BoundsRef) (w : World) :
  skipped t = true ->
  result t b w = Bounds.Box 0 0 0 0 /\
  (forall r, r <> b -> heap (snd (fastBounds t b w)) r = heap w r) /\
  pool (snd (fastBounds t b w)) = pool w /\
  fresh (snd (fastBounds t b w)) = fresh w /\
  poolLog (snd (fastBounds t b w)) = poolLog w /\
  matrices (snd (fastBounds t b w)) = matrices w /\
  tempMatrix (snd (fastBounds t b w)) = tempMatrix w.
Proof.
  intros Hs. split.
  - rewrite fastBounds_heap. cbv zeta.
    rewrite (visit_skipped invertMatrix t b _ Hs), heap_modifyBounds_same.
    destruct (isRenderGroupRoot t); reflexivity.
  - unfold getFastGlobalBounds. cbn [snd].
    rewrite (visit_skipped invertMatrix t b _ Hs).
    destruct (negb (isRenderGroupRoot t));
      destruct (negb (Bounds.isValid _));
      repeat split; try reflexivity;
      intros r Hne; now rewrite ?heap_modifyBounds_other by exact Hne.
Qed.

(** ** Render groups below the target *)

Lemma ordered_boxThrough (chain : list Matrix) (bd : Bounds.t) :
  Bounds.ordered bd -> Bounds.ordered (boxThrough chain bd).
Proof.
  intros Ho. destruct chain as [| m rest]; [exact Ho |].
  apply ordered_applyMatrix.
Qed.

Lemma boxThrough_app (chain : list Matrix) (m : Matrix) (bd : Bounds.t) :
  boxThrough (chain ++ [m]) bd = boxThrough chain (Bounds.applyMatrix bd m).
Proof.
  unfold boxThrough. now rewrite fold_right_app.
Qed.

Lemma boxThrough_mono (chain : list Matrix) (big small : Bounds.t) :
  Bounds.ordered small -> Bounds.contains big small ->
  Bounds.contains (boxThrough chain big) (boxThrough chain small).
Proof.
  intros Ho Hc. induction chain as [| m rest IH]; [exact Hc |].
  cbn [boxThrough fold_right]. apply applyMatrix_mono; [| exact IH].
  now apply ordered_boxThrough.
Qed.

Lemma inside_boxThrough (chain : list Matrix) (bd : Bounds.t) (p : Z * Z) :
  Bounds.inside bd (fst p) (snd p) ->
  Bounds.inside (boxThrough chain bd)
    (fst (throughChain chain p)) (snd (throughChain chain p)).
Proof.
  intros Hin. induction chain as [| m rest IH]; [exact Hin |].
  cbn [boxThrough throughChain fold_right].
  apply (inside_applyMatrix _ m _ _ IH).
Qed.

Lemma contains_join_least (big x y : Bounds.t) :
  Bounds.contains big x -> Bounds.contains big y ->
  Bounds.contains big (join x y).
Proof.
  destruct big, x, y; cbn; lia.
Qed.

Lemma contains_join_r (x y : Bounds.t) : Bounds.contains (join x y) y.
Proof.
  destruct x, y; cbn; lia.
Qed.

Lemma ordered_join (x y : Bounds.t) :
  Bounds.ordered x -> Bounds.ordered y -> Bounds.ordered (join x y).
Proof.
  destruct x, y; cbn; lia.
Qed.

Lemma unionViews_join (tr : Container -> Matrix) (l : list Container)
  (acc : Bounds.t) :
  unionViews tr l acc = join acc (unionViews tr l Bounds.Invalid).
Proof.
  unfold unionViews.
  apply (fold_join
           (fun n bd =>
              match view n with
              | Some v =>
                  Bounds.addFrame bd
                    (minX (View.bounds v)) (minY (View.bounds v))
                    (maxX (View.bounds v)) (maxY (View.bounds v))
                    (Some (tr n))
              | None => bd
              end)).
  apply Forall_forall. intros n _ a.
  destruct (view n); [apply addFrame_join | reflexivity].
Qed.

Lemma fold_boundsOf_join (mats : MatrixRef -> Matrix) (l : list Container)
  (acc : Bounds.t) :
  fold_left (fun a child => boundsOf invertMatrix mats child a) l acc =
  join acc
    (fold_left (fun a child => boundsOf invertMatrix mats child a) l
       Bounds.Invalid).
Proof.
  apply (fold_join (fun child a => boundsOf invertMatrix mats child a)).
  apply Forall_forall. intros k _ a. apply boundsOf_join.
Qed.

(** What the walk adds for an unclipped node: the children's boxes taken
    through the node's local-to-render-group transform when the node
    roots a render group, its view and its children's boxes as they are
    otherwise. *)
Lemma boundsOf_unclipped (mats : MatrixRef -> Matrix) (n : Container)
  (acc : Bounds.t) :
  unclipped n ->
  boundsOf invertMatrix mats n acc =
  if isRenderGroupRoot n
  then
    join acc
      (Bounds.applyMatrix
         (fold_left (fun a child => boundsOf invertMatrix mats child a)
            (children n) Bounds.Invalid)
         (mats (rgTransform n)))
  else
    fold_left (fun a child => boundsOf invertMatrix mats child a)
      (children n) (viewInto mats n acc).
Proof.
  intros (Hf & Hm & Ha & Hi & Hv). rewrite boundsOf_eq.
  unfold skipped, needsScratch. rewrite Hf, Hm, Ha.
  cbn [Z.eqb Pos.eqb negb orb].
  destruct (isRenderGroupRoot n) eqn:Hr.
  - destruct (Hv eq_refl) as [He Hw]. cbn [orb].
    rewrite leaveValue_effectless by exact He. rewrite Hr.
    unfold viewInto. rewrite Hw. apply addBounds_join.
  - cbn [orb]. destruct (manageEffects n) eqn:Hme; [| reflexivity].
    unfold leaveValue. rewrite Hme.
    rewrite capableEffects_inert
      by (intros e Hin; rewrite Forall_forall in Hi; now apply Hi).
    fold (join acc
            (fold_left (fun l child => boundsOf invertMatrix mats child l)
               (children n) (viewInto mats n Bounds.Invalid))).
    rewrite (fold_boundsOf_join mats (children n) (viewInto mats n acc)).
    rewrite (fold_boundsOf_join mats (children n)
               (viewInto mats n Bounds.Invalid)).
    rewrite (viewInto_join mats n acc). now rewrite join_assoc.
Qed.

Lemma staged_inv (w : World) (chain : list Matrix) (n : Container) :
  staged w chain n ->
  unclipped n /\ placedBy w chain n /\
  Forall (staged w (chainBelow w chain n)) (children n).
Proof.
  intros H. inversion H; subst. split; [assumption | split; assumption].
Qed.

(** One view more: the walk's box, taken through the chain, still holds
    the true one. *)
Lemma view_contains_step (w : World) (chain : list Matrix) (n : Container)
  (acc big : Bounds.t) :
  placedBy w chain n ->
  Bounds.ordered acc ->
  Bounds.contains (boxThrough chain acc) big ->
  Bounds.contains (boxThrough chain (viewInto (matrices w) n acc))
    (viewUnder (fun k => matrices w (worldTransform k)) n big).
Proof.
  intros Hp Ho Hc. unfold viewInto, viewUnder, unionViews, placedBy in *.
  cbn [fold_left]. destruct (view n) as [v |]; [| exact Hc].
  set (f := View.bounds v) in *.
  set (T := matrices w (rgTransform n)) in *.
  destruct (addFrame_spec acc (minX f) (minY f) (maxX f) (maxY f) T)
    as (Hgrow & K1 & K2 & K3 & K4).
  set (U := Bounds.addFrame acc (minX f) (minY f) (maxX f) (maxY f)
              (Some T)) in *.
  unfold corners in Hp.
  apply Forall_cons_iff in Hp. destruct Hp as [P1 Hp].
  apply Forall_cons_iff in Hp. destruct Hp as [P2 Hp].
  apply Forall_cons_iff in Hp. destruct Hp as [P3 Hp].
  apply Forall_cons_iff in Hp. destruct Hp as [P4 _].
  assert (Hpt : forall px py,
            Bounds.inside U (applyX T px py) (applyY T px py) ->
            applyPoint (matrices w (worldTransform n)) (px, py) =
            throughChain chain (applyPoint T (px, py)) ->
            Bounds.inside (boxThrough chain U)
              (applyX (matrices w (worldTransform n)) px py)
              (applyY (matrices w (worldTransform n)) px py)).
  { intros px py Hin Heq.
    pose proof (inside_boxThrough chain U (applyPoint T (px, py)) Hin) as H.
    rewrite <- Heq in H. exact H. }
  apply addFrame_least; try (apply Hpt; assumption).
  eapply contains_trans; [| exact Hc].
  now apply boxThrough_mono.
Qed.

Lemma children_contains (w : World) (chain : list Matrix)
  (l : list Container) :
  Forall
    (fun k => forall acc big,
       Bounds.ordered acc ->
       Bounds.contains (boxThrough chain acc) big ->
       Bounds.ordered (boundsOf invertMatrix (matrices w) k acc) /\
       Bounds.contains
         (boxThrough chain (boundsOf invertMatrix (matrices w) k acc))
         (unionViews (fun n => matrices w (worldTransform n)) (nodes k) big))
    l ->
  forall acc big,
    Bounds.ordered acc ->
    Bounds.contains (boxThrough chain acc) big ->
    Bounds.ordered
      (fold_left (fun a child => boundsOf invertMatrix (matrices w) child a)
         l acc) /\
    Bounds.contains
      (boxThrough chain
         (fold_left
            (fun a child => boundsOf invertMatrix (matrices w) child a)
            l acc))
      (unionViews (fun n => matrices w (worldTransform n))
         (flat_map nodes l) big).
Proof.
  induction 1 as [| k l Hk _ IH]; intros acc big Ho Hc.
  - split; assumption.
  - cbn [fold_left flat_map]. rewrite unionViews_app.
    destruct (Hk acc big Ho Hc) as [Ho' Hc']. now apply IH.
Qed.

Lemma staged_contains (w : World) (n : Container) :
  forall chain acc big,
    staged w chain n ->
    Bounds.ordered acc ->
    Bounds.contains (boxThrough chain acc) big ->
    Bounds.ordered (boundsOf invertMatrix (matrices w) n acc) /\
    Bounds.contains
      (boxThrough chain (boundsOf invertMatrix (matrices w) n acc))
      (unionViews (fun k => matrices w (worldTransform k)) (nodes n) big).
Proof.
  induction n as [n IH] using Container_ind.
  intros chain acc big Hst Ho Hc.
  destruct (staged_inv w chain n Hst) as (Hun & Hp & Hch).
  assert (IH' : Forall
            (fun k => forall acc big,
               Bounds.ordered acc ->
               Bounds.contains (boxThrough (chainBelow w chain n) acc) big ->
               Bounds.ordered (boundsOf invertMatrix (matrices w) k acc) /\
               Bounds.contains
                 (boxThrough (chainBelow w chain n)
                    (boundsOf invertMatrix (matrices w) k acc))
                 (unionViews (fun n => matrices w (worldTransform n))
                    (nodes k) big))
            (children n)).
  { rewrite Forall_forall in *. intros k Hin acc' big' Ho' Hc'.
    apply (IH k Hin); auto. }
  rewrite (boundsOf_unclipped _ n acc Hun), nodes_eq.
  change (n :: flat_map nodes (children n))
    with ([n] ++ flat_map nodes (children n)).
  rewrite unionViews_app.
  destruct Hun as (_ & _ & _ & _ & Hview).
  unfold chainBelow in IH'. destruct (isRenderGroupRoot n) eqn:Hr.
  - assert (Hown : unionViews (fun k => matrices w (worldTransform k)) [n]
                     big = big).
    { unfold unionViews. cbn [fold_left]. destruct (Hview eq_refl) as [_ Hw]. now rewrite Hw. }
    rewrite Hown.
    destruct (children_contains w _ (children n) IH' Bounds.Invalid
                Bounds.Invalid I) as [Hox Hcx].
    { destruct (boxThrough _ Bounds.Invalid); exact I. }
    rewrite boxThrough_app in Hcx.
    set (X := fold_left _ (children n) Bounds.Invalid) in *.
    split.
    + apply ordered_join; [exact Ho | apply ordered_applyMatrix].
    + rewrite unionViews_join. apply contains_join_least.
      * eapply contains_trans; [| exact Hc].
        apply boxThrough_mono; [exact Ho | apply contains_join_l].
      * eapply contains_trans; [| exact Hcx].
        apply boxThrough_mono;
          [apply ordered_applyMatrix | apply contains_join_r].
  - apply (children_contains w chain (children n) IH').
    + now apply ordered_viewInto.
    + now apply view_contains_step.
Qed.

(** ** Chains of translations *)

Lemma shift_shift (dx dy ex ey : Z) (bd : Bounds.t) :
  shift ex ey (shift dx dy bd) = shift (dx + ex) (dy + ey) bd.
Proof.
  destruct bd; cbn [shift]; [reflexivity | f_equal; lia].
Qed.

Lemma shift_join (dx dy : Z) (x y : Bounds.t) :
  shift dx dy (join x y) = join (shift dx dy x) (shift dx dy y).
Proof.
  destruct x, y; cbn; try reflexivity; f_equal; lia.
Qed.

(** A chain of translations moves boxes and points by one and the same
    offset. *)
Lemma boxThrough_translations (chain : list Matrix) :
  Forall isTranslation chain ->
  exists dx dy,
    (forall bd, Bounds.ordered bd -> boxThrough chain bd = shift dx dy bd) /\
    (forall px py, throughChain chain (px, py) = (px + dx, py + dy)).
Proof.
  induction 1 as [| m rest Hm _ (dx & dy & Hbox & Hpt)].
  - exists 0, 0. split.
    + intros bd _. now rewrite shift_zero.
    + intros px py. cbn. now rewrite !Z.add_0_r.
  - exists (dx + mtx m), (dy + mty m). split.
    + intros bd Ho. cbn [boxThrough fold_right].
      rewrite applyMatrix_translation
        by (exact Hm || now apply ordered_boxThrough).
      fold (boxThrough rest bd). rewrite (Hbox bd Ho). apply shift_shift.
    + intros px py. cbn [throughChain fold_right].
      fold (throughChain rest (px, py)). rewrite Hpt.
      unfold applyPoint. cbn [fst snd].
      destruct (apply_translation m (px + dx) (py + dy) Hm) as [-> ->].
      f_equal; lia.
Qed.

Lemma view_equal_step (w : World) (chain : list Matrix) (n : Container)
  (acc : Bounds.t) :
  Forall isTranslation chain ->
  placedBy w chain n ->
  Bounds.ordered acc ->
  boxThrough chain (viewInto (matrices w) n acc) =
  viewUnder (fun k => matrices w (worldTransform k)) n (boxThrough chain acc).
Proof.
  intros Htr Hp Ho.
  destruct (boxThrough_translations chain Htr) as (dx & dy & Hbox & Hpt).
  rewrite (Hbox _ (ordered_viewInto (matrices w) n acc Ho)), (Hbox acc Ho).
  unfold viewInto, viewUnder, unionViews, placedBy in *. cbn [fold_left].
  destruct (view n) as [v |]; [| reflexivity].
  unfold corners in Hp.
  apply Forall_cons_iff in Hp. destruct Hp as [P1 Hp].
  apply Forall_cons_iff in Hp. destruct Hp as [P2 Hp].
  apply Forall_cons_iff in Hp. destruct Hp as [P3 Hp].
  apply Forall_cons_iff in Hp. destruct Hp as [P4 _].
  unfold applyPoint in P1, P2, P3, P4. cbn [fst snd] in P1, P2, P3, P4.
  rewrite Hpt in P1, P2, P3, P4.
  injection P1 as X1 Y1. injection P2 as X2 Y2.
  injection P3 as X3 Y3. injection P4 as X4 Y4.
  unfold Bounds.addFrame. rewrite !shift_addPoint.
  now rewrite X1, Y1, X2, Y2, X3, Y3, X4, Y4.
Qed.

Lemma boxThrough_invalid (chain : list Matrix) :
  boxThrough chain Bounds.Invalid = Bounds.Invalid.
Proof.
  induction chain as [| m rest IH]; [reflexivity |].
  cbn [boxThrough fold_right]. fold (boxThrough rest Bounds.Invalid).
  now rewrite IH.
Qed.

Lemma boxThrough_join (chain : list Matrix) (x y : Bounds.t) :
  Forall isTranslation chain ->
  Bounds.ordered x -> Bounds.ordered y ->
  boxThrough chain (join x y) =
  join (boxThrough chain x) (boxThrough chain y).
Proof.
  intros Htr Hx Hy.
  destruct (boxThrough_translations chain Htr) as (dx & dy & Hbox & _).
  rewrite (Hbox _ (ordered_join x y Hx Hy)), (Hbox x Hx), (Hbox y Hy).
  apply shift_join.
Qed.

Lemma children_equal (w : World) (chain : list Matrix)
  (l : list Container) :
  Forall
    (fun k => forall acc,
       Bounds.ordered acc ->
       Bounds.ordered (boundsOf invertMatrix (matrices w) k acc) /\
       boxThrough chain (boundsOf invertMatrix (matrices w) k acc) =
       unionViews (fun n => matrices w (worldTransform n)) (nodes k)
         (boxThrough chain acc))
    l ->
  forall acc,
    Bounds.ordered acc ->
    Bounds.ordered
      (fold_left (fun a child => boundsOf invertMatrix (matrices w) child a)
         l acc) /\
    boxThrough chain
      (fold_left (fun a child => boundsOf invertMatrix (matrices w) child a)
         l acc) =
    unionViews (fun n => matrices w (worldTransform n)) (flat_map nodes l)
      (boxThrough chain acc).
Proof.
  induction 1 as [| k l Hk _ IH]; intros acc Ho.
  - split; [assumption | reflexivity].
  - cbn [fold_left flat_map]. rewrite unionViews_app.
    destruct (Hk acc Ho) as [Ho' <-]. now apply IH.
Qed.

Lemma staged_equal (w : World) (n : Container) :
  forall chain acc,
    staged w chain n ->
    Forall isTranslation chain ->
    rootsTranslate w (nodes n) ->
    Bounds.ordered acc ->
    Bounds.ordered (boundsOf invertMatrix (matrices w) n acc) /\
    boxThrough chain (boundsOf invertMatrix (matrices w) n acc) =
    unionViews (fun k => matrices w (worldTransform k)) (nodes n)
      (boxThrough chain acc).
Proof.
  induction n as [n IH] using Container_ind.
  intros chain acc Hst Htr Hroots Ho.
  destruct (staged_inv w chain n Hst) as (Hun & Hp & Hch).
  unfold rootsTranslate in Hroots. rewrite nodes_eq in Hroots.
  apply Forall_cons_iff in Hroots. destruct Hroots as [Hown Hbelow].
  assert (Htr' : Forall isTranslation (chainBelow w chain n)).
  { unfold chainBelow. destruct (isRenderGroupRoot n); [| exact Htr].
    apply Forall_app. split; [exact Htr |].
    constructor; [now apply Hown | constructor]. }
  assert (IH' : Forall
            (fun k => forall acc,
               Bounds.ordered acc ->
               Bounds.ordered (boundsOf invertMatrix (matrices w) k acc) /\
               boxThrough (chainBelow w chain n)
                 (boundsOf invertMatrix (matrices w) k acc) =
               unionViews (fun n => matrices w (worldTransform n))
                 (nodes k) (boxThrough (chainBelow w chain n) acc))
            (children n)).
  { rewrite Forall_forall in IH, Hch, Hbelow.
    apply Forall_forall. intros k Hin acc' Ho'.
    apply (IH k Hin); [now apply Hch | exact Htr' | | exact Ho'].
    apply Forall_forall. intros x Hx.
    apply Hbelow. apply in_flat_map. now exists k. }
  rewrite (boundsOf_unclipped _ n acc Hun), nodes_eq.
  change (n :: flat_map nodes (children n))
    with ([n] ++ flat_map nodes (children n)).
  rewrite unionViews_app.
  destruct Hun as (_ & _ & _ & _ & Hview).
  unfold chainBelow in IH'. destruct (isRenderGroupRoot n) eqn:Hr.
  - destruct (Hview eq_refl) as [_ Hw].
    assert (Hself : forall big,
              unionViews (fun k => matrices w (worldTransform k)) [n] big
              = big).
    { intros big. unfold unionViews. cbn [fold_left]. now rewrite Hw. }
    rewrite Hself.
    destruct (children_equal w _ (children n) IH' Bounds.Invalid I)
      as [Hox Hex].
    rewrite boxThrough_app, boxThrough_invalid in Hex.
    set (X := fold_left _ (children n) Bounds.Invalid) in *.
    split.
    + apply ordered_join; [exact Ho | apply ordered_applyMatrix].
    + rewrite boxThrough_join
        by (assumption || apply ordered_applyMatrix).
      rewrite Hex. symmetry. apply unionViews_join.
  - destruct (children_equal w chain (children n) IH'
                (viewInto (matrices w) n acc)
                (ordered_viewInto (matrices w) n acc Ho)) as [Hox Hex].
    split; [exact Hox |].
    rewrite Hex. f_equal. now apply view_equal_step.
Qed.

(** C1, as the code has it.  Take a tree whose nodes are visible and
    measurable, have no area override and no effect with bounds logic,
    and whose render-group roots have neither an effect nor a view of
    their own; render groups may be nested below the target, and the
    target may root one.  Let every node's world transform take the
    corners of the node's view where the code's transforms take them:
    the node's local-to-render-group transform first, then those of the
    render-group roots above it up to the target, then the world
    transform of the target's render group unless the target roots one.
    Then the output contains the union of the view frames under the
    nodes' world transforms, whatever the affine transforms are; and
    when the transforms of the render groups are translations the output
    is that union, or (0,0,0,0) when the tree has no view. *)
Theorem C1_never_smaller (t : Container) (b : BoundsRef) (w : World) :
  staged w (targetChain w t) t ->
  poolSound w -> owned b w ->
  Bounds.contains (result t b w) (trueBounds w t) /\
  (groupsTranslate w t -> result t b w = orZero (trueBounds w t)).
Proof.
  intros Hst Hs Ho. rewrite (result_value t b w Hs Ho). cbv zeta.
  assert (Hval :
            (if isRenderGroupRoot t
             then boundsOf invertMatrix (matrices w) t Bounds.Invalid
             else Bounds.applyMatrix
                    (boundsOf invertMatrix (matrices w) t Bounds.Invalid)
                    (matrices w
                       (RenderGroup.worldTransform (renderGroup t)))) =
            boxThrough (targetChain w t)
              (boundsOf invertMatrix (matrices w) t Bounds.Invalid)).
  { unfold targetChain. now destruct (isRenderGroupRoot t). }
  rewrite Hval. unfold trueBounds. split.
  - apply contains_orZero.
    apply (staged_contains w t (targetChain w t) Bounds.Invalid
             Bounds.Invalid Hst I).
    now rewrite boxThrough_invalid.
  - intros [Htr Hroots]. f_equal.
    destruct (staged_equal w t (targetChain w t) Bounds.Invalid Hst Htr
                Hroots I) as [_ ->].
    now rewrite boxThrough_invalid.
Qed.

End Pool.

(** ** Instances on concrete stores *)

Lemma sampleWorld_sound : poolSound sampleWorld /\ owned 0%nat sampleWorld.
Proof.
  split; split.
  - constructor.
  - constructor.
  - cbn. lia.
  - intros [].
Defined.

Lemma busyWorld_sound : poolSound busyWorld /\ owned 0%nat busyWorld.
Proof.
  split; split.
  - repeat constructor; cbn; intuition discriminate.
  - repeat constructor.
  - cbn. lia.
  - cbn. intuition discriminate.
Defined.

Example nested_runs :
  resultOf invertByDeterminant nested 0%nat busyWorld = Bounds.Box 4 4 17 18 /\
  pool (snd (getFastGlobalBounds invertByDeterminant nested 0%nat busyWorld))
  = [2%nat; 3%nat] /\
  poolLog (snd (getFastGlobalBounds invertByDeterminant nested 0%nat busyWorld))
  = [Borrowed 2%nat; Returned 2%nat; Borrowed 2%nat; Returned 2%nat].
Proof. vm_compute. repeat split; reflexivity. Qed.

Lemma walk_frame_witness :
  heap (_getGlobalBoundsRecursive invertByDeterminant nested 0%nat busyWorld)
    1%nat = heap busyWorld 1%nat /\
  heap (snd (getFastGlobalBounds invertByDeterminant nested 0%nat busyWorld))
    1%nat = heap busyWorld 1%nat.
Proof.
  apply (walk_frame invertByDeterminant nested 0%nat 1%nat busyWorld).
  - discriminate.
  - cbn. intuition discriminate.
  - cbn. lia.
Defined.

Lemma walk_value_witness :
  resultOf invertByDeterminant nested 0%nat busyWorld =
  orZero
    (let v :=
       boundsOf invertByDeterminant (matrices busyWorld) nested
         Bounds.Invalid in
     if isRenderGroupRoot nested then v
     else Bounds.applyMatrix v
            (matrices busyWorld
               (RenderGroup.worldTransform (renderGroup nested)))) /\
  resultOf invertByDeterminant nested 0%nat sampleWorld =
  resultOf invertByDeterminant nested 0%nat busyWorld.
Proof.
  apply (walk_value invertByDeterminant nested 0%nat 0%nat busyWorld
           sampleWorld).
  - apply busyWorld_sound.
  - apply busyWorld_sound.
  - apply sampleWorld_sound.
  - apply sampleWorld_sound.
  - reflexivity.
Defined.

Lemma visit_adds_union_witness :
  heap (_getGlobalBoundsRecursive invertByDeterminant nested 0%nat busyWorld)
    0%nat =
  join (heap busyWorld 0%nat)
    (boundsOf invertByDeterminant (matrices busyWorld) nested Bounds.Invalid)
  /\
  Bounds.contains
    (heap (_getGlobalBoundsRecursive invertByDeterminant nested 0%nat
             busyWorld) 0%nat)
    (heap busyWorld 0%nat).
Proof.
  apply (visit_adds_union invertByDeterminant nested 0%nat busyWorld).
  - apply busyWorld_sound.
  - apply busyWorld_sound.
Defined.

Lemma children_order_irrelevant_witness :
  heap (_getGlobalBoundsRecursive invertByDeterminant
          (withChildren nested [plainRoot; paddedSquare]) 0%nat busyWorld)
    0%nat =
  heap (_getGlobalBoundsRecursive invertByDeterminant
          (withChildren nested [paddedSquare; plainRoot]) 0%nat busyWorld)
    0%nat /\
  resultOf invertByDeterminant
    (withChildren nested [plainRoot; paddedSquare]) 0%nat busyWorld =
  resultOf invertByDeterminant
    (withChildren nested [paddedSquare; plainRoot]) 0%nat busyWorld.
Proof.
  apply (children_order_irrelevant invertByDeterminant nested
           [plainRoot; paddedSquare] [paddedSquare; plainRoot] 0%nat
           busyWorld).
  - apply perm_swap.
  - apply busyWorld_sound.
  - apply busyWorld_sound.
Defined.

Lemma result_ordered_witness :
  Bounds.ordered (resultOf invertByDeterminant onlyEffect 0%nat sampleWorld).
Proof.
  apply (result_ordered invertByDeterminant onlyEffect 0%nat sampleWorld).
  left. reflexivity.
Defined.

Lemma render_group_root_merge_witness :
  heap (_getGlobalBoundsRecursive invertByDeterminant plainRoot 0%nat
          busyWorld) 0%nat =
  join (heap busyWorld 0%nat)
    (Bounds.applyMatrix
       (boundsOf invertByDeterminant (matrices busyWorld)
          (withRenderGroupRoot plainRoot false) Bounds.Invalid)
       (matrices busyWorld (rgTransform plainRoot))).
Proof.
  apply (render_group_root_merge invertByDeterminant plainRoot 0%nat
           busyWorld).
  - reflexivity.
  - reflexivity.
  - reflexivity.
  - apply busyWorld_sound.
  - apply busyWorld_sound.
Defined.

Lemma identity_root_flag_irrelevant_witness :
  heap (_getGlobalBoundsRecursive invertByDeterminant stillRoot 0%nat
          busyWorld) 0%nat =
  heap (_getGlobalBoundsRecursive invertByDeterminant
          (withRenderGroupRoot stillRoot false) 0%nat busyWorld) 0%nat.
Proof.
  apply (identity_root_flag_irrelevant invertByDeterminant stillRoot 0%nat
           busyWorld).
  - repeat constructor.
  - reflexivity.
  - apply busyWorld_sound.
  - apply busyWorld_sound.
Defined.

Lemma area_override_result_witness :
  let placed :=
    Bounds.addRect Bounds.Invalid (mkRectangle 0 0 1 1)
      (Some (matrices busyWorld (worldTransform overridden))) in
  resultOf invertByDeterminant overridden 0%nat busyWorld =
  if isRenderGroupRoot overridden then placed
  else Bounds.applyMatrix placed
         (matrices busyWorld
            (RenderGroup.worldTransform (renderGroup overridden))).
Proof.
  apply (area_override_result invertByDeterminant overridden
           (mkRectangle 0 0 1 1) 0%nat busyWorld).
  - reflexivity.
  - reflexivity.
  - reflexivity.
  - apply busyWorld_sound.
  - apply busyWorld_sound.
Defined.

Lemma skipped_target_result_witness :
  resultOf invertByDeterminant hidden 0%nat busyWorld = Bounds.Box 0 0 0 0.
Proof.
  apply (skipped_target_result invertByDeterminant hidden 0%nat busyWorld).
  reflexivity.
Defined.

(** The tree [grouped] is staged: every node is unclipped and its world
    transform is the composite of the transforms above it. *)
Lemma grouped_staged :
  staged sampleWorld (targetChain sampleWorld grouped) grouped.
Proof.
  apply staged_node.
  - repeat split; try discriminate; constructor.
  - exact I.
  - constructor; [| constructor; [| constructor; [| constructor]]].
    + apply staged_node.
      * repeat split; try discriminate; constructor.
      * repeat constructor.
      * constructor.
    + apply staged_node.
      * repeat split; try discriminate; constructor.
      * exact I.
      * constructor; [| constructor]. apply staged_node.
        -- repeat split; try discriminate; constructor.
        -- repeat constructor.
        -- constructor.
    + apply staged_node.
      * repeat split; try discriminate; repeat constructor.
      * repeat constructor.
      * constructor.
Defined.

Lemma grouped_translates : groupsTranslate sampleWorld grouped.
Proof.
  split.
  - repeat constructor.
  - repeat constructor.
Defined.

(** Every view of [grouped] decides a side of the output: the view of A
    the top, the one below the render-group root the left, the one of F
    the right and the bottom. *)
Lemma C1_witness :
  Bounds.contains
    (resultOf invertByDeterminant grouped 0%nat sampleWorld)
    (trueBounds sampleWorld grouped) /\
  resultOf invertByDeterminant grouped 0%nat sampleWorld =
  orZero (trueBounds sampleWorld grouped) /\
  trueBounds sampleWorld grouped = Bounds.Box (-13) (-95) 47 48 /\
  trueBounds sampleWorld tallLeaf = Bounds.Box 5 (-95) 15 15 /\
  trueBounds sampleWorld groupG = Bounds.Box (-13) (-12) (-3) (-2) /\
  trueBounds sampleWorld farRight = Bounds.Box 37 38 47 48.
Proof.
  pose proof (C1_never_smaller invertByDeterminant grouped 0%nat sampleWorld
                grouped_staged (proj1 sampleWorld_sound)
                (proj2 sampleWorld_sound)) as [Hc He].
  split; [exact Hc |].
  split; [exact (He grouped_translates) |].
  repeat split.
Defined.

(** The never-smaller property fails as claimed in four ways.  With an
    area override, on [overridden], where every condition of the claim
    holds: the output (0,0,1,1) does not contain the view (0,0,10,10).
    With a render-group root that has a view of its own, on
    [overViewRoot]: the root's transform is applied to the view twice,
    so the output (9,11,13,15) does not contain the view's true place
    (7,8,11,12).  With an effect that has bounds logic, on [masked]: the
    effect leaves (2,2,3,3) of the view (0,0,10,10).  With a
    render-group root that carries an effect without bounds logic, on
    [inertGroup]: the root's transform is not applied to the child's
    view at all, so the output (0,0,10,10) does not contain the view's
    true place (2,3,12,13).  In each scene every transform is a
    translation and every world transform is its render group's after
    the local one. *)
Lemma C1_counterexample :
  (translatedScene sampleWorld overridden /\
   resultOf invertByDeterminant overridden 0%nat sampleWorld
   = Bounds.Box 0 0 1 1 /\
   trueBounds sampleWorld overridden = Bounds.Box 0 0 10 10 /\
   ~ Bounds.contains
       (resultOf invertByDeterminant overridden 0%nat sampleWorld)
       (trueBounds sampleWorld overridden)) /\
  (Forall (coherent sampleWorld 1%nat) (nodes overViewRoot) /\
   resultOf invertByDeterminant overViewRoot 0%nat sampleWorld
   = Bounds.Box 9 11 13 15 /\
   trueBounds sampleWorld overViewRoot = Bounds.Box 7 8 11 12 /\
   ~ Bounds.contains
       (resultOf invertByDeterminant overViewRoot 0%nat sampleWorld)
       (trueBounds sampleWorld overViewRoot)) /\
  (Forall (coherent sampleWorld 0%nat) (nodes masked) /\
   resultOf invertByDeterminant masked 0%nat sampleWorld
   = Bounds.Box 2 2 3 3 /\
   trueBounds sampleWorld masked = Bounds.Box 0 0 10 10 /\
   ~ Bounds.contains
       (resultOf invertByDeterminant masked 0%nat sampleWorld)
       (trueBounds sampleWorld masked)) /\
  (coherent sampleWorld 0%nat inertGroup /\
   coherent sampleWorld 2%nat groupChild /\
   resultOf invertByDeterminant inertGroup 0%nat sampleWorld
   = Bounds.Box 0 0 10 10 /\
   trueBounds sampleWorld inertGroup = Bounds.Box 2 3 12 13 /\
   ~ Bounds.contains
       (resultOf invertByDeterminant inertGroup 0%nat sampleWorld)
       (trueBounds sampleWorld inertGroup)).
Proof.
  split; [| split; [| split]].
  - split; [| split; [| split]].
    + split; [repeat split | repeat constructor].
    + vm_compute. reflexivity.
    + vm_compute. reflexivity.
    + vm_compute. intros (_ & _ & H & _). apply H. reflexivity.
  - split; [| split; [| split]].
    + repeat constructor.
    + vm_compute. reflexivity.
    + vm_compute. reflexivity.
    + vm_compute. intros (H & _). apply H. reflexivity.
  - split; [| split; [| split]].
    + repeat constructor.
    + vm_compute. reflexivity.
    + vm_compute. reflexivity.
    + vm_compute. intros (_ & _ & H & _). apply H. reflexivity.
  - split; [| split; [| split; [| split]]].
    + reflexivity.
    + reflexivity.
    + vm_compute. reflexivity.
    + vm_compute. reflexivity.
    + vm_compute. intros (_ & _ & H & _). apply H. reflexivity.
Qed.

(** * The text view *)

Module TextViewFacts.

Import String.
Import TextView.

Section Facts.

Variable E : Env.

Lemma measured_withBounds (b : Z * Z * Z * Z) (dirty : bool) (v : t) :
  measured E (withBounds b dirty v) = measured E v.
Proof.
  unfold measured, _updateBounds. cbn [type _style get_text _text withBounds].
  destruct (String.eqb (type v) "bitmapText");
    [| destruct (String.eqb (type v) "htmlText")]; reflexivity.
Qed.

Lemma measured_set_resolution (value : Z) (v : t) :
  measured E (set_resolution value v) = measured E v.
Proof.
  unfold measured, _updateBounds.
  cbn [type _style get_text _text set_resolution].
  destruct (String.eqb (type v) "bitmapText");
    [| destruct (String.eqb (type v) "htmlText")]; reflexivity.
Qed.

Lemma measured_updateBounds (v : t) :
  measured E (_updateBounds E v) = measured E v.
Proof.
  unfold _updateBounds at 1.
  destruct (String.eqb (type v) "bitmapText");
    [| destruct (String.eqb (type v) "htmlText")];
    apply measured_withBounds.
Qed.

Lemma get_bounds_dirty (v : t) :
  _boundsDirty v = true ->
  fst (get_bounds E v) = measured E v /\
  _boundsDirty (snd (get_bounds E v)) = false /\
  _bounds (snd (get_bounds E v)) = measured E v /\
  measured E (snd (get_bounds E v)) = measured E v.
Proof.
  intros Hd. unfold get_bounds. rewrite Hd. cbn [fst snd].
  repeat split; try reflexivity.
  now rewrite measured_withBounds, measured_updateBounds.
Qed.

Lemma get_bounds_clean (v : t) :
  _boundsDirty v = false -> get_bounds E v = (_bounds v, v).
Proof.
  intros Hd. unfold get_bounds. now rewrite Hd.
Qed.

Lemma coherent_get_bounds (v : t) :
  coherent E v -> coherent E (snd (get_bounds E v)).
Proof.
  intros Hc. destruct (_boundsDirty v) eqn:Hd.
  - destruct (get_bounds_dirty v Hd) as (_ & _ & Hb & Hm).
    intros _. now rewrite Hb, Hm.
  - now rewrite get_bounds_clean.
Qed.

Lemma coherent_dirty (v : t) : _boundsDirty v = true -> coherent E v.
Proof.
  intros Hd Hf. congruence.
Qed.

Lemma snd_addBounds (bounds : Bounds.t) (v : t) :
  snd (addBounds E bounds v) = snd (get_bounds E v).
Proof.
  unfold addBounds. destruct (get_bounds E v) as [[[[b0 b1] b2] b3] v'].
  reflexivity.
Qed.

Lemma snd_containsPoint (px py : Z) (v : t) :
  snd (containsPoint E px py v) =
  snd (get_bounds E (snd (get_bounds E v))).
Proof.
  unfold containsPoint.
  destruct (get_bounds E v) as [[[[b0 b1] b2] b3] v1]. cbn [snd].
  destruct (get_bounds E v1) as [[[[c0 c1] c2] c3] v2]. cbn [snd].
  destruct ((- b2 * fst (anchor v2) <=? px) &&
            (px <? - b2 * fst (anchor v2) + b2)); [| reflexivity].
  destruct ((- c3 * snd (anchor v2) <=? py) &&
            (py <? - c3 * snd (anchor v2) + c3)); reflexivity.
Qed.

Lemma reachable_coherent (v : t) : reachable E v -> coherent E v.
Proof.
  induction 1 as [options g | value v _ IH | style v _ IH | value v _ IH
                  | v _ IH | v _ IH | bounds v _ IH | px py v _ IH].
  - apply coherent_dirty. reflexivity.
  - unfold set_text. destruct (sameText (_text v) (toString value));
      [exact IH | apply coherent_dirty; reflexivity].
  - apply coherent_dirty. reflexivity.
  - intros Hd. rewrite measured_set_resolution. now apply IH.
  - apply coherent_dirty. reflexivity.
  - now apply coherent_get_bounds.
  - rewrite snd_addBounds. now apply coherent_get_bounds.
  - rewrite snd_containsPoint. now do 2 apply coherent_get_bounds.
Qed.

Lemma get_bounds_coherent (v : t) :
  coherent E v ->
  fst (get_bounds E v) = measured E v /\
  measured E (snd (get_bounds E v)) = measured E v /\
  _boundsDirty (snd (get_bounds E v)) = false.
Proof.
  intros Hc. destruct (_boundsDirty v) eqn:Hd.
  - destruct (get_bounds_dirty v Hd) as (H1 & H2 & _ & H4). now repeat split.
  - rewrite get_bounds_clean by exact Hd. cbn [fst snd].
    repeat split; [now apply Hc | exact Hd].
Qed.

(** X12: Whatever methods of the view were called since its construction, the
    [bounds] getter returns what the measuring backend gives for the
    current text and style, never a stale value; and a second read
    returns the same without changing the view. *)
Theorem bounds_never_stale (v : t) :
  reachable E v ->
  fst (get_bounds E v) = measured E v /\
  get_bounds E (snd (get_bounds E v)) =
  (measured E v, snd (get_bounds E v)).
Proof.
  intros Hr. pose proof (reachable_coherent v Hr) as Hc.
  destruct (get_bounds_coherent v Hc) as (H1 & H2 & H3).
  split; [exact H1 |].
  rewrite get_bounds_clean by exact H3. f_equal.
  pose proof (coherent_get_bounds v Hc H3) as H4.
  now rewrite H4, H2.
Qed.

(** X15: For canvas and HTML text with the anchor at the origin and a
    padding that is not negative, every point [containsPoint] accepts
    lies inside the box [addBounds] contributes. *)
Theorem hit_inside_bounds (px py : Z) (v : t) :
  reachable E v ->
  String.eqb (type v) "bitmapText" = false ->
  anchor v = (0, 0) ->
  0 <= padding (_style v) ->
  fst (containsPoint E px py v) = true ->
  Bounds.inside (fst (addBounds E Bounds.Invalid v)) px py.
Proof.
  intros Hr Hty Ha Hp. pose proof (reachable_coherent v Hr) as Hc.
  destruct (get_bounds_coherent v Hc) as (H1 & H2 & H3).
  unfold containsPoint, addBounds.
  assert (Hanchor : anchor (snd (get_bounds E v)) = (0, 0)).
  { unfold get_bounds. destruct (_boundsDirty v); [| exact Ha].
    cbn [snd anchor withBounds]. unfold _updateBounds. rewrite Hty.
    destruct (String.eqb (type v) "htmlText"); exact Ha. }
  destruct (get_bounds E v) as [[[[b0 b1] b2] b3] v1] eqn:Hg.
  cbn [fst snd] in H1, H2, H3, Hanchor.
  rewrite (get_bounds_clean v1 H3).
  pose proof (coherent_get_bounds v Hc) as Hc1. rewrite Hg in Hc1.
  cbn [snd] in Hc1. rewrite (Hc1 H3), H2, <- H1, Hanchor. cbn [fst snd].
  assert (Hb : b0 = - padding (_style v) /\ b1 = - padding (_style v)).
  { unfold measured, _updateBounds in H1. rewrite Hty in H1.
    destruct (String.eqb (type v) "htmlText");
      cbn [_bounds withBounds] in H1; now inversion H1. }
  destruct Hb as [-> ->].
  destruct ((- b2 * 0 <=? px) && (px <? - b2 * 0 + b2)) eqn:Hx;
    [| discriminate].
  destruct ((- b3 * 0 <=? py) && (py <? - b3 * 0 + b3)) eqn:Hy;
    [| discriminate].
  intros _. apply andb_prop in Hx, Hy. cbn [Bounds.addFrame Bounds.inside].
  destruct Hx as [Hx1 Hx2]. destruct Hy as [Hy1 Hy2].
  apply Z.leb_le in Hx1, Hy1. apply Z.ltb_lt in Hx2, Hy2. lia.
Qed.

Lemma append_length (s u : string) :
  String.length (s ++ u) = (String.length s + String.length u)%nat.
Proof.
  induction s as [| c s IH]; cbn; [reflexivity | now rewrite IH].
Qed.

Lemma append_cancel_r (s s' u : string) :
  (s ++ u = s' ++ u)%string -> s = s'.
Proof.
  revert s'. induction s as [| c s IH]; intros [| c' s'] H; cbn in H.
  - reflexivity.
  - apply (f_equal String.length) in H. cbn in H.
    rewrite append_length in H. lia.
  - apply (f_equal String.length) in H. cbn in H.
    rewrite append_length in H. lia.
  - injection H as -> H. f_equal. now apply IH.
Qed.

Lemma append_assoc (s u x : string) :
  ((s ++ u) ++ x = s ++ (u ++ x))%string.
Proof.
  induction s as [| c s IH]; cbn; [reflexivity | now rewrite IH].
Qed.

(** X17: Two views with the same style key have the same [_getKey] only if
    they have the same text; across style keys the key does not tell
    views apart: a colon may belong to the text or to the style key. *)
Theorem key_tells_texts_apart (v v' : t) (s s' : string) :
  get_text v = Some s -> get_text v' = Some s' ->
  (styleKey (_style v) = styleKey (_style v') ->
   _getKey v = _getKey v' -> s = s') /\
  (forall k k',
     s = (s' ++ ":" ++ k')%string ->
     styleKey (_style v) = k ->
     styleKey (_style v') = (k' ++ ":" ++ k)%string ->
     _getKey v = _getKey v').
Proof.
  intros Ht Ht'. unfold _getKey. rewrite Ht, Ht'. cbn [template]. split.
  - intros Hk H. rewrite Hk in H. now apply append_cancel_r in H.
  - intros k k' -> -> ->. now rewrite !append_assoc.
Qed.


End Facts.

Lemma hello_reachable : reachable sampleEnv hello.
Proof. apply reach_construct. Defined.

Example hello_runs :
  fst (get_bounds sampleEnv hello) = (-2, 4, 98, 28) /\
  uid hello = 7%nat /\ type hello = "bitmapText"%string /\
  _autoResolution hello = false /\
  fst (containsPoint sampleEnv 97 27 hello) = true /\
  fst (containsPoint sampleEnv 98 27 hello) = false.
Proof. vm_compute. repeat split; reflexivity. Qed.

Lemma plainHello_reachable : reachable sampleEnv plainHello.
Proof. apply reach_set_text, reach_construct. Defined.

Example plainHello_runs :
  get_text (fst (construct sampleEnv plainOptions sampleStatics))
  = Some "42"%string /\
  fst (get_bounds sampleEnv plainHello) = (-2, -2, 48, 14) /\
  ownerUpdates plainHello = 2%nat /\
  _getKey plainHello = "hello:plain"%string /\
  fst (addBounds sampleEnv Bounds.Invalid plainHello)
  = Bounds.Box (-2) (-2) 48 14.
Proof. vm_compute. repeat split; reflexivity. Qed.

Lemma bounds_never_stale_witness :
  fst (get_bounds sampleEnv hello) = measured sampleEnv hello /\
  get_bounds sampleEnv (snd (get_bounds sampleEnv hello)) =
  (measured sampleEnv hello, snd (get_bounds sampleEnv hello)).
Proof.
  apply (bounds_never_stale sampleEnv hello).
  exact hello_reachable.
Defined.

Lemma key_tells_texts_apart_witness :
  _getKey (set_text (ofString "hello:a") plainHello) <>
  _getKey plainHello.
Proof.
  intros H.
  pose proof (key_tells_texts_apart
                (set_text (ofString "hello:a") plainHello) plainHello
                "hello:a" "hello" eq_refl eq_refl) as (Hsame & _).
  specialize (Hsame eq_refl H). discriminate Hsame.
Defined.

Lemma hit_inside_bounds_witness :
  Bounds.inside (fst (addBounds sampleEnv Bounds.Invalid plainHello)) 10 5.
Proof.
  apply (hit_inside_bounds sampleEnv 10 5 plainHello).
  - exact plainHello_reachable.
  - reflexivity.
  - reflexivity.
  - cbn. lia.
  - reflexivity.
Defined.

End TextViewFacts.

(** * The subtract blend shaders *)

Module SubtractBlendFacts.

Import QArith Qminmax Lqa.
Import SubtractBlend.
Local Open Scope Q_scope.

Lemma channel_colour (base blend opacity : Q) :
  0 <= base <= 1 -> 0 <= blend -> 0 <= opacity <= 1 ->
  0 <= GL.subtract base blend * opacity + base * (1 - opacity) <= 1.
Proof.
  intros Hb Hf Ha. unfold GL.subtract.
  destruct (Q.max_spec 0 (base - blend)) as [[H1 H2] | [H1 H2]];
    rewrite H2; nra.
Qed.

(** X18: Blending colours by subtraction gives a colour: for a backdrop
    and a source with every channel between 0 and 1 and a source alpha
    between 0 and 1, every channel of the output lies between 0 and 1;
    the output alpha is [uBlend]; and the GLSL and WGSL programs give
    the same output. *)
Theorem blend_keeps_colours (back front : vec4) (uBlend : Q) :
  colour (rgb back) -> colour (rgb front) -> 0 <= a front <= 1 ->
  colour (rgb (GL.main back front uBlend)) /\
  a (GL.main back front uBlend) = uBlend /\
  GPU.main back front uBlend = GL.main back front uBlend.
Proof.
  intros (Br & Bg & Bb) (Fr & Fg & Fb) Ha. cbn [r g b] in *.
  split; [| split; reflexivity].
  unfold colour, within, GL.main, GL.blendSubtract. cbn [rgb r g b].
  repeat split; apply channel_colour; tauto.
Qed.

(** X19: At opacity 0 the output is the backdrop, at opacity 1 it is the
    backdrop minus the source, cut off at zero. *)
Theorem blend_endpoints (base blend : vec3) :
  sameVec3 (GL.blendSubtract base blend 0) base /\
  sameVec3 (GL.blendSubtract base blend 1)
    (mkVec3 (Qmax 0 (r base - r blend)) (Qmax 0 (g base - g blend))
       (Qmax 0 (b base - b blend))).
Proof.
  unfold sameVec3, GL.blendSubtract, GL.subtract. cbn [r g b].
  repeat split; ring.
Qed.

Lemma blend_keeps_colours_witness :
  colour
    (rgb (GL.main (mkVec4 (mkVec3 (1 # 2) (1 # 4) 1) 1)
            (mkVec4 (mkVec3 (1 # 4) (1 # 2) (1 # 4)) (1 # 2)) (3 # 4))).
Proof.
  apply (blend_keeps_colours
           (mkVec4 (mkVec3 (1 # 2) (1 # 4) 1) 1)
           (mkVec4 (mkVec3 (1 # 4) (1 # 2) (1 # 4)) (1 # 2)) (3 # 4)).
  - unfold colour, within. cbn. repeat split; discriminate.
  - unfold colour, within. cbn. repeat split; discriminate.
  - cbn. split; discriminate.
Defined.

End SubtractBlendFacts.
